(** * GitGallery sync core: a shallow embedding of the TypeScript sources

    The development follows the source tree of the application:

    - [Fingerprint]  src/services/sync/utils.ts        (makeFingerprint)
    - [JobQueue]     src/services/sync/jobQueue.ts     (class JobQueue)
    - [Github]       src/services/sync/githubClient.ts (fetchFileSha, putFile, deleteFile)
    - [MetaIndex]    src/services/sync/metaIndex.ts    (manifest, shards, reverse indices)
    - [CloudCache]   src/services/sync/cloudCache.ts   (maybePruneRepo, removeEntry)
    - [LocalStore]   src/services/sync/localStore.ts   (the tables of the device)
    - [Events]       src/services/sync/events.ts       (class EventEmitter)
    - [Sync]         src/services/sync/index.ts        (upload batch, delete)

    Conventions of the embedding.  JavaScript strings are [string]s of
    bytes; a JavaScript [number] that is a finite integer is a [Z], and
    [jsnum] adds the non-finite values.  A value that may be [null] or
    [undefined] is an [option] (both are nullish for [??]) unless the
    difference is visible in the code, in which case it is a [nullable].
    Plain objects and [Map]s whose iteration order is used are association
    lists in insertion order; maps that are only read and written by key are
    [gmap]s.  Asynchronous functions are state-passing functions that return
    either a value or the error they throw. *)

Set Warnings "-register-all".
From stdpp Require Import base strings list gmap pretty.
From Stdlib Require Import ZArith Ascii Lia.
Local Open Scope Z_scope.

Module Js.

(** [string | null | undefined], where the difference between the two
    nullish values survives [JSON.stringify]. *)
Inductive nullable (A : Type) : Type :=
| Undefined
| Null
| Val (a : A).
Arguments Undefined {A}.
Arguments Null {A}.
Arguments Val {A} a.

(** [x ?? d] *)
Definition nullish {A : Type} (x : option A) (d : A) : A :=
  match x with
  | Some a => a
  | None => d
  end.

(** JavaScript numbers: integer-valued finite doubles and the three
    non-finite values. *)
Inductive jsnum : Type :=
| Fin (z : Z)
| NaN
| Inf (negative : bool).

(** [Number.isFinite(value)] *)
Definition isFinite (n : jsnum) : bool :=
  match n with
  | Fin _ => true
  | _ => false
  end.

(** Template-literal conversion [`${n}`] of an integer-valued number. *)
Definition number_to_string (z : Z) : string := pretty z.

(** Truthiness of a string: [""] is falsy. *)
Definition truthy_string (s : string) : bool :=
  match s with
  | EmptyString => false
  | String _ _ => true
  end.

(** [s || d] on strings. *)
Definition or_string (s d : string) : string :=
  if truthy_string s then s else d.

(** JSON values as [JSON.parse] returns them.  Numbers are integers, which
    is what the sync code writes. *)
Inductive json : Type :=
| JNull
| JBool (b : bool)
| JNum (z : Z)
| JStr (s : string)
| JArr (items : list json)
| JObj (fields : list (string * json)).

(** Association lists keyed by strings, with the update discipline of a
    JavaScript object or [Map]: assignment to a present key keeps its
    position, a new key goes last. *)
Fixpoint lookup_key {A : Type} (k : string) (l : list (string * A)) : option A :=
  match l with
  | [] => None
  | (k', v) :: rest => if decide (k' = k) then Some v else lookup_key k rest
  end.

Fixpoint assign {A : Type} (k : string) (v : A) (l : list (string * A)) : list (string * A) :=
  match l with
  | [] => [(k, v)]
  | (k', v') :: rest => if decide (k' = k) then (k, v) :: rest else (k', v') :: assign k v rest
  end.

Fixpoint remove_key {A : Type} (k : string) (l : list (string * A)) : list (string * A) :=
  match l with
  | [] => []
  | (k', v') :: rest => if decide (k' = k) then remove_key k rest else (k', v') :: remove_key k rest
  end.

(** What a JavaScript [throw] carries, as far as the code inspects it:
    Octokit request errors expose the HTTP [status]; a request may also
    fail without a response; the code itself throws [new Error(message)]. *)
Inductive error : Type :=
| RequestError (status : Z)
| NetworkFailure
| Exception (message : string).

(** [error?.status === 404] *)
Definition is404 (e : error) : bool :=
  match e with
  | RequestError 404 => true
  | _ => false
  end.

(** [error?.message ?? String(error)] *)
Definition message_of (e : error) : string :=
  match e with
  | RequestError status => "HttpError " +:+ number_to_string status
  | NetworkFailure => "Network request failed"
  | Exception message => message
  end.

(** The result of running an [async] function to completion. *)
Inductive result (A : Type) : Type :=
| Ok (a : A)
| Throw (e : error).
Arguments Ok {A} a.
Arguments Throw {A} e.

Definition result_value {A : Type} (r : result A) : option A :=
  match r with
  | Ok a => Some a
  | Throw _ => None
  end.

(** An [async] function over the mutable state [S]: the state it leaves
    behind is kept also when it throws. *)
Definition M (S A : Type) : Type := S → result A * S.

Definition ret {S A : Type} (a : A) : M S A := λ s, (Ok a, s).

Definition throw {S A : Type} (e : error) : M S A := λ s, (Throw e, s).

Definition bind {S A B : Type} (m : M S A) (k : A → M S B) : M S B :=
  λ s, match m s with
       | (Ok a, s') => k a s'
       | (Throw e, s') => (Throw e, s')
       end.

Definition get {S : Type} : M S S := λ s, (Ok s, s).

Definition gets {S A : Type} (f : S → A) : M S A := λ s, (Ok (f s), s).

Definition modify {S : Type} (f : S → S) : M S unit := λ s, (Ok tt, f s).

(** [try { m } catch (error) { handler(error) }] *)
Definition try_catch {S A : Type} (m : M S A) (handler : error → M S A) : M S A :=
  λ s, match m s with
       | (Ok a, s') => (Ok a, s')
       | (Throw e, s') => handler e s'
       end.

(** [try { m } finally { cleanup }], for a [cleanup] that does not throw. *)
Definition finally {S A : Type} (m : M S A) (cleanup : S → S) : M S A :=
  λ s, let '(r, s') := m s in (r, cleanup s').

(** Run an operation of a component on the part of the state it owns. *)
Definition zoom {S T A : Type} (proj : S → T) (inj : T → S → S) (m : M T A) : M S A :=
  λ s, let '(r, t') := m (proj s) in (r, inj t' s).

(** [for (const x of items) { await body(x) }] *)
Fixpoint for_each {S A : Type} (items : list A) (body : A → M S unit) : M S unit :=
  match items with
  | [] => ret tt
  | x :: rest => bind (body x) (λ _, for_each rest body)
  end.

(** A relation between the state before and the state after that every
    step of a function maintains, whether it returns or throws. *)
Definition maintains {S A : Type} (R : S → S → Prop) (m : M S A) : Prop :=
  ∀ s, R s (m s).2.

End Js.

Notation "'let*' x ':=' m 'in' k" := (Js.bind m (λ x, k))
  (at level 10, x pattern, m at level 100, k at level 200).
Notation "m ';;' k" := (Js.bind m (λ _, k))
  (at level 100, k at level 200, right associativity).

(** ** Strings, regular expressions, dates and JSON as the code uses them *)

Module Text.
Import Js.

Fixpoint map_chars (f : ascii → ascii) (s : string) : string :=
  match s with
  | EmptyString => EmptyString
  | String c r => String (f c) (map_chars f r)
  end.

Definition is_digit (c : ascii) : bool :=
  let n := nat_of_ascii c in (48 <=? n)%nat && (n <=? 57)%nat.

Definition is_lower (c : ascii) : bool :=
  let n := nat_of_ascii c in (97 <=? n)%nat && (n <=? 122)%nat.

Definition is_upper (c : ascii) : bool :=
  let n := nat_of_ascii c in (65 <=? n)%nat && (n <=? 90)%nat.

(** White space of [String.prototype.trim] among the bytes. *)
Definition is_space (c : ascii) : bool :=
  let n := nat_of_ascii c in ((9 <=? n)%nat && (n <=? 13)%nat) || (n =? 32)%nat.

(** Line terminators, which [.] does not match. *)
Definition is_line_terminator (c : ascii) : bool :=
  let n := nat_of_ascii c in (n =? 10)%nat || (n =? 13)%nat.

Definition lower_char (c : ascii) : ascii :=
  if is_upper c then ascii_of_nat (nat_of_ascii c + 32) else c.

(** [s.toLowerCase()] *)
Definition toLowerCase (s : string) : string := map_chars lower_char s.

Fixpoint trimStart (s : string) : string :=
  match s with
  | EmptyString => EmptyString
  | String c r => if is_space c then trimStart r else s
  end.

Fixpoint trimEnd (s : string) : string :=
  match s with
  | EmptyString => EmptyString
  | String c r =>
      match trimEnd r with
      | EmptyString => if is_space c then EmptyString else String c EmptyString
      | r' => String c r'
      end
  end.

(** [s.trim()] *)
Definition trim (s : string) : string := trimEnd (trimStart s).

(** [String(n).padStart(2, '0')] *)
Definition pad2 (n : Z) : string :=
  let s := number_to_string n in
  match s with
  | String _ EmptyString => "0" +:+ s
  | _ => s
  end.

(** [s.split(sep)] for a separator of one character. *)
Fixpoint split (sep : ascii) (s : string) : list string :=
  match s with
  | EmptyString => [EmptyString]
  | String c r =>
      if decide (c = sep) then EmptyString :: split sep r
      else match split sep r with
           | first :: others => String c first :: others
           | [] => [String c EmptyString]
           end
  end.

Fixpoint digits_value (acc : Z) (s : string) : option Z :=
  match s with
  | EmptyString => Some acc
  | String c r =>
      if is_digit c then digits_value (10 * acc + Z.of_nat (nat_of_ascii c - 48)) r
      else None
  end.

(** [Number(s)] for the strings that the sync code produces: white space
    around the text is ignored, the empty text is 0, a decimal integer with
    an optional sign is its value, and any other text is [NaN]. *)
Definition Number (s : string) : jsnum :=
  match trim s with
  | EmptyString => Fin 0
  | String "-" (String c r) => match digits_value 0 (String c r) with
                               | Some z => Fin (- z)
                               | None => NaN
                               end
  | String "+" (String c r) => match digits_value 0 (String c r) with
                               | Some z => Fin z
                               | None => NaN
                               end
  | t => match digits_value 0 t with
         | Some z => Fin z
         | None => NaN
         end
  end.

(** [a.localeCompare(b) < 0] on the alphabet of bucket names, where the
    collation order is the order of the bytes. *)
Fixpoint string_lt (a b : string) : bool :=
  match a, b with
  | _, EmptyString => false
  | EmptyString, String _ _ => true
  | String x a', String y b' =>
      if (nat_of_ascii x <? nat_of_ascii y)%nat then true
      else if (nat_of_ascii y <? nat_of_ascii x)%nat then false
      else string_lt a' b'
  end.

(** [s.startsWith(p)], returning the rest of [s]. *)
Fixpoint after_prefix (p s : string) : option string :=
  match p, s with
  | EmptyString, _ => Some s
  | String a p', String b s' => if decide (a = b) then after_prefix p' s' else None
  | String _ _, EmptyString => None
  end.

End Text.

(** Regular expressions, in the form in which they occur in the sources: a
    sequence of anchors, literal characters and capturing groups. *)
Module Regex.
Import Js Text.

Inductive item : Type :=
| Bol                (* [^] *)
| Eol                (* [$] *)
| Chr (c : ascii)    (* a literal or escaped character *)
| Digits (n : nat)   (* the group [(\d{n})] *)
| AnyPlus.           (* the group [(.+)] *)

Fixpoint lit (s : string) : list item :=
  match s with
  | EmptyString => []
  | String c r => Chr c :: lit r
  end.

Fixpoint take_digits (n : nat) (s : string) : option (string * string) :=
  match n with
  | O => Some (EmptyString, s)
  | S n' =>
      match s with
      | String c r =>
          if is_digit c then
            match take_digits n' r with
            | Some (d, rest) => Some (String c d, rest)
            | None => None
            end
          else None
      | EmptyString => None
      end
  end.

(** The greedy [(.+)]: the longest run of characters first, then shorter
    ones, each tried with the continuation [k]. *)
Fixpoint any_plus (taken : string) (s : string)
    (k : string → string → option (list string)) : option (list string) :=
  match s with
  | EmptyString => None
  | String c r =>
      if is_line_terminator c then None
      else
        let taken := taken +:+ String c EmptyString in
        match any_plus taken r k with
        | Some caps => Some caps
        | None => k taken r
        end
  end.

(** Match the items at the current position; [at_start] tells whether the
    position is the start of the input.  The result is the list of the
    captured groups. *)
Fixpoint match_here (items : list item) (at_start : bool) (s : string) : option (list string) :=
  match items with
  | [] => Some []
  | Bol :: rest => if at_start then match_here rest at_start s else None
  | Eol :: rest =>
      match s with
      | EmptyString => match_here rest at_start s
      | String _ _ => None
      end
  | Chr c :: rest =>
      match s with
      | String c' s' => if decide (c = c') then match_here rest false s' else None
      | EmptyString => None
      end
  | Digits n :: rest =>
      match take_digits n s with
      | Some (d, s') =>
          match match_here rest (match n with O => at_start | S _ => false end) s' with
          | Some caps => Some (d :: caps)
          | None => None
          end
      | None => None
      end
  | AnyPlus :: rest =>
      any_plus EmptyString s
        (λ taken s', match match_here rest false s' with
                     | Some caps => Some (taken :: caps)
                     | None => None
                     end)
  end.

Fixpoint search_from (items : list item) (at_start : bool) (s : string) : option (list string) :=
  match match_here items at_start s with
  | Some caps => Some caps
  | None =>
      match s with
      | EmptyString => None
      | String _ r => search_from items false r
      end
  end.

(** [s.match(re)] for a regular expression without flags: the groups of
    the leftmost match. *)
Definition match_ (items : list item) (s : string) : option (list string) :=
  search_from items true s.

End Regex.

(** [Date] in UTC. *)
Module Date.

Definition MS_PER_DAY : Z := 86400000.

(** [new Date(value).getTime()] is [NaN] beyond this bound. *)
Definition MAX_TIME : Z := 8640000000000000.

(** Year, month (1 to 12) and day of the month of a count of days since
    1970-01-01 in the proleptic Gregorian calendar. *)
Definition civil (days : Z) : Z * Z * Z :=
  let z := days + 719468 in
  let era := z / 146097 in
  let doe := z - era * 146097 in
  let yoe := (doe - doe / 1460 + doe / 36524 - doe / 146096) / 365 in
  let y := yoe + era * 400 in
  let doy := doe - (365 * yoe + yoe / 4 - yoe / 100) in
  let mp := (5 * doy + 2) / 153 in
  let d := doy - (153 * mp + 2) / 5 + 1 in
  let m := if mp <? 10 then mp + 3 else mp - 9 in
  (if m <=? 2 then y + 1 else y, m, d).

(** [getUTCFullYear()], [getUTCMonth() + 1], [getUTCDate()] *)
Definition utc_date (ms : Z) : Z * Z * Z := civil (ms / MS_PER_DAY).

End Date.

Module Json.
Import Js.

(** [typeof x === 'string' && x.length > 0 ? x : null] *)
Definition nonempty_string (j : option json) : option string :=
  match j with
  | Some (JStr s) => if truthy_string s then Some s else None
  | _ => None
  end.

(** Property access [x?.name]; [None] is [undefined]. *)
Definition field (name : string) (j : option json) : option json :=
  match j with
  | Some (JObj fields) => lookup_key name fields
  | _ => None
  end.

Fixpoint index_keys (i : Z) (items : list json) : list (string * json) :=
  match items with
  | [] => []
  | x :: rest => (number_to_string i, x) :: index_keys (i + 1) rest
  end.

(** [Object.entries(x)] when [x && typeof x === 'object'].  The own keys
    of an object are taken in the order of the JSON text. *)
Definition entries_of (j : option json) : option (list (string * json)) :=
  match j with
  | Some (JObj fields) => Some fields
  | Some (JArr items) => Some (index_keys 0 items)
  | _ => None
  end.

(** [x && typeof x === 'object'] *)
Definition is_object (j : json) : bool :=
  match j with
  | JObj _ | JArr _ => true
  | _ => false
  end.

End Json.

(** ** utils.ts: the asset fingerprint *)

Module Fingerprint.
Import Js.

(** The fields of [MediaLibrary.Asset] that the sync code reads. *)
Record Asset : Type := mkAsset {
  id : string;
  filename : string;
  uri : string;
  creationTime : option Z;
  modificationTime : option Z;
  fileSize : option Z;
}.

(** [asset.filename || `asset-${asset.id}`] *)
Definition effectiveFilename (asset : Asset) : string :=
  or_string (filename asset) ("asset-" +:+ id asset).

(** [asset.creationTime ?? asset.modificationTime ?? 0] *)
Definition effectiveCreatedAt (asset : Asset) : Z :=
  match creationTime asset with
  | Some t => t
  | None => nullish (modificationTime asset) 0
  end.

(** [(asset as any).fileSize ?? 0] *)
Definition effectiveFileSize (asset : Asset) : Z :=
  nullish (fileSize asset) 0.

(** [makeFingerprint], utils.ts lines 10-15. *)
Definition makeFingerprint (asset : Asset) : string :=
  let filename := effectiveFilename asset in
  let createdAt := effectiveCreatedAt asset in
  let fileSize := effectiveFileSize asset in
  filename +:+ "|" +:+ number_to_string createdAt +:+ "|" +:+ number_to_string fileSize.

(** The three inputs as the asset carries them, before the fall-backs:
    the file name, the creation time or else the modification time, and
    the size. *)
Definition rawInputs (asset : Asset) : string * option Z * option Z :=
  (filename asset,
   match creationTime asset with
   | Some t => Some t
   | None => modificationTime asset
   end,
   fileSize asset).

(** The three values that enter the template literal. *)
Definition effectiveInputs (asset : Asset) : string * Z * Z :=
  (effectiveFilename asset, effectiveCreatedAt asset, effectiveFileSize asset).

End Fingerprint.

(** ** utils.ts: the canonical remote path *)

Module Utils.
Import Js Text Fingerprint.

Definition DEFAULT_BRANCH : string := "main".

Fixpoint filter_chars (keep : ascii → bool) (s : string) : string :=
  match s with
  | EmptyString => EmptyString
  | String c r => if keep c then String c (filter_chars keep r) else filter_chars keep r
  end.

(** [s.replace(/[class]+/g, by)]: every maximal run of characters of the
    class becomes one [by]. *)
Fixpoint collapse_runs (class : ascii → bool) (by_ : ascii) (in_run : bool) (s : string) : string :=
  match s with
  | EmptyString => EmptyString
  | String c r =>
      if class c then
        if in_run then collapse_runs class by_ true r
        else String by_ (collapse_runs class by_ true r)
      else String c (collapse_runs class by_ false r)
  end.

Fixpoint strip_leading (class : ascii → bool) (s : string) : string :=
  match s with
  | EmptyString => EmptyString
  | String c r => if class c then strip_leading class r else s
  end.

Fixpoint strip_trailing (class : ascii → bool) (s : string) : string :=
  match s with
  | EmptyString => EmptyString
  | String c r =>
      match strip_trailing class r with
      | EmptyString => if class c then EmptyString else String c EmptyString
      | r' => String c r'
      end
  end.

Definition is_control (c : ascii) : bool :=
  let n := nat_of_ascii c in (n <=? 31)%nat || ((127 <=? n)%nat && (n <=? 159)%nat).

Fixpoint one_of (chars : string) (c : ascii) : bool :=
  match chars with
  | EmptyString => false
  | String x r => bool_decide (x = c) || one_of r c
  end.

Definition is_dash (c : ascii) : bool := bool_decide (c = "-"%char).

(** [[a-zA-Z0-9._ -]] *)
Definition is_safe (c : ascii) : bool :=
  is_lower c || is_upper c || is_digit c || one_of "._ -" c.

(** The double quote. *)
Definition double_quote : ascii := ascii_of_nat 34.

(** [sanitizeFilename], lines 21-37, on strings of ASCII characters (which
    [normalize('NFC')] leaves as they are). *)
Definition sanitizeFilename (filename fallback : string) : string :=
  let next := filter_chars (λ c, negb (is_control c)) filename in
  let next := map_chars (λ c, if one_of "\/" c then "-"%char else c) next in
  let next := map_chars (λ c, if one_of (":*?" +:+ String double_quote "<>|") c then "-"%char else c) next in
  let next := trim (collapse_runs is_space " "%char false next) in
  let next := collapse_runs (λ c, negb (is_safe c)) "-"%char false next in
  let next := strip_trailing is_dash (strip_leading is_dash next) in
  if negb (truthy_string next) || bool_decide (next = ".") || bool_decide (next = "..")
  then fallback else next.

(** [sanitizeFolderName], lines 39-42. *)
Definition sanitizeFolderName (name : string) : string :=
  or_string (sanitizeFilename name "Unsorted") "Unsorted".

(** [buildFileSegment], lines 44-51. *)
Definition buildFileSegment (filename fingerprint : string) : string :=
  let original := if truthy_string (trim filename) then filename else EmptyString in
  let sanitized := sanitizeFilename original ("asset-" +:+ fingerprint) in
  if one_of sanitized "."%char then sanitized else sanitized +:+ ".jpg".

(** [path.replace(/\/+/, '/')]: only the first run of slashes. *)
Fixpoint collapse_first_slashes (s : string) : string :=
  match s with
  | EmptyString => EmptyString
  | String c r =>
      if decide (c = "/"%char) then String "/" (strip_leading (λ c, bool_decide (c = "/"%char)) r)
      else String c (collapse_first_slashes r)
  end.

(** [normalizePath], lines 17-19. *)
Definition normalizePath (path : string) : string :=
  collapse_first_slashes (map_chars (λ c, if decide (c = "\"%char) then "/"%char else c) path).

(** [determineRepoPath], lines 107-111. *)
Definition determineRepoPath (folderName filename fingerprint : string) : string :=
  let folderSegment := sanitizeFolderName folderName in
  let fileSegment := buildFileSegment filename fingerprint in
  normalizePath ("gitgallery/images/" +:+ folderSegment +:+ "/" +:+ fileSegment).

(** [resolveBranch], lines 180-182. *)
Definition resolveBranch (branch : string) : string :=
  if truthy_string (trim branch) then branch else DEFAULT_BRANCH.

(** What the device tells about the file of an asset: the URI of the local
    copy, the folder name that [resolveFolderName] arrives at, the file name
    and the size that the file system reports, the content in base64 and its
    digest. *)
Record AssetFile : Type := mkAssetFile {
  localUri : string;
  folderName : string;
  infoFilename : option string;
  infoSize : option Z;
  contentBase64 : string;
  digest : string;
}.

(** [type PreparedAsset] of types.ts. *)
Record PreparedAsset : Type := mkPrepared {
  asset : Asset;
  p_localUri : string;
  repoPath : string;
  fingerprint : string;
  creationTime : option Z;
  fileSize : option Z;
  p_contentBase64 : string;
  contentHash : option string;
}.

(** [prepareAsset], lines 131-169, given what the device answers: [None]
    when a step throws, when there is no URI, or when the URI is inline
    data. *)
Definition prepareAsset (a : Asset) (answer : option AssetFile) : option PreparedAsset :=
  match answer with
  | None => None
  | Some file =>
      let localUri := localUri file in
      if negb (truthy_string localUri) then None
      else if bool_decide (is_Some (after_prefix "data:" localUri)) then None
      else
        let fingerprint := makeFingerprint a in
        let name := match infoFilename file with
                    | Some n => n
                    | None => Fingerprint.filename a
                    end in
        let repoPath := determineRepoPath (folderName file) name fingerprint in
        let fileSize := match infoSize file with
                        | Some n => Some n
                        | None => Fingerprint.fileSize a
                        end in
        Some (mkPrepared a localUri repoPath fingerprint
                (match Fingerprint.creationTime a with
                 | Some t => Some t
                 | None => modificationTime a
                 end)
                fileSize (contentBase64 file) (Some (digest file)))
  end.

(** [items.slice(start, end)]: a negative index counts from the end, and
    both indices are clamped to the length. *)
Definition slice_index (len k : Z) : Z :=
  if k <? 0 then Z.max (len + k) 0 else Z.min k len.

Definition slice {T : Type} (items : list T) (start end_ : Z) : list T :=
  let len := Z.of_nat (length items) in
  let from := slice_index len start in
  let to := slice_index len end_ in
  take (Z.to_nat (to - from)) (drop (Z.to_nat from) items).

(** The loop of [chunk], lines 173-176, for a positive [size]: it is
    entered at most once for each item. *)
Fixpoint chunk_loop {T : Type} (turns : nat) (items : list T) (size i : Z)
    (chunks : list (list T)) : list (list T) :=
  match turns with
  | O => chunks
  | S turns =>
      if i <? Z.of_nat (length items)
      then chunk_loop turns items size (i + size) (chunks ++ [slice items i (i + size)])
      else chunks
  end.

(** [chunk], lines 171-178, for an integer [size]. *)
Definition chunk {T : Type} (items : list T) (size : Z) : list (list T) :=
  if size <=? 0 then [items]
  else chunk_loop (length items) items size 0 [].

End Utils.
(** ** jobQueue.ts: the promise chain that serializes sync jobs *)

(** Promises are described by their settlement on the logical clock of the
    event loop: a promise either settles at some tick with an outcome, or
    never settles.  A reaction registered on a promise runs at the tick at
    which the promise settles, or at the tick of registration when the
    promise has settled before. *)
Module Promise.

Inductive outcome : Type :=
| Fulfilled
| Rejected.

Definition promise : Type := option (nat * outcome).

(** [Promise.resolve()] evaluated at tick [now]. *)
Definition resolve (now : nat) : promise := Some (now, Fulfilled).

(** [p.then(cb)] registered at tick [now], for a callback [cb] that returns
    a promise.  The second component is the tick at which [cb] is called,
    if it is called at all.  A rejection of [p] passes through. *)
Definition then_ (p : promise) (now : nat) (cb : nat → promise) : promise * option nat :=
  match p with
  | None => (None, None)
  | Some (t, Fulfilled) => let s := Nat.max t now in (cb s, Some s)
  | Some (t, Rejected) => (Some (Nat.max t now, Rejected), None)
  end.

(** [p.catch(() => {})] registered at tick [now]: the handler returns
    [undefined], so the result is fulfilled whatever the outcome of [p]. *)
Definition catch_ (p : promise) (now : nat) : promise :=
  match p with
  | None => None
  | Some (t, _) => Some (Nat.max t now, Fulfilled)
  end.

(** [p.finally(f)] registered at tick [now], for an [f] that does not
    throw: same outcome as [p]. *)
Definition finally_ (p : promise) (now : nat) : promise :=
  match p with
  | None => None
  | Some (t, o) => Some (Nat.max t now, o)
  end.

(** Has the promise settled by tick [now]? *)
Definition settled_by (p : promise) (now : nat) : bool :=
  match p with
  | None => false
  | Some (t, _) => Nat.leb t now
  end.

End Promise.

Module JobQueue.
Import Promise.

(** [type Job<T> = () => Promise<T>].  Called at tick [s], a job returns a
    promise that settles some ticks later with an outcome, or never.  A job
    that throws before its first [await] is a job that rejects at once. *)
Definition Job : Type := nat → option (nat * outcome).

(** The promise that [job()] returns when it is called at tick [s]. *)
Definition call (job : Job) (s : nat) : promise :=
  match job s with
  | None => None
  | Some (d, o) => Some (s + d, o)
  end%nat.

(** The fields of the class.  [size] is decremented inside [finally]
    callbacks, that is at the ticks at which the returned promises settle;
    the record keeps those promises and [pending] counts at a given tick. *)
Record t : Type := mk {
  current : promise;
  returned : list promise;
}.

(** [new JobQueue()] at tick [now]: [current = Promise.resolve()], [size = 0]. *)
Definition new (now : nat) : t :=
  {| current := resolve now; returned := [] |}.

(** [enqueue(job)] called at tick [now], lines 102-109:
    [wrapped = this.current.then(() => job());
     this.current = wrapped.catch(() => {});
     return wrapped.finally(...)].
    The result is the new queue, the returned promise, and the tick at
    which [job] is called (if ever). *)
Definition enqueue (q : t) (job : Job) (now : nat) : t * promise * option nat :=
  let '(wrapped, started) := then_ (current q) now (call job) in
  let result := finally_ wrapped now in
  ({| current := catch_ wrapped now; returned := returned q ++ [result] |},
   result, started).

(** [get pending()] read at tick [now]. *)
Definition pending (q : t) (now : nat) : nat :=
  length (List.filter (λ p, negb (settled_by p now)) (returned q)).

(** A sequence of [enqueue] calls, each with its tick: for each job the
    promise returned to the caller and the tick at which the job starts. *)
Fixpoint enqueue_all (q : t) (jobs : list (Job * nat)) : list (promise * option nat) :=
  match jobs with
  | [] => []
  | (job, now) :: rest =>
      let '(q', result, started) := enqueue q job now in
      (result, started) :: enqueue_all q' rest
  end.

End JobQueue.

(** ** githubClient.ts: the remote storage bridge *)

Module Github.
Import Js Text.

(** The bytes of a remote file: either the UTF-8 text of a JSON value, or
    other bytes (a photo), which are carried in base64 and which
    [JSON.parse] rejects. *)
Inductive content : Type :=
| JsonText (value : json)
| Bytes (base64 : string).

Record file : Type := mkFile {
  f_content : content;
  f_sha : string;
}.

(** A write request as it is issued to the backend. *)
Inductive request : Type :=
| Put (path message : string) (body : content) (sha : option string)
| Delete (path message : string) (sha : string).

(** Modelled from the spec: the backend is an external service; sections 1
    and 4.2 give its contract, "content PUT/GET/DELETE with
    optimistic-concurrency SHAs" whose "only write primitive is replace file
    at path if its current version SHA matches".  A repository is the files
    of the configured branch by path, in listing order; [blob_hash] gives
    the SHA that the backend assigns to a content.  [faults] is the fate of
    the coming requests ([true]: the request fails without a response), and
    [issued] logs the write requests in the order in which they are sent. *)
Record remote : Type := mkRemote {
  files : list (string * file);
  blob_hash : content → string;
  faults : list bool;
  issued : list request;
}.

Definition set_files (fs : list (string * file)) (r : remote) : remote :=
  {| files := fs; blob_hash := blob_hash r; faults := faults r; issued := issued r |}.

Definition set_faults (fl : list bool) (r : remote) : remote :=
  {| files := files r; blob_hash := blob_hash r; faults := fl; issued := issued r |}.

Definition log_request (q : request) (r : remote) : remote :=
  {| files := files r; blob_hash := blob_hash r; faults := faults r; issued := issued r ++ [q] |}.

(** The part of a relative path up to its first [/], and whether a [/]
    follows. *)
Fixpoint first_segment (s : string) : string * bool :=
  match s with
  | EmptyString => (EmptyString, false)
  | String c rest =>
      if decide (c = "/"%char) then (EmptyString, true)
      else let '(seg, more) := first_segment rest in (String c seg, more)
  end.

(** One item of a directory listing. *)
Record item : Type := mkItem {
  i_dir : bool;
  i_path : string;
}.

Fixpoint add_item (it : item) (l : list item) : list item :=
  match l with
  | [] => [it]
  | it' :: rest => if decide (i_path it' = i_path it) then l else it' :: add_item it rest
  end.

(** The children of directory [dir]: for every file below it, the file
    itself or the sub-directory that leads to it. *)
Fixpoint children (dir : string) (fs : list (string * file)) : list item :=
  match fs with
  | [] => []
  | (path, _) :: rest =>
      let others := children dir rest in
      match after_prefix (dir +:+ "/") path with
      | Some rel =>
          let '(seg, more) := first_segment rel in
          add_item (mkItem more (dir +:+ "/" +:+ seg)) others
      | None => others
      end
  end.

(** [response.data] of [octokit.repos.getContent]. *)
Inductive contents : Type :=
| FileData (path : string) (body : content) (sha : string)
| DirData (items : list item).

(** Every request first consumes its fate. *)
Definition request_ {A : Type} (respond : M remote A) : M remote A :=
  λ r, match faults r with
       | true :: rest => (Throw NetworkFailure, set_faults rest r)
       | false :: rest => respond (set_faults rest r)
       | [] => respond r
       end.

(** [octokit.repos.getContent({ path })] *)
Definition getContent (path : string) : M remote contents :=
  request_ (λ r,
    match lookup_key path (files r) with
    | Some f => (Ok (FileData path (f_content f) (f_sha f)), r)
    | None =>
        match children path (files r) with
        | [] => (Throw (RequestError 404), r)
        | items => (Ok (DirData items), r)
        end
    end).

(** [octokit.repos.createOrUpdateFileContents({ path, content, message, sha })]:
    the write goes through when [sha] names the current version of the file,
    or when there is neither a file nor a [sha]; the response carries the SHA
    of the new content. *)
Definition createOrUpdateFileContents (path message : string) (body : content)
    (sha : option string) : M remote (option string) :=
  λ r0, request_ (λ r,
    match lookup_key path (files r), sha with
    | Some f, Some expected =>
        if decide (f_sha f = expected)
        then let new := blob_hash r body in
             (Ok (Some new), set_files (assign path (mkFile body new) (files r)) r)
        else (Throw (RequestError 409), r)
    | Some _, None => (Throw (RequestError 409), r)
    | None, Some _ => (Throw (RequestError 409), r)
    | None, None =>
        match children path (files r) with
        | [] => let new := blob_hash r body in
                (Ok (Some new), set_files (assign path (mkFile body new) (files r)) r)
        | _ => (Throw (RequestError 422), r)
        end
    end) (log_request (Put path message body sha) r0).

(** [octokit.repos.deleteFile({ path, sha, message })] *)
Definition deleteFile_ (path message sha : string) : M remote unit :=
  λ r0, request_ (λ r,
    match lookup_key path (files r) with
    | Some f =>
        if decide (f_sha f = sha)
        then (Ok tt, set_files (remove_key path (files r)) r)
        else (Throw (RequestError 409), r)
    | None => (Throw (RequestError 404), r)
    end) (log_request (Delete path message sha) r0).

(** [fetchFileSha], lines 37-56. *)
Definition fetchFileSha (path : string) : M remote (option string) :=
  try_catch
    (let* data := getContent path in
     match data with
     | DirData _ => ret None
     | FileData _ _ sha => ret (Some sha)
     end)
    (λ error, if is404 error then ret None else throw error).

(** [putFile], lines 58-81: [sha = params.sha ?? (await fetchFileSha(...))]. *)
Definition putFile (path message : string) (contentBase64 : string) (sha : option string)
    : M remote (option string) :=
  let* sha :=
    match sha with
    | Some given => ret (Some given)
    | None => fetchFileSha path
    end in
  createOrUpdateFileContents path message (Bytes contentBase64) sha.

(** [deleteFile], lines 83-99: [if (!sha) return]. *)
Definition deleteFile (path message : string) : M remote unit :=
  let* sha := fetchFileSha path in
  match sha with
  | None => ret tt
  | Some sha =>
      if truthy_string sha then deleteFile_ path message sha else ret tt
  end.

(** The spec's name for a rejected conditional write. *)
Definition VersionConflict : error := RequestError 409.

End Github.

(** ** metaIndex.ts: the sharded remote metadata store *)

Module MetaIndex.
Import Js Text Regex Json Github.

Definition META_ROOT : string := "gitgallery/meta".
Definition META_MANIFEST_PATH : string := META_ROOT +:+ "/manifest.json".
Definition LEGACY_META_SHARD_DIR : string := META_ROOT +:+ "/shards".
Definition SHARD_FILENAME : string := "meta_dict.json".
Definition MANIFEST_VERSION : Z := 1.
Definition SHARD_VERSION : Z := 1.
Definition DEFAULT_PRELOAD_TARGET : Z := 450.

(** [type MetaEntry] of types.ts.  The two optional fields may be
    [undefined]. *)
Record MetaEntry : Type := mkMetaEntry {
  fingerprint : string;
  repoPath : string;
  previewRepoPath : nullable string;
  createdAt : option jsnum;
  fileSize : option jsnum;
  contentHash : option string;
  uploadedAt : option jsnum;
  assetId : nullable string;
}.

(** [type MetaShardEntry = MetaEntry & { updatedAt: number }] *)
Record MetaShardEntry : Type := mkShardEntry {
  entry : MetaEntry;
  updatedAt : Z;
}.

(** [type ManifestShardInfo] *)
Module Info.
Record t : Type := mk {
  path : string;
  count : Z;
  updatedAt : Z;
  sha : option string;
}.
End Info.

(** [type MetaManifest] *)
Module Manifest.
Record t : Type := mk {
  version : Z;
  updatedAt : Z;
  shards : list (string * Info.t);
}.
End Manifest.

(** [type MetaShardDocument] *)
Module Doc.
Record t : Type := mk {
  version : Z;
  bucket : string;
  generatedAt : Z;
  entries : list (string * MetaShardEntry);
}.
End Doc.

(** [type ShardCacheEntry] *)
Module Shard.
Record t : Type := mk {
  bucket : string;
  path : string;
  sha : option string;
  count : Z;
  updatedAt : Z;
  doc : option Doc.t;
  loaded : bool;
}.
End Shard.

(** [type Cache] *)
Module Cache.
Record t : Type := mk {
  manifest : Manifest.t;
  manifestSha : option string;
  shards : list (string * Shard.t);
  fetchedAt : Z;
}.
End Cache.

(** *** Serialization *)

Definition json_of_num (n : option jsnum) : json :=
  match n with
  | Some (Fin z) => JNum z
  | _ => JNull
  end.

Definition json_of_string (s : option string) : json :=
  match s with
  | Some s => JStr s
  | None => JNull
  end.

(** A field that [JSON.stringify] leaves out when it is [undefined]. *)
Definition json_field (name : string) (s : nullable string) : list (string * json) :=
  match s with
  | Undefined => []
  | Null => [(name, JNull)]
  | Val s => [(name, JStr s)]
  end.

(** [JSON.stringify] followed by [JSON.parse], on a shard entry. *)
Definition json_of_entry (e : MetaShardEntry) : json :=
  let m := entry e in
  JObj ([("fingerprint", JStr (fingerprint m)); ("repoPath", JStr (repoPath m))]
        ++ json_field "previewRepoPath" (previewRepoPath m)
        ++ [("createdAt", json_of_num (createdAt m)); ("fileSize", json_of_num (fileSize m));
            ("contentHash", json_of_string (contentHash m));
            ("uploadedAt", json_of_num (uploadedAt m))]
        ++ json_field "assetId" (assetId m)
        ++ [("updatedAt", JNum (updatedAt e))]).

Definition json_of_doc (d : Doc.t) : json :=
  JObj [("version", JNum (Doc.version d)); ("bucket", JStr (Doc.bucket d));
        ("generatedAt", JNum (Doc.generatedAt d));
        ("entries", JObj (map (λ '(k, e), (k, json_of_entry e)) (Doc.entries d)))].

Definition json_of_info (i : Info.t) : json :=
  JObj [("path", JStr (Info.path i)); ("count", JNum (Info.count i));
        ("updatedAt", JNum (Info.updatedAt i)); ("sha", json_of_string (Info.sha i))].

Definition json_of_manifest (m : Manifest.t) : json :=
  JObj [("version", JNum (Manifest.version m)); ("updatedAt", JNum (Manifest.updatedAt m));
        ("shards", JObj (map (λ '(k, i), (k, json_of_info i)) (Manifest.shards m)))].

(** [encode]: the JSON text of the value, in base64. *)
Definition encode (value : json) : content := JsonText value.

(** [Buffer.from(data.content, 'base64').toString('utf-8')] followed by
    [decode]: [null] when the text is not JSON. *)
Definition decode (body : content) : option json :=
  match body with
  | JsonText value => Some value
  | Bytes _ => None
  end.

(** *** The pure helpers, lines 75-239 *)

Definition toNumber (value : option json) (fallback : Z) : Z :=
  match value with
  | Some (JNum z) => z
  | _ => fallback
  end.

Definition toNullableNumber (value : option json) : option Z :=
  match value with
  | Some (JNum z) => Some z
  | _ => None
  end.

Definition toOptionalString (value : option json) : option string := nonempty_string value.

(** [[^0-9a-z-]] *)
Definition bucket_char (c : ascii) : ascii :=
  if is_digit c || is_lower c || bool_decide (c = "-"%char) then c else "-"%char.

Definition sanitizeBucket (bucket : string) : string :=
  let safe := toLowerCase (trim bucket) in
  let cleaned := map_chars bucket_char safe in
  or_string cleaned "unknown".

Definition bucketDateParts (bucket : string) : option (string * string * string) :=
  match match_ [Bol; Digits 4; Chr "-"; Digits 2; Chr "-"; Digits 2; Eol] bucket with
  | Some [year; month; day] => Some (year, month, day)
  | _ => None
  end.

Definition getShardPath (bucket : string) : string :=
  match bucketDateParts bucket with
  | Some (year, month, day) =>
      META_ROOT +:+ "/" +:+ year +:+ "/" +:+ month +:+ "/" +:+ day +:+ "/" +:+ SHARD_FILENAME
  | None =>
      if decide (bucket = "unknown") then META_ROOT +:+ "/unknown/" +:+ SHARD_FILENAME
      else LEGACY_META_SHARD_DIR +:+ "/" +:+ sanitizeBucket bucket +:+ ".json"
  end.

Definition bucketFromTimestamp (value : option jsnum) : string :=
  match value with
  | Some (Fin ms) =>
      if (ms =? 0) || (Date.MAX_TIME <? Z.abs ms) then "unknown"
      else
        let '(year, month, day) := Date.utc_date ms in
        number_to_string year +:+ "-" +:+ pad2 month +:+ "-" +:+ pad2 day
  | _ => "unknown"
  end.

Definition bucketFromFingerprint (fingerprint : string) : string :=
  match split "|" fingerprint with
  | _ :: second :: _ =>
      match Number second with
      | Fin timestamp => bucketFromTimestamp (Some (Fin timestamp))
      | _ => "unknown"
      end
  | _ => "unknown"
  end.

Definition bucketFromRepoPath (path : string) : string :=
  if truthy_string path then
    match match_ (lit "gitgallery/library/"
                  ++ [Digits 4; Chr "/"; Digits 2; Chr "/"; Digits 2; Chr "/"]) path with
    | Some [y; m; d] => y +:+ "-" +:+ m +:+ "-" +:+ d
    | _ => "unknown"
    end
  else "unknown".

Definition resolveBucket (e : MetaEntry) : string :=
  let candidates :=
    [bucketFromTimestamp (createdAt e); bucketFromTimestamp (uploadedAt e);
     bucketFromRepoPath (repoPath e); bucketFromFingerprint (fingerprint e)] in
  let resolved :=
    match List.find (λ value, negb (bool_decide (value = "unknown"))) candidates with
    | Some value => value
    | None => "unknown"
    end in
  sanitizeBucket resolved.

Definition makeEmptyShard (now : Z) (bucket : string) : Doc.t :=
  Doc.mk SHARD_VERSION (sanitizeBucket bucket) now [].

(** [normalizeManifest], lines 102-123. *)
Definition normalizeManifest (now : Z) (input : option json) : Manifest.t :=
  let shards :=
    match entries_of (field "shards" input) with
    | Some raw =>
        fold_left
          (λ shards '(key, rawInfo),
             if is_object rawInfo then
               let rawInfo := Some rawInfo in
               let bucket := sanitizeBucket key in
               let path := match nonempty_string (field "path" rawInfo) with
                           | Some p => p
                           | None => getShardPath bucket
                           end in
               let count := toNumber (field "count" rawInfo) 0 in
               let updatedAt := toNumber (field "updatedAt" rawInfo) 0 in
               let sha := match field "sha" rawInfo with
                          | Some (JStr s) => Some s
                          | _ => None
                          end in
               assign bucket (Info.mk path count updatedAt sha) shards
             else shards)
          raw []
    | None => []
    end in
  Manifest.mk (toNumber (field "version" input) MANIFEST_VERSION)
              (toNumber (field "updatedAt" input) now) shards.

(** The body of the loop of [normalizeShardDocument], lines 131-158. *)
Definition normalizeEntry (now : Z) (key : string) (rawValue : json)
    : option (string * MetaShardEntry) :=
  if is_object rawValue then
    let rawValue := Some rawValue in
    let fingerprint := match nonempty_string (field "fingerprint" rawValue) with
                       | Some f => f
                       | None => key
                       end in
    if truthy_string fingerprint then
      match toOptionalString (field "repoPath" rawValue) with
      | None => None
      | Some repoPath =>
          let opt := λ x : option string, match x with Some s => Val s | None => Null end in
          let num := λ x : option Z, Fin <$> x in
          Some (fingerprint,
                mkShardEntry
                  (mkMetaEntry fingerprint repoPath
                     (opt (toOptionalString (field "previewRepoPath" rawValue)))
                     (num (toNullableNumber (field "createdAt" rawValue)))
                     (num (toNullableNumber (field "fileSize" rawValue)))
                     (toOptionalString (field "contentHash" rawValue))
                     (num (toNullableNumber (field "uploadedAt" rawValue)))
                     (opt (toOptionalString (field "assetId" rawValue))))
                  (toNumber (field "updatedAt" rawValue) now))
      end
    else None
  else None.

(** [normalizeShardDocument], lines 125-166. *)
Definition normalizeShardDocument (now : Z) (bucket : string) (input : option json) : Doc.t :=
  let docBucket := match nonempty_string (field "bucket" input) with
                   | Some b => sanitizeBucket b
                   | None => sanitizeBucket bucket
                   end in
  let entries :=
    match entries_of (field "entries" input) with
    | Some raw =>
        fold_left
          (λ entries '(key, rawValue),
             match normalizeEntry now key rawValue with
             | Some (fingerprint, e) => assign fingerprint e entries
             | None => entries
             end)
          raw []
    | None => []
    end in
  Doc.mk (toNumber (field "version" input) SHARD_VERSION) docBucket
         (toNumber (field "generatedAt" input) now) entries.

(** [bucketFromShardFilePath], lines 413-433.  The four patterns are
    regular-expression literals, in which [${SHARD_FILENAME}] is not a
    substitution: it reads "end of input" followed by the characters
    [{SHARD_FILENAME}]. *)
Definition datedPattern : list Regex.item :=
  [Bol] ++ lit "gitgallery/meta/" ++ [Digits 4; Chr "/"; Digits 2; Chr "/"; Digits 2; Chr "/"]
  ++ [Eol] ++ lit "{SHARD_FILENAME}" ++ [Eol].

Definition unknownPattern : list Regex.item :=
  [Bol] ++ lit "gitgallery/meta/unknown/" ++ [Eol] ++ lit "{SHARD_FILENAME}" ++ [Eol].

Definition legacyPattern : list Regex.item :=
  [Bol] ++ lit "gitgallery/meta/shards/" ++ [AnyPlus] ++ lit ".json" ++ [Eol].

Definition miscPattern : list Regex.item :=
  [Bol] ++ lit "gitgallery/meta/misc/" ++ [AnyPlus; Chr "/"]
  ++ [Eol] ++ lit "{SHARD_FILENAME}" ++ [Eol].

Definition bucketFromShardFilePath (path : string) : option string :=
  if truthy_string path then
    let normalized := map_chars (λ c, if decide (c = "\"%char) then "/"%char else c) path in
    match match_ datedPattern normalized with
    | Some [y; m; d] => Some (y +:+ "-" +:+ m +:+ "-" +:+ d)
    | _ =>
        match match_ unknownPattern normalized with
        | Some _ => Some "unknown"
        | None =>
            match match_ legacyPattern normalized with
            | Some [name] => Some (sanitizeBucket name)
            | _ =>
                match match_ miscPattern normalized with
                | Some [name] => Some (sanitizeBucket name)
                | _ => None
                end
            end
        end
    end
  else None.

(** *** The module state *)

(** The five reverse indices, lines 56-60.  A [Set] is the list of its
    elements in insertion order. *)
Record Indices : Type := mkIndices {
  metaByFingerprint : list (string * MetaShardEntry);
  pathToFingerprint : list (string * string);
  fingerprintToBucket : list (string * string);
  bucketToFingerprints : list (string * list string);
  fingerprintToPaths : list (string * list string);
}.

Definition noIndices : Indices := mkIndices [] [] [] [] [].

(** The repository, the clock read by [Date.now()], the variable [cache]
    and the reverse indices. *)
Record state : Type := mkState {
  remote : Github.remote;
  clock : Z;
  cache : option Cache.t;
  indices : Indices;
}.

Definition set_remote (r : Github.remote) (s : state) : state :=
  mkState r (clock s) (cache s) (indices s).

Definition set_cache (c : option Cache.t) (s : state) : state :=
  mkState (remote s) (clock s) c (indices s).

Definition set_indices (ix : Indices) (s : state) : state :=
  mkState (remote s) (clock s) (cache s) ix.

(** A request to the backend. *)
Definition request {A : Type} (m : M Github.remote A) : M state A := zoom remote set_remote m.

(** A mutation of the object that [cache] refers to. *)
Definition update_cache (f : Cache.t → Cache.t) : M state unit :=
  modify (λ s, set_cache (f <$> cache s) s).

Definition with_manifest (m : Manifest.t) (c : Cache.t) : Cache.t :=
  Cache.mk m (Cache.manifestSha c) (Cache.shards c) (Cache.fetchedAt c).

Definition with_manifestSha (sha : option string) (c : Cache.t) : Cache.t :=
  Cache.mk (Cache.manifest c) sha (Cache.shards c) (Cache.fetchedAt c).

Definition with_shards (shards : list (string * Shard.t)) (c : Cache.t) : Cache.t :=
  Cache.mk (Cache.manifest c) (Cache.manifestSha c) shards (Cache.fetchedAt c).

Definition with_manifest_shards (rows : list (string * Info.t)) (m : Manifest.t) : Manifest.t :=
  Manifest.mk (Manifest.version m) (Manifest.updatedAt m) rows.

Definition with_manifest_updatedAt (t : Z) (m : Manifest.t) : Manifest.t :=
  Manifest.mk (Manifest.version m) t (Manifest.shards m).

(** [set.add(x)] and [set.delete(x)] *)
Definition set_add (x : string) (set : list string) : list string :=
  if bool_decide (x ∈ set) then set else set ++ [x].

Definition set_delete (x : string) (set : list string) : list string :=
  List.filter (λ y, negb (bool_decide (y = x))) set.

(** [registerPaths], lines 241-253. *)
Definition registerPaths (fingerprint : string) (paths : list (nullable string))
    (ix : Indices) : Indices :=
  let '(p2f, set) :=
    fold_left
      (λ '(p2f, set) path,
         match path with
         | Val p => if truthy_string p then (assign p fingerprint p2f, set_add p set)
                    else (p2f, set)
         | _ => (p2f, set)
         end)
      paths (pathToFingerprint ix, []) in
  mkIndices (metaByFingerprint ix) p2f (fingerprintToBucket ix) (bucketToFingerprints ix)
    (match set with
     | [] => remove_key fingerprint (fingerprintToPaths ix)
     | _ => assign fingerprint set (fingerprintToPaths ix)
     end).

(** [removeEntryFromCache], lines 255-275. *)
Definition removeEntryFromCache (fingerprint : string) (ix : Indices) : Indices :=
  let b2f :=
    match lookup_key fingerprint (fingerprintToBucket ix) with
    | Some bucket =>
        if truthy_string bucket then
          match lookup_key bucket (bucketToFingerprints ix) with
          | Some set =>
              match set_delete fingerprint set with
              | [] => remove_key bucket (bucketToFingerprints ix)
              | set' => assign bucket set' (bucketToFingerprints ix)
              end
          | None => bucketToFingerprints ix
          end
        else bucketToFingerprints ix
    | None => bucketToFingerprints ix
    end in
  let '(p2f, f2p) :=
    match lookup_key fingerprint (fingerprintToPaths ix) with
    | Some paths =>
        (fold_left (λ p2f path, remove_key path p2f) paths (pathToFingerprint ix),
         remove_key fingerprint (fingerprintToPaths ix))
    | None => (pathToFingerprint ix, fingerprintToPaths ix)
    end in
  mkIndices (remove_key fingerprint (metaByFingerprint ix)) p2f
    (remove_key fingerprint (fingerprintToBucket ix)) b2f f2p.

(** [evictBucketEntries], lines 277-283. *)
Definition evictBucketEntries (bucket : string) (ix : Indices) : Indices :=
  match lookup_key bucket (bucketToFingerprints ix) with
  | None => ix
  | Some fingerprints => fold_left (λ ix fp, removeEntryFromCache fp ix) fingerprints ix
  end.

(** [ingestShardDocument], lines 285-301. *)
Definition ingestShardDocument (doc : Doc.t) (ix : Indices) : Indices :=
  let ix := evictBucketEntries (Doc.bucket doc) ix in
  let '(ix, bucketSet) :=
    fold_left
      (λ '(ix, bucketSet) '(_, e),
         let fp := fingerprint (entry e) in
         if truthy_string fp then
           let ix := mkIndices (assign fp e (metaByFingerprint ix)) (pathToFingerprint ix)
                       (assign fp (Doc.bucket doc) (fingerprintToBucket ix))
                       (bucketToFingerprints ix) (fingerprintToPaths ix) in
           (registerPaths fp [Val (repoPath (entry e)); previewRepoPath (entry e)] ix,
            set_add fp bucketSet)
         else (ix, bucketSet))
      (Doc.entries doc) (ix, []) in
  mkIndices (metaByFingerprint ix) (pathToFingerprint ix) (fingerprintToBucket ix)
    (match bucketSet with
     | [] => remove_key (Doc.bucket doc) (bucketToFingerprints ix)
     | _ => assign (Doc.bucket doc) bucketSet (bucketToFingerprints ix)
     end)
    (fingerprintToPaths ix).

Definition update_indices (f : Indices → Indices) : M state unit :=
  modify (λ s, set_indices (f (indices s)) s).

(** [Object.keys(doc.entries).length] *)
Definition entryCount (doc : Doc.t) : Z := Z.of_nat (length (Doc.entries doc)).

(** *** Reading and writing the remote documents *)

(** [fetchManifest], lines 303-318. *)
Definition fetchManifest : M state (Manifest.t * option string) :=
  let* data := request (getContent META_MANIFEST_PATH) in
  let* now := gets clock in
  match data with
  | DirData _ => ret (normalizeManifest now None, None)
  | FileData _ body sha => ret (normalizeManifest now (decode body), Some sha)
  end.

(** [writeManifest], lines 320-343. *)
Definition writeManifest (manifest : Manifest.t) (sha : option string) (message : string)
    : M state (option string) :=
  let payload := Manifest.mk MANIFEST_VERSION (Manifest.updatedAt manifest)
                   (Manifest.shards manifest) in
  request (createOrUpdateFileContents META_MANIFEST_PATH message
             (encode (json_of_manifest payload)) sha).

(** [fetchShardDocument], lines 345-373. *)
Definition fetchShardDocument (bucket path : string) : M state (Doc.t * option string) :=
  try_catch
    (let* data := request (getContent path) in
     let* now := gets clock in
     match data with
     | DirData _ => ret (makeEmptyShard now bucket, None)
     | FileData _ body sha => ret (normalizeShardDocument now bucket (decode body), Some sha)
     end)
    (λ error,
       if is404 error then
         let* now := gets clock in ret (makeEmptyShard now bucket, None)
       else throw error).

(** A [ShardCacheEntry] is an object shared between [state.shards] and the
    local variable [shard] of a function: the functions below take the
    key of the slot of the map together with the current value, and every
    mutation of the object is a write to the slot. *)
Definition store_shard (key : string) (shard : Shard.t) : M state unit :=
  update_cache (λ c, with_shards (assign key shard (Cache.shards c)) c).

(** [persistShard], lines 375-398. *)
Definition persistShard (key : string) (shard : Shard.t) (message : string) : M state Shard.t :=
  let* now := gets clock in
  let doc := match Shard.doc shard with
             | Some doc => doc
             | None => makeEmptyShard now (Shard.bucket shard)
             end in
  let doc := Doc.mk SHARD_VERSION (sanitizeBucket (Shard.bucket shard)) now (Doc.entries doc) in
  let shard := Shard.mk (Shard.bucket shard) (Shard.path shard) (Shard.sha shard)
                 (Shard.count shard) (Shard.updatedAt shard) (Some doc) (Shard.loaded shard) in
  store_shard key shard ;;
  let* sha := request (createOrUpdateFileContents (Shard.path shard) message
                         (encode (json_of_doc doc)) (Shard.sha shard)) in
  let shard := Shard.mk (Shard.bucket shard) (Shard.path shard) sha
                 (entryCount doc) (Doc.generatedAt doc) (Some doc) true in
  store_shard key shard ;;
  ret shard.

(** [deleteShardFile], lines 400-411. *)
Definition deleteShardFile (shard : Shard.t) : M state unit :=
  match Shard.sha shard with
  | Some sha =>
      if truthy_string sha then
        request (deleteFile_ (Shard.path shard) ("Delete meta shard " +:+ Shard.bucket shard) sha)
      else ret tt
  | None => ret tt
  end.

(** [listShardFiles], lines 435-476.  The recursion of [walk] descends
    into the directories of the repository; [fuel] bounds its depth. *)
Fixpoint walk (fuel : nat) (path : string) (files : list (string * string))
    : M state (list (string * string)) :=
  match fuel with
  | O => throw (Exception "walk: directory tree too deep")
  | S fuel =>
      let* response :=
        try_catch (let* data := request (getContent path) in ret (Some data))
                  (λ error, if is404 error then ret None else throw error) in
      match response with
      | None => ret files
      | Some (FileData filePath _ _) =>
          match bucketFromShardFilePath filePath with
          | Some bucket =>
              if truthy_string bucket then ret (files ++ [(bucket, filePath)]) else ret files
          | None => ret files
          end
      | Some (DirData items) =>
          fold_left
            (λ acc it,
               let* files := acc in
               if i_dir it then walk fuel (i_path it) files
               else
                 match bucketFromShardFilePath (i_path it) with
                 | Some bucket =>
                     if truthy_string bucket then ret (files ++ [(bucket, i_path it)])
                     else ret files
                 | None => ret files
                 end)
            items (ret files)
      end
  end.

(** A directory is entered through a path that is longer than that of its
    parent and no longer than the path of a file below it. *)
Definition walk_fuel (r : Github.remote) : nat :=
  S (fold_left (λ n '(path, _), Nat.max n (String.length path)) (Github.files r) 0%nat).

Definition listShardFiles : M state (list (string * string)) :=
  let* r := gets remote in
  walk (walk_fuel r) META_ROOT [].

(** [markManifestEntry], lines 621-632. *)
Definition markManifestEntry (bucket : string) (shard : option Shard.t) : M state unit :=
  update_cache (λ c,
    let rows := Manifest.shards (Cache.manifest c) in
    let rows :=
      match shard with
      | None => remove_key bucket rows
      | Some shard =>
          assign bucket (Info.mk (Shard.path shard) (Shard.count shard)
                           (Shard.updatedAt shard) (Shard.sha shard)) rows
      end in
    with_manifest (with_manifest_shards rows (Cache.manifest c)) c).

(** [buildManifestFromExistingShards], lines 478-512. *)
Definition buildManifestFromExistingShards
    : M state (Manifest.t * list (string * Shard.t)) :=
  let* files := listShardFiles in
  let* now := gets clock in
  fold_left
    (λ acc '(fileBucket, filePath),
       let* (manifest, shards) := acc in
       let* (doc, sha) := fetchShardDocument fileBucket filePath in
       let shard := Shard.mk (Doc.bucket doc) filePath sha (entryCount doc)
                      (Doc.generatedAt doc) (Some doc) true in
       let shards := assign (Doc.bucket doc) shard shards in
       let rows := assign (Doc.bucket doc)
                     (Info.mk filePath (Shard.count shard) (Shard.updatedAt shard)
                        (Shard.sha shard))
                     (Manifest.shards manifest) in
       update_indices (ingestShardDocument doc) ;;
       ret (with_manifest_shards rows manifest, shards))
    files (ret (Manifest.mk MANIFEST_VERSION now [], [])).

(** [ensureBaseState], lines 514-567. *)
Definition ensureBaseState : M state Cache.t :=
  let* current := gets cache in
  match current with
  | Some c => ret c
  | None =>
      update_indices (λ _, noIndices) ;;
      let* manifestResult :=
        try_catch (let* r := fetchManifest in ret (Some r))
                  (λ error, if is404 error then ret None else throw error) in
      let* (manifest, manifestSha, shards) :=
        match manifestResult with
        | None =>
            let* (manifest, existing) := buildManifestFromExistingShards in
            let* manifestSha := writeManifest manifest None "Create GitGallery meta manifest" in
            ret (manifest, manifestSha,
                 fold_left (λ shards '(_, shard), assign (Shard.bucket shard) shard shards)
                   existing [])
        | Some (fetched, sha) =>
            let* now := gets clock in
            let manifest := normalizeManifest now (Some (json_of_manifest fetched)) in
            ret (manifest, sha,
                 fold_left
                   (λ shards '(bucket, info),
                      assign bucket
                        (Shard.mk bucket (Info.path info) (Info.sha info) (Info.count info)
                           (Info.updatedAt info) None false)
                        shards)
                   (Manifest.shards manifest) [])
        end in
      let* now := gets clock in
      let c := Cache.mk manifest manifestSha shards now in
      modify (set_cache (Some c)) ;;
      ret c
  end.

(** [ensureShardLoaded], lines 569-601: the key of the slot and the shard. *)
Definition ensureShardLoaded (bucket : string) : M state (string * Shard.t) :=
  let* state := ensureBaseState in
  let key := sanitizeBucket bucket in
  let* shard :=
    match lookup_key key (Cache.shards state) with
    | Some shard => ret shard
    | None =>
        let shard := Shard.mk key (getShardPath key) None 0 0 None false in
        store_shard key shard ;; ret shard
    end in
  if Shard.loaded shard && bool_decide (is_Some (Shard.doc shard)) then ret (key, shard)
  else
    let* (doc, sha) := fetchShardDocument key (Shard.path shard) in
    let shard := Shard.mk (Shard.bucket shard) (Shard.path shard) sha (entryCount doc)
                   (Doc.generatedAt doc) (Some doc) true in
    store_shard key shard ;;
    update_indices (if 0 <? Shard.count shard then ingestShardDocument doc
                    else evictBucketEntries key) ;;
    markManifestEntry key (Some shard) ;;
    ret (key, shard).

(** [sortBucketsByFreshness], lines 235-239: [updatedAt] descending, then
    bucket descending; the sort is stable. *)
Definition fresher (a b : Shard.t) : bool :=
  (Shard.updatedAt b <? Shard.updatedAt a)
  || ((Shard.updatedAt b =? Shard.updatedAt a) && string_lt (Shard.bucket b) (Shard.bucket a)).

Fixpoint insertShard (s : Shard.t) (sorted : list Shard.t) : list Shard.t :=
  match sorted with
  | [] => [s]
  | s' :: rest => if fresher s s' then s :: sorted else s' :: insertShard s rest
  end.

Definition sortBucketsByFreshness (shards : list Shard.t) : list string :=
  map Shard.bucket (fold_left (λ sorted s, insertShard s sorted) shards []).

(** [preloadRecentShards], lines 603-619. *)
Fixpoint preloadLoop (targetEntries : Z) (orderedBuckets : list string) : M state unit :=
  match orderedBuckets with
  | [] => ret tt
  | bucket :: rest =>
      let* size := gets (λ s, Z.of_nat (length (metaByFingerprint (indices s)))) in
      if targetEntries <=? size then ret tt
      else
        let* shards := gets (λ s, match cache s with
                                  | Some c => Cache.shards c
                                  | None => []
                                  end) in
        match lookup_key bucket shards with
        | None => preloadLoop targetEntries rest
        | Some shard =>
            (if negb (Shard.loaded shard) then
               let* _ := ensureShardLoaded bucket in ret tt
             else
               match Shard.doc shard with
               | Some doc => update_indices (ingestShardDocument doc)
               | None => ret tt
               end) ;;
            preloadLoop targetEntries rest
        end
  end.

Definition preloadRecentShards (targetEntries : Z) : M state unit :=
  let* state := ensureBaseState in
  let* size := gets (λ s, Z.of_nat (length (metaByFingerprint (indices s)))) in
  if targetEntries <=? size then ret tt
  else preloadLoop targetEntries (sortBucketsByFreshness (map snd (Cache.shards state))).

(** [invalidateMetaCache], lines 634-641. *)
Definition invalidateMetaCache (s : state) : state :=
  set_indices noIndices (set_cache None s).

(** [loadMetaIndex], lines 643-647. *)
Definition loadMetaIndex : M state Cache.t :=
  let* state := ensureBaseState in
  preloadRecentShards DEFAULT_PRELOAD_TARGET ;;
  ret state.

(** [getMetaEntryFromCache], lines 667-673. *)
Definition getMetaEntryFromCache (fingerprintOrPath : string) (ix : Indices)
    : option MetaShardEntry :=
  match lookup_key fingerprintOrPath (metaByFingerprint ix) with
  | Some direct => Some direct
  | None =>
      match lookup_key fingerprintOrPath (pathToFingerprint ix) with
      | Some resolved =>
          if truthy_string resolved then lookup_key resolved (metaByFingerprint ix) else None
      | None => None
      end
  end.

(** The grouping loop of [removeMetaEntries], lines 678-685. *)
Definition groupByBucket (ix : Indices) (fingerprints : list string)
    : list (string * list string) :=
  fold_left
    (λ grouped fingerprint,
       let bucket := match lookup_key fingerprint (fingerprintToBucket ix) with
                     | Some b => b
                     | None => bucketFromFingerprint fingerprint
                     end in
       let key := sanitizeBucket bucket in
       let group := match lookup_key key grouped with
                    | Some l => l
                    | None => []
                    end in
       assign key (group ++ [fingerprint]) grouped)
    fingerprints [].

(** The inner loop, lines 693-699, on the entries of the document. *)
Fixpoint removeFromDoc (group : list string) (entries : list (string * MetaShardEntry))
    (ix : Indices) (changed : bool) : list (string * MetaShardEntry) * Indices * bool :=
  match group with
  | [] => (entries, ix, changed)
  | fingerprint :: rest =>
      match lookup_key fingerprint entries with
      | Some _ =>
          removeFromDoc rest (remove_key fingerprint entries)
            (removeEntryFromCache fingerprint ix) true
      | None => removeFromDoc rest entries ix changed
      end
  end.

(** The body of the loop over the groups, lines 689-718; the result is
    [true] when the group made the manifest dirty. *)
Definition removeGroup (bucket : string) (group : list string) : M state bool :=
  let* (key, shard) := ensureShardLoaded bucket in
  match Shard.doc shard with
  | None => ret false
  | Some doc =>
      let* ix := gets indices in
      let '(entries, ix, changed) := removeFromDoc group (Doc.entries doc) ix false in
      let doc := Doc.mk (Doc.version doc) (Doc.bucket doc) (Doc.generatedAt doc) entries in
      let shard := Shard.mk (Shard.bucket shard) (Shard.path shard) (Shard.sha shard)
                     (Shard.count shard) (Shard.updatedAt shard) (Some doc)
                     (Shard.loaded shard) in
      store_shard key shard ;;
      update_indices (λ _, ix) ;;
      if negb changed then ret false
      else
        let* now := gets clock in
        let doc := Doc.mk (Doc.version doc) (Doc.bucket doc) now entries in
        let shard := Shard.mk (Shard.bucket shard) (Shard.path shard) (Shard.sha shard)
                       (entryCount doc) now (Some doc) (Shard.loaded shard) in
        store_shard key shard ;;
        if Shard.count shard =? 0 then
          deleteShardFile shard ;;
          update_cache (λ c, with_shards (remove_key bucket (Cache.shards c)) c) ;;
          update_indices (evictBucketEntries bucket) ;;
          markManifestEntry bucket None ;;
          ret true
        else
          let* shard := persistShard key shard ("Update meta shard " +:+ bucket) in
          match Shard.doc shard with
          | Some doc => update_indices (ingestShardDocument doc)
          | None => ret tt
          end ;;
          markManifestEntry bucket (Some shard) ;;
          ret true
  end.

Fixpoint removeGroups (grouped : list (string * list string)) (manifestDirty : bool)
    : M state bool :=
  match grouped with
  | [] => ret manifestDirty
  | (bucket, group) :: rest =>
      let* dirty := removeGroup bucket group in
      removeGroups rest (manifestDirty || dirty)
  end.

(** The tail shared by the two mutations: [state.manifest.updatedAt =
    Date.now(); state.manifestSha = await writeManifest(...)]. *)
Definition persistManifest : M state unit :=
  let* now := gets clock in
  update_cache (λ c, with_manifest (with_manifest_updatedAt now (Cache.manifest c)) c) ;;
  let* current := gets cache in
  match current with
  | Some c =>
      let* sha := writeManifest (Cache.manifest c) (Cache.manifestSha c)
                    "Update GitGallery meta manifest" in
      update_cache (with_manifestSha sha)
  | None => ret tt
  end.

(** [removeMetaEntries], lines 675-724. *)
Definition removeMetaEntries (fingerprints : list string) : M state unit :=
  match fingerprints with
  | [] => ret tt
  | _ =>
      let* state := ensureBaseState in
      let* ix := gets indices in
      let grouped := groupByBucket ix fingerprints in
      let* manifestDirty := removeGroups grouped false in
      if manifestDirty then persistManifest else ret tt
  end.

(** [upsertMetaEntry], lines 726-747. *)
Definition upsertMetaEntry (e : MetaEntry) : M state unit :=
  let* state := ensureBaseState in
  let bucket := resolveBucket e in
  let* (key, shard) := ensureShardLoaded bucket in
  let* now := gets clock in
  let doc := match Shard.doc shard with
             | Some doc => doc
             | None => makeEmptyShard now bucket
             end in
  let doc := Doc.mk (Doc.version doc) (Doc.bucket doc) now
               (assign (fingerprint e) (mkShardEntry e now) (Doc.entries doc)) in
  let shard := Shard.mk (Shard.bucket shard) (Shard.path shard) (Shard.sha shard)
                 (entryCount doc) now (Some doc) (Shard.loaded shard) in
  store_shard key shard ;;
  let* shard := persistShard key shard ("Update meta shard " +:+ bucket) in
  match Shard.doc shard with
  | Some doc => update_indices (ingestShardDocument doc)
  | None => ret tt
  end ;;
  markManifestEntry bucket (Some shard) ;;
  persistManifest.

(** Subtraction of JavaScript numbers, and whether the number that a
    comparator returns is negative ([NaN] counts as 0). *)
Definition js_sub (x y : jsnum) : jsnum :=
  match x, y with
  | Fin a, Fin b => Fin (a - b)
  | NaN, _ => NaN
  | _, NaN => NaN
  | Inf n, Fin _ => Inf n
  | Fin _, Inf n => Inf (negb n)
  | Inf n, Inf m => if Bool.eqb n m then NaN else Inf n
  end.

Definition negative (x : jsnum) : bool :=
  match x with
  | Fin z => z <? 0
  | Inf n => n
  | NaN => false
  end.

(** [(b.uploadedAt ?? 0) - (a.uploadedAt ?? 0) < 0]: [a] goes before [b]. *)
Definition uploadedFirst (a b : MetaShardEntry) : bool :=
  negative (js_sub (nullish (uploadedAt (entry b)) (Fin 0))
                   (nullish (uploadedAt (entry a)) (Fin 0))).

Fixpoint insertEntry (e : MetaShardEntry) (sorted : list MetaShardEntry) : list MetaShardEntry :=
  match sorted with
  | [] => [e]
  | e' :: rest => if uploadedFirst e e' then e :: sorted else e' :: insertEntry e rest
  end.

(** [getCachedMetaEntries], lines 657-665; the sort is stable. *)
Definition getCachedMetaEntries (limit : option Z) (ix : Indices) : list MetaShardEntry :=
  let entries :=
    fold_left (λ sorted e, insertEntry e sorted) (map snd (metaByFingerprint ix)) [] in
  match limit with
  | Some n => if n <=? 0 then entries else take (Z.to_nat n) entries
  | None => entries
  end.

End MetaIndex.
(** ** cloudCache.ts: eviction of the local content cache *)

Module CloudCache.
Import Js.

Definition PRUNE_INTERVAL_MS : Z := 4 * 60 * 60 * 1000.
Definition ENTRY_MAX_AGE_MS : Z := 30 * 24 * 60 * 60 * 1000.
Definition ENTRY_MAX_AGE_WITH_ORIGINAL_MS : Z := 60 * 24 * 60 * 60 * 1000.
Definition CACHE_SIZE_LIMIT_BYTES : Z := 400 * 1024 * 1024.

(** [CACHE_SIZE_LIMIT_BYTES * 0.8]: the double product is the integer
    335544320, and [currentSize] is an integer. *)
Definition PRUNE_TARGET_BYTES : Z := 335544320.

(** [{ file, updatedAt }] *)
Record CachedFile : Type := mkCachedFile {
  file : string;
  updatedAt : Z;
}.

Record CacheManifest : Type := mkCacheManifest {
  fingerprint : string;
  tag : string;
  preview : option CachedFile;
  original : option CachedFile;
  lastAccessed : option Z;
  lastViewed : option Z;
}.

(** One item of the cache directory of a repository: its name, the JSON
    of its [manifest.json] if there is one that parses, and the sizes of
    the files in it. *)
Record EntryDir : Type := mkEntryDir {
  name : string;
  manifest_json : option CacheManifest;
  file_sizes : list (string * N);
}.

(** The module state: [repoPruneTracker] and, per repository key, the
    listing of the cache directory ([None]: the directory does not exist). *)
Record state : Type := mkState {
  repoPruneTracker : list (string * Z);
  repoDirs : list (string * list EntryDir);
}.

(** [readManifest], lines 271-282: a manifest without [fingerprint] or
    [tag] is no manifest. *)
Definition readManifest (e : EntryDir) : option CacheManifest :=
  match manifest_json e with
  | Some parsed =>
      if truthy_string (fingerprint parsed) && truthy_string (tag parsed)
      then Some parsed else None
  | None => None
  end.

(** [fileSize], lines 500-508: 0 for a missing file. *)
Definition fileSize (e : EntryDir) (file : string) : Z :=
  match lookup_key file (file_sizes e) with
  | Some n => Z.of_N n
  | None => 0
  end.

(** The element type of [stats]; the lock key is left out. *)
Record Stat : Type := mkStat {
  dir : string;
  size : Z;
  lastUsed : Z;
  stat_fingerprint : string;
}.

(** [Math.max(lastViewed ?? 0, lastAccessed ?? 0, preview?.updatedAt ?? 0,
    original?.updatedAt ?? 0)] *)
Definition lastUsedOf (m : CacheManifest) : Z :=
  Z.max (nullish (lastViewed m) 0)
    (Z.max (nullish (lastAccessed m) 0)
       (Z.max (nullish (updatedAt <$> preview m) 0) (nullish (updatedAt <$> original m) 0))).

Definition entrySize (e : EntryDir) (m : CacheManifest) : Z :=
  let previewSize := match preview m with Some p => fileSize e (file p) | None => 0 end in
  let originalSize := match original m with Some o => fileSize e (file o) | None => 0 end in
  previewSize + originalSize.

Definition statOf (e : EntryDir) (m : CacheManifest) : Stat :=
  {| dir := name e; size := entrySize e m; lastUsed := lastUsedOf m;
     stat_fingerprint := fingerprint m |}.

(** [const maxAge = manifest.original ? ... : ...; age > maxAge] *)
Definition agedOut (now : Z) (m : CacheManifest) : bool :=
  let age := now - lastUsedOf m in
  let maxAge := match original m with
                | Some _ => ENTRY_MAX_AGE_WITH_ORIGINAL_MS
                | None => ENTRY_MAX_AGE_MS
                end in
  Z.ltb maxAge age.

(** [FileSystem.deleteAsync(dir, { idempotent: true })] on the listing. *)
Definition deleteDir (d : string) (listing : list EntryDir) : list EntryDir :=
  List.filter (λ e, if decide (name e = d) then false else true) listing.

(** [removeEntry], lines 491-498. *)
Definition removeEntry (stat : Stat) (listing : list EntryDir) : list EntryDir :=
  deleteDir (dir stat) listing.

(** The first loop of [maybePruneRepo], lines 459-478, over the items read
    from the directory: the listing that is left, [totalSize], [stats]. *)
Fixpoint scan (now : Z) (items : list EntryDir) (listing : list EntryDir)
    (totalSize : Z) (stats : list Stat) : list EntryDir * Z * list Stat :=
  match items with
  | [] => (listing, totalSize, stats)
  | item :: rest =>
      match readManifest item with
      | None => scan now rest (deleteDir (name item) listing) totalSize stats
      | Some manifest =>
          let stat := statOf item manifest in
          let totalSize := totalSize + size stat in
          let stats := (stats ++ [stat])%list in
          if agedOut now manifest
          then scan now rest (removeEntry stat listing) totalSize stats
          else scan now rest listing totalSize stats
      end
  end.

(** [stats.sort((a, b) => a.lastUsed - b.lastUsed)]: a stable sort. *)
Fixpoint insertStat (s : Stat) (sorted : list Stat) : list Stat :=
  match sorted with
  | [] => [s]
  | s' :: rest =>
      if Z.ltb (lastUsed s) (lastUsed s') then s :: sorted
      else s' :: insertStat s rest
  end.

Definition sortStats (stats : list Stat) : list Stat :=
  fold_left (λ sorted s, insertStat s sorted) stats [].

(** The second loop, lines 484-488. *)
Fixpoint evict (stats : list Stat) (currentSize : Z) (listing : list EntryDir) : list EntryDir :=
  match stats with
  | [] => listing
  | stat :: rest =>
      if Z.leb currentSize PRUNE_TARGET_BYTES then listing
      else evict rest (currentSize - size stat) (removeEntry stat listing)
  end.

(** The body of [maybePruneRepo] once the directory has been read. *)
Definition prune (now : Z) (entries : list EntryDir) : list EntryDir :=
  match entries with
  | [] => entries
  | _ =>
      let '(listing, totalSize, stats) := scan now entries entries 0 [] in
      if Z.leb totalSize CACHE_SIZE_LIMIT_BYTES then listing
      else evict (sortStats stats) totalSize listing
  end.

(** Is the run due?  [if (last && now - last < PRUNE_INTERVAL_MS) return] *)
Definition due (now : Z) (last : option Z) : bool :=
  match last with
  | Some last => negb (negb (Z.eqb last 0) && Z.ltb (now - last) PRUNE_INTERVAL_MS)
  | None => true
  end.

(** [maybePruneRepo], lines 440-489, for the repository with key [key]. *)
Definition maybePruneRepo (key : string) (now : Z) (st : state) : state :=
  if due now (lookup_key key (repoPruneTracker st)) then
    let tracker := assign key now (repoPruneTracker st) in
    match lookup_key key (repoDirs st) with
    | None => {| repoPruneTracker := tracker; repoDirs := repoDirs st |}
    | Some entries =>
        {| repoPruneTracker := tracker;
           repoDirs := assign key (prune now entries) (repoDirs st) |}
    end
  else st.

(** The size of the cache as the eviction measures it. *)
Definition cachedSize (listing : list EntryDir) : Z :=
  foldr (λ e acc, match readManifest e with
                  | Some m => entrySize e m + acc
                  | None => acc
                  end) 0 listing.

End CloudCache.

(** ** localStore.ts: the local durable index *)

Module LocalStore.
Import Js Text.

(** [type AssetRecord]; a row of the table [assets]. *)
Record AssetRecord : Type := mkRecord {
  fingerprint : string;
  assetId : option string;
  repoPath : option string;
  uploaded : bool;
  fileSize : option Z;
  createdAt : option Z;
  contentHash : option string;
  previewHash : option string;
  lastSeenAt : option Z;
  lastUploadedAt : option Z;
  lastError : option string;
}.

(** The tables [assets] (by its primary key) and [auto_sync_blocklist]. *)
Record db : Type := mkDb {
  assets : list (string * AssetRecord);
  auto_sync_blocklist : list string;
}.

(** [saveAsset]: [INSERT ... ON CONFLICT(fingerprint) DO UPDATE]. *)
Definition saveAsset (now : Z) (record : AssetRecord) (d : db) : db :=
  let row := mkRecord (fingerprint record) (assetId record) (repoPath record) (uploaded record)
               (fileSize record) (createdAt record) (contentHash record) (previewHash record)
               (Some (nullish (lastSeenAt record) now)) (lastUploadedAt record)
               (lastError record) in
  mkDb (assign (fingerprint record) row (assets d)) (auto_sync_blocklist d).

(** [markUploaded]: an [UPDATE ... WHERE fingerprint = ?]. *)
Definition markUploaded (now : Z) (fp : string) (path hash : option string) (d : db) : db :=
  match lookup_key fp (assets d) with
  | None => d
  | Some row =>
      let row := mkRecord fp (assetId row)
                   (match path with Some p => Some p | None => repoPath row end) true
                   (fileSize row) (createdAt row)
                   (match hash with Some h => Some h | None => contentHash row end)
                   (previewHash row) (lastSeenAt row) (Some now) None in
      mkDb (assign fp row (assets d)) (auto_sync_blocklist d)
  end.

Fixpoint take_chars (n : nat) (s : string) : string :=
  match n, s with
  | S n', String c r => String c (take_chars n' r)
  | _, _ => EmptyString
  end.

(** [recordFailure] *)
Definition recordFailure (fp errorMessage : string) (d : db) : db :=
  match lookup_key fp (assets d) with
  | None => d
  | Some row =>
      let row := mkRecord fp (assetId row) (repoPath row) false (fileSize row) (createdAt row)
                   (contentHash row) (previewHash row) (lastSeenAt row) (lastUploadedAt row)
                   (Some (take_chars 500 errorMessage)) in
      mkDb (assign fp row (assets d)) (auto_sync_blocklist d)
  end.

(** [getAsset] *)
Definition getAsset (fp : string) (d : db) : option AssetRecord := lookup_key fp (assets d).

(** [ORDER BY last_seen_at DESC, fingerprint DESC]; [NULL] sorts last. *)
Definition before (a b : AssetRecord) : bool :=
  match lastSeenAt a, lastSeenAt b with
  | Some x, Some y => (y <? x) || ((x =? y) && string_lt (fingerprint b) (fingerprint a))
  | Some _, None => true
  | None, Some _ => false
  | None, None => string_lt (fingerprint b) (fingerprint a)
  end.

Fixpoint insertRecord (r : AssetRecord) (sorted : list AssetRecord) : list AssetRecord :=
  match sorted with
  | [] => [r]
  | r' :: rest => if before r r' then r :: sorted else r' :: insertRecord r rest
  end.

(** [getAssets()] without a filter. *)
Definition getAssets (d : db) : list AssetRecord :=
  fold_left (λ sorted r, insertRecord r sorted) (map snd (assets d)) [].

(** [deleteAsset] *)
Definition deleteAsset (fp : string) (d : db) : db :=
  mkDb (remove_key fp (assets d)) (auto_sync_blocklist d).

(** [addAutoSyncBlock]: [INSERT OR REPLACE]. *)
Definition addAutoSyncBlock (fp : string) (d : db) : db :=
  mkDb (assets d)
    (List.filter (λ x, negb (bool_decide (x = fp))) (auto_sync_blocklist d) ++ [fp]).

(** [removeAutoSyncBlock] *)
Definition removeAutoSyncBlock (fp : string) (d : db) : db :=
  mkDb (assets d) (List.filter (λ x, negb (bool_decide (x = fp))) (auto_sync_blocklist d)).

(** [getAutoSyncBlocklist] *)
Definition getAutoSyncBlocklist (d : db) : list string :=
  List.filter truthy_string (auto_sync_blocklist d).

(** [Partial<Omit<AssetRecord, 'fingerprint'>>]: a field is [None] when it
    is missing or [null]. *)
Record AssetPatch : Type := mkPatch {
  p_assetId : option string;
  p_repoPath : option string;
  p_uploaded : option bool;
  p_fileSize : option Z;
  p_createdAt : option Z;
  p_contentHash : option string;
  p_previewHash : option string;
  p_lastSeenAt : option Z;
  p_lastUploadedAt : option Z;
  p_lastError : option string;
}.

(** [values.x ?? existing.x] *)
Definition orElse {A : Type} (x y : option A) : option A :=
  match x with
  | Some a => Some a
  | None => y
  end.

(** [touchAsset] *)
Definition touchAsset (now : Z) (fp : string) (values : AssetPatch) (d : db) : db :=
  match lookup_key fp (assets d) with
  | None =>
      saveAsset now
        (mkRecord fp (p_assetId values) (p_repoPath values) (nullish (p_uploaded values) false)
           (p_fileSize values) (p_createdAt values) (p_contentHash values) (p_previewHash values)
           (Some (nullish (p_lastSeenAt values) now)) (p_lastUploadedAt values)
           (p_lastError values)) d
  | Some existing =>
      let merged :=
        mkRecord fp (orElse (p_assetId values) (assetId existing))
          (orElse (p_repoPath values) (repoPath existing))
          (nullish (p_uploaded values) (uploaded existing))
          (orElse (p_fileSize values) (fileSize existing))
          (orElse (p_createdAt values) (createdAt existing))
          (orElse (p_contentHash values) (contentHash existing))
          (orElse (p_previewHash values) (previewHash existing))
          (Some (nullish (p_lastSeenAt values) now))
          (orElse (p_lastUploadedAt values) (lastUploadedAt existing))
          (orElse (p_lastError values) (lastError existing)) in
      mkDb (assign fp merged (assets d)) (auto_sync_blocklist d)
  end.

(** [WHERE last_seen_at IS NOT NULL AND last_seen_at < ?] *)
Definition notSeenSince (timestamp : Z) (row : string * AssetRecord) : bool :=
  match lastSeenAt row.2 with
  | Some t => t <? timestamp
  | None => false
  end.

(** [deleteAssetsNotSeenSince]: the store that is left and the number of
    rows deleted. *)
Definition deleteAssetsNotSeenSince (timestamp : Z) (d : db) : db * Z :=
  (mkDb (List.filter (λ row, negb (notSeenSince timestamp row)) (assets d))
     (auto_sync_blocklist d),
   Z.of_nat (length (List.filter (notSeenSince timestamp) (assets d)))).

End LocalStore.
(** ** events.ts: the emitters *)

Module Events.
Import Js Text.

(** [type Subscription].  A callback is a function object, which the
    emitter compares by identity: here a number. *)
Record Subscription : Type := mkSubscription {
  callback : nat;
  once : bool;
}.

Module EventEmitter.

(** [class EventEmitter], lines 189-234.  [listeners] maps an event to an
    array of subscriptions.  The arrays are objects: [on] and [once] push
    to the array that is in the map, which may be the array that a running
    [emit] is iterating, while [off] and [emit] put a new array in the map.
    So the emitter keeps the arrays in a heap, in the order of their
    creation, and the map holds their addresses. *)
Record t : Type := mk {
  heap : list (list Subscription);
  listeners : list (string * nat);
}.

(** [new EventEmitter()] *)
Definition empty : t := mk [] [].

Definition array (a : nat) (em : t) : list Subscription := default [] (heap em !! a).

(** [this.listeners.set(event, new array)] *)
Definition set_new (event : string) (subs : list Subscription) (em : t) : t :=
  mk (heap em ++ [subs]) (assign event (length (heap em)) (listeners em)).

(** [const subs = this.listeners.get(event) ?? []; subs.push(sub);
    this.listeners.set(event, subs)] *)
Definition push (event : string) (sub : Subscription) (em : t) : t :=
  match lookup_key event (listeners em) with
  | Some a => mk (<[a := array a em ++ [sub]]> (heap em)) (assign event a (listeners em))
  | None => set_new event [sub] em
  end.

(** [on]; the function that it returns is [off event callback]. *)
Definition on (event : string) (callback : nat) (em : t) : t :=
  push event (mkSubscription callback false) em.

(** [once]; the function that it returns is [off event callback]. *)
Definition once (event : string) (callback : nat) (em : t) : t :=
  push event (mkSubscription callback true) em.

(** [off] *)
Definition off (event : string) (callback : nat) (em : t) : t :=
  match lookup_key event (listeners em) with
  | None => em
  | Some a =>
      let next := List.filter (λ sub, negb (Events.callback sub =? callback)%nat) (array a em) in
      set_new event next em
  end.

(** [clear] *)
Definition clear (em : t) : t := mk (heap em) [].

Section Emit.

(** The listeners are functions of the program: a call acts on the state
    [U] of the program and on the emitter, both in the reach of the
    closure, and may throw. *)
Context {U P : Type}.
Variable call : nat → P → M (U * t) unit.

(** [for (const sub of subs)], lines 218-227.  The iterator reads the array
    at every turn, so it also visits what a listener pushes meanwhile;
    [turns] bounds the number of turns. *)
Fixpoint emitLoop (turns : nat) (a i : nat) (payload : P) (retained : list Subscription)
    : M (U * t) (list Subscription) :=
  match turns with
  | O => throw (Exception "emit: the listeners keep subscribing")
  | S turns =>
      let* subs := gets (λ g, array a g.2) in
      match subs !! i with
      | None => ret retained
      | Some sub =>
          try_catch (call (Events.callback sub) payload) (λ error, ret tt) ;;
          emitLoop turns a (S i) payload
            (if Events.once sub then retained else retained ++ [sub])
      end
  end.

(** [emit], lines 213-229. *)
Definition emit (turns : nat) (event : string) (payload : P) : M (U * t) unit :=
  let* subs := gets (λ g, lookup_key event (listeners g.2)) in
  match subs with
  | None => ret tt
  | Some a =>
      let* n := gets (λ g, length (array a g.2)) in
      if (n =? 0)%nat then ret tt
      else
        let* retained := emitLoop turns a 0 payload [] in
        modify (λ g, (g.1, set_new event retained g.2))
  end.

End Emit.

End EventEmitter.

End Events.
(** ** index.ts: the sync orchestrator *)

Module Sync.
Import Js Text Fingerprint Utils.

Inductive BatchType : Type :=
| Upload
| DeleteFiles
| Download.

(** [type SyncStatus] of types.ts. *)
Record SyncStatus : Type := mkStatus {
  running : bool;
  pendingUploads : Z;
  completedUploads : Z;
  isDeleting : bool;
  lastBatchTotal : Z;
  lastBatchUploaded : Z;
  lastBatchType : option BatchType;
  lastError : option string;
}.

(** [type UploadIndexEntry] of types.ts. *)
Record UploadIndexEntry : Type := mkIndexEntry {
  uploaded : bool;
  ie_repoPath : option string;
  ie_fileSize : option Z;
  ie_creationTime : option Z;
  ie_fingerprint : string;
  ie_contentHash : option string;
  ie_lastSeenAt : option Z;
  ie_lastUploadedAt : option Z;
  ie_lastError : option string;
}.

(** [type CompletionEvent] of types.ts. *)
Record CompletionEvent : Type := mkCompletion {
  type : BatchType;
  total : Z;
  failed : Z;
  timestamp : Z;
}.

(** What the four emitters have emitted. *)
Inductive Event : Type :=
| UploadIndexChanged
| SyncStatusChanged
| CacheInvalidated
| Completion (event : CompletionEvent).

(** The device: the files that [prepareAsset] can read, by asset id; the
    files that the operating system fetches from network storage when it is
    asked to; the assets deleted from the media library. *)
Record Device : Type := mkDevice {
  readable : list (string * AssetFile);
  downloadable : list (string * AssetFile);
  deletedAssets : list string;
}.

(** [type UploadBatchOptions]; a cancel token given by the caller is given
    by the value of its [cancelled] field. *)
Record UploadBatchOptions : Type := mkOptions {
  allowBlocked : bool;
  source : option string;
  cancelToken : option bool;
}.

(** The module state of index.ts together with its collaborators: the
    metadata store (with the repository and the clock), the local index, the
    device, the app setting [autoDeleteAfterSync].  [token] is the
    [cancelled] field of the cancel token of the batch and [active] tells
    whether [activeCancelToken] refers to it.  [ui] is what the user does at
    the coming points at which the batch awaits: [true] is a call of
    [cancelActiveSync]. *)
Record world : Type := mkWorld {
  meta : MetaIndex.state;
  db : LocalStore.db;
  device : Device;
  autoDeleteAfterSync : bool;
  uploadIndexCache : list (string * UploadIndexEntry);
  syncStatus : SyncStatus;
  lastCompletion : option CompletionEvent;
  metaReady : bool;
  autoSyncBlocklist : list string;
  autoSyncBlocklistLoaded : bool;
  token : bool;
  active : bool;
  ui : list bool;
  emitted : list Event;
}.

Definition set_meta (x : MetaIndex.state) (w : world) : world :=
  mkWorld x (db w) (device w) (autoDeleteAfterSync w) (uploadIndexCache w) (syncStatus w)
    (lastCompletion w) (metaReady w) (autoSyncBlocklist w) (autoSyncBlocklistLoaded w)
    (token w) (active w) (ui w) (emitted w).

Definition set_db (x : LocalStore.db) (w : world) : world :=
  mkWorld (meta w) x (device w) (autoDeleteAfterSync w) (uploadIndexCache w) (syncStatus w)
    (lastCompletion w) (metaReady w) (autoSyncBlocklist w) (autoSyncBlocklistLoaded w)
    (token w) (active w) (ui w) (emitted w).

Definition set_device (x : Device) (w : world) : world :=
  mkWorld (meta w) (db w) x (autoDeleteAfterSync w) (uploadIndexCache w) (syncStatus w)
    (lastCompletion w) (metaReady w) (autoSyncBlocklist w) (autoSyncBlocklistLoaded w)
    (token w) (active w) (ui w) (emitted w).

Definition set_uploadIndexCache (x : list (string * UploadIndexEntry)) (w : world) : world :=
  mkWorld (meta w) (db w) (device w) (autoDeleteAfterSync w) x (syncStatus w)
    (lastCompletion w) (metaReady w) (autoSyncBlocklist w) (autoSyncBlocklistLoaded w)
    (token w) (active w) (ui w) (emitted w).

Definition set_status (x : SyncStatus) (w : world) : world :=
  mkWorld (meta w) (db w) (device w) (autoDeleteAfterSync w) (uploadIndexCache w) x
    (lastCompletion w) (metaReady w) (autoSyncBlocklist w) (autoSyncBlocklistLoaded w)
    (token w) (active w) (ui w) (emitted w).

Definition set_lastCompletion (x : option CompletionEvent) (w : world) : world :=
  mkWorld (meta w) (db w) (device w) (autoDeleteAfterSync w) (uploadIndexCache w) (syncStatus w)
    x (metaReady w) (autoSyncBlocklist w) (autoSyncBlocklistLoaded w)
    (token w) (active w) (ui w) (emitted w).

Definition set_metaReady (x : bool) (w : world) : world :=
  mkWorld (meta w) (db w) (device w) (autoDeleteAfterSync w) (uploadIndexCache w) (syncStatus w)
    (lastCompletion w) x (autoSyncBlocklist w) (autoSyncBlocklistLoaded w)
    (token w) (active w) (ui w) (emitted w).

Definition set_blocklist (x : list string) (loaded : bool) (w : world) : world :=
  mkWorld (meta w) (db w) (device w) (autoDeleteAfterSync w) (uploadIndexCache w) (syncStatus w)
    (lastCompletion w) (metaReady w) x loaded (token w) (active w) (ui w) (emitted w).

Definition set_token (x : bool) (w : world) : world :=
  mkWorld (meta w) (db w) (device w) (autoDeleteAfterSync w) (uploadIndexCache w) (syncStatus w)
    (lastCompletion w) (metaReady w) (autoSyncBlocklist w) (autoSyncBlocklistLoaded w)
    x (active w) (ui w) (emitted w).

Definition set_active (x : bool) (w : world) : world :=
  mkWorld (meta w) (db w) (device w) (autoDeleteAfterSync w) (uploadIndexCache w) (syncStatus w)
    (lastCompletion w) (metaReady w) (autoSyncBlocklist w) (autoSyncBlocklistLoaded w)
    (token w) x (ui w) (emitted w).

Definition set_ui (x : list bool) (w : world) : world :=
  mkWorld (meta w) (db w) (device w) (autoDeleteAfterSync w) (uploadIndexCache w) (syncStatus w)
    (lastCompletion w) (metaReady w) (autoSyncBlocklist w) (autoSyncBlocklistLoaded w)
    (token w) (active w) x (emitted w).

Definition emit (e : Event) (w : world) : world :=
  mkWorld (meta w) (db w) (device w) (autoDeleteAfterSync w) (uploadIndexCache w) (syncStatus w)
    (lastCompletion w) (metaReady w) (autoSyncBlocklist w) (autoSyncBlocklistLoaded w)
    (token w) (active w) (ui w) (emitted w ++ [e]).

(** Operations of the components on their part of the world. *)
Definition in_meta {A : Type} (m : M MetaIndex.state A) : M world A := zoom meta set_meta m.

Definition in_remote {A : Type} (m : M Github.remote A) : M world A :=
  in_meta (MetaIndex.request m).

Definition in_db (f : LocalStore.db → LocalStore.db) : M world unit :=
  modify (λ w, set_db (f (db w)) w).

(** [Date.now()] *)
Definition now : M world Z := gets (λ w, MetaIndex.clock (meta w)).

(** [cancelActiveSync], lines 167-171. *)
Definition cancelActiveSync (w : world) : world :=
  if active w && negb (token w) then set_token true w else w.

(** A point at which the batch awaits and the user may act. *)
Definition pause : M world unit :=
  modify (λ w, match ui w with
               | [] => w
               | true :: rest => cancelActiveSync (set_ui rest w)
               | false :: rest => set_ui rest w
               end).

(** [ensureAutoSyncBlocklist], lines 110-131. *)
Definition ensureAutoSyncBlocklist : M world unit :=
  modify (λ w,
    if autoSyncBlocklistLoaded w then w
    else
      let fingerprints := LocalStore.getAutoSyncBlocklist (db w) in
      set_blocklist
        (fold_left (λ set fp, if truthy_string fp then MetaIndex.set_add fp set else set)
           fingerprints [])
        true w).

(** [isAutoSyncBlockedFingerprint], lines 133-135. *)
Definition isAutoSyncBlockedFingerprint (fp : string) (w : world) : bool :=
  bool_decide (fp ∈ autoSyncBlocklist w).

(** [blockAutoSyncFingerprint], lines 137-147. *)
Definition blockAutoSyncFingerprint (fp : string) : M world unit :=
  if negb (truthy_string fp) then ret tt
  else
    ensureAutoSyncBlocklist ;;
    let* blocked := gets (isAutoSyncBlockedFingerprint fp) in
    if blocked then ret tt
    else
      in_db (LocalStore.addAutoSyncBlock fp) ;;
      modify (λ w, set_blocklist (MetaIndex.set_add fp (autoSyncBlocklist w))
                     (autoSyncBlocklistLoaded w) w).

(** [unblockAutoSyncFingerprint], lines 149-159. *)
Definition unblockAutoSyncFingerprint (fp : string) : M world unit :=
  if negb (truthy_string fp) then ret tt
  else
    ensureAutoSyncBlocklist ;;
    let* blocked := gets (isAutoSyncBlockedFingerprint fp) in
    if negb blocked then ret tt
    else
      in_db (LocalStore.removeAutoSyncBlock fp) ;;
      modify (λ w, set_blocklist (MetaIndex.set_delete fp (autoSyncBlocklist w))
                     (autoSyncBlocklistLoaded w) w).

(** [setSyncStatus], lines 236-239; the patch is given as a function. *)
Definition setSyncStatus (patch : SyncStatus → SyncStatus) : M world unit :=
  modify (λ w, emit SyncStatusChanged (set_status (patch (syncStatus w)) w)).

(** [recordCompletion], lines 241-244. *)
Definition recordCompletion (event : CompletionEvent) : M world unit :=
  modify (λ w, emit (Completion event) (set_lastCompletion (Some event) w)).

Definition indexEntryOf (record : LocalStore.AssetRecord) : UploadIndexEntry :=
  mkIndexEntry (LocalStore.uploaded record) (LocalStore.repoPath record)
    (LocalStore.fileSize record) (LocalStore.createdAt record) (LocalStore.fingerprint record)
    (LocalStore.contentHash record) (LocalStore.lastSeenAt record)
    (LocalStore.lastUploadedAt record) (LocalStore.lastError record).

(** The two [set] calls shared by the functions below: by asset id when
    there is one, and by fingerprint. *)
Definition indexRecord (record : LocalStore.AssetRecord)
    (index : list (string * UploadIndexEntry)) : list (string * UploadIndexEntry) :=
  let e := indexEntryOf record in
  let index := match LocalStore.assetId record with
               | Some id => if truthy_string id then assign id e index else index
               | None => index
               end in
  assign (LocalStore.fingerprint record) e index.

(** [refreshUploadIndexCache], lines 246-267. *)
Definition refreshUploadIndexCache : M world unit :=
  modify (λ w,
    let records := LocalStore.getAssets (db w) in
    emit UploadIndexChanged
      (set_uploadIndexCache (fold_left (λ index r, indexRecord r index) records []) w)).

(** [ensureUploadIndexCache], lines 269-273. *)
Definition ensureUploadIndexCache : M world unit :=
  let* index := gets uploadIndexCache in
  match index with
  | [] => refreshUploadIndexCache
  | _ => ret tt
  end.

(** [updateIndexCacheForRecord], lines 275-292. *)
Definition updateIndexCacheForRecord (record : LocalStore.AssetRecord) : M world unit :=
  modify (λ w, emit UploadIndexChanged
                 (set_uploadIndexCache (indexRecord record (uploadIndexCache w)) w)).

(** [removeFromIndexCache], lines 294-298. *)
Definition removeFromIndexCache (fp : string) (assetId : option string) : M world unit :=
  modify (λ w,
    let index := remove_key fp (uploadIndexCache w) in
    let index := match assetId with
                 | Some id => if truthy_string id then remove_key id index else index
                 | None => index
                 end in
    emit UploadIndexChanged (set_uploadIndexCache index w)).

(** [ensureMetaLoaded], lines 336-346. *)
Definition ensureMetaLoaded (force : bool) : M world unit :=
  (if force then
     modify (λ w, set_metaReady false (set_meta (MetaIndex.invalidateMetaCache (meta w)) w))
   else ret tt) ;;
  let* ready := gets metaReady in
  if ready then ret tt
  else
    let* _ := in_meta MetaIndex.loadMetaIndex in
    modify (set_metaReady true).

(** [uploadIndexCache.get(asset.id) || uploadIndexCache.get(fingerprint)] *)
Definition cachedEntry (a : Asset) (fp : string) (w : world) : option UploadIndexEntry :=
  match lookup_key (id a) (uploadIndexCache w) with
  | Some e => Some e
  | None => lookup_key fp (uploadIndexCache w)
  end.

(** [await prepareAsset(asset)] on the device. *)
Definition prepareOnDevice (a : Asset) : M world (option PreparedAsset) :=
  pause ;;
  gets (λ w, prepareAsset a (lookup_key (id a) (readable (device w)))).

(** [tryRegister], lines 366-378, on [prepared]; the set
    [preparedFingerprints] holds the fingerprints of [prepared]. *)
Definition tryRegister (entry : option PreparedAsset) (prepared : list PreparedAsset)
    : bool * list PreparedAsset :=
  match entry with
  | None => (false, prepared)
  | Some e =>
      if bool_decide (Utils.fingerprint e ∈ map Utils.fingerprint prepared) then (true, prepared)
      else (true, prepared ++ [e])
  end.

(** The first loop of [prepareAssetsForUpload], lines 380-403: [prepared]
    and [retryable].  The list [skipped] only feeds the log. *)
Fixpoint prepareLoop (skipBlocked : bool) (assets : list Asset)
    (prepared : list PreparedAsset) (retryable : list Asset)
    : M world (list PreparedAsset * list Asset) :=
  match assets with
  | [] => ret (prepared, retryable)
  | a :: rest =>
      let* cancelled := gets token in
      if cancelled then ret (prepared, retryable)
      else
        let* skip :=
          if skipBlocked then
            let fp := makeFingerprint a in
            gets (λ w, isAutoSyncBlockedFingerprint fp w
                       || match cachedEntry a fp w with
                          | Some cached => uploaded cached
                          | None => false
                          end)
          else ret false in
        if skip then prepareLoop skipBlocked rest prepared retryable
        else
          let* entry := prepareOnDevice a in
          let '(registered, prepared) := tryRegister entry prepared in
          if registered then prepareLoop skipBlocked rest prepared retryable
          else prepareLoop skipBlocked rest prepared (retryable ++ [a])
  end.

(** [MediaLibrary.getAssetInfoAsync(asset, { shouldDownloadFromNetwork: true })] *)
Definition requestDownload (a : Asset) : M world unit :=
  pause ;;
  modify (λ w,
    match lookup_key (id a) (downloadable (device w)) with
    | Some file =>
        set_device (mkDevice (assign (id a) file (readable (device w)))
                      (remove_key (id a) (downloadable (device w)))
                      (deletedAssets (device w))) w
    | None => w
    end).

(** The second loop, lines 406-415. *)
Fixpoint downloadLoop (retryable : list Asset) : M world unit :=
  match retryable with
  | [] => ret tt
  | a :: rest =>
      let* cancelled := gets token in
      if cancelled then ret tt else requestDownload a ;; downloadLoop rest
  end.

(** The third loop, lines 420-429. *)
Fixpoint retryLoop (retryable : list Asset) (prepared : list PreparedAsset)
    : M world (list PreparedAsset) :=
  match retryable with
  | [] => ret prepared
  | a :: rest =>
      let* cancelled := gets token in
      if cancelled then ret prepared
      else
        let* entry := prepareOnDevice a in
        retryLoop rest (snd (tryRegister entry prepared))
  end.

(** [prepareAssetsForUpload], lines 354-437. *)
Definition prepareAssetsForUpload (assets : list Asset) (options : UploadBatchOptions)
    : M world (list PreparedAsset) :=
  let skipBlocked := negb (allowBlocked options) in
  (if skipBlocked then ensureAutoSyncBlocklist ;; ensureUploadIndexCache else ret tt) ;;
  let* (prepared, retryable) := prepareLoop skipBlocked assets [] [] in
  match retryable with
  | [] => ret prepared
  | _ =>
      downloadLoop retryable ;;
      pause ;;
      retryLoop retryable prepared
  end.

Definition pendingRecord (now : Z) (p : PreparedAsset) (done : bool) (error : option string)
    : LocalStore.AssetRecord :=
  LocalStore.mkRecord (Utils.fingerprint p) (Some (id (asset p))) (Some (Utils.repoPath p)) done
    (Utils.fileSize p) (Utils.creationTime p) (Utils.contentHash p) None (Some now)
    (if done then Some now else None) error.

(** [uploadPreparedAsset], lines 439-505. *)
Definition uploadPreparedAsset (p : PreparedAsset) : M world unit :=
  pause ;;
  let* t := now in
  in_db (LocalStore.saveAsset t (pendingRecord t p false None)) ;;
  updateIndexCacheForRecord (pendingRecord t p false None) ;;
  let* sha := in_remote (Github.fetchFileSha (Utils.repoPath p)) in
  let* _ := in_remote (Github.putFile (Utils.repoPath p) ("Upload " +:+ Utils.fingerprint p)
                         (p_contentBase64 p) sha) in
  let* t := now in
  in_db (LocalStore.markUploaded t (Utils.fingerprint p) (Some (Utils.repoPath p))
           (Utils.contentHash p)) ;;
  updateIndexCacheForRecord (pendingRecord t p true None) ;;
  unblockAutoSyncFingerprint (Utils.fingerprint p) ;;
  let* t := now in
  in_meta (MetaIndex.upsertMetaEntry
             (MetaIndex.mkMetaEntry (Utils.fingerprint p) (Utils.repoPath p) Null
                (Fin <$> Utils.creationTime p) (Fin <$> Utils.fileSize p) (Utils.contentHash p)
                (Some (Fin t)) (Val (id (asset p))))).

(** The loop of [processUploadBatch], lines 559-601: the final values of
    [processed], [failed] and [deleteCandidates] (which is [null] when the
    setting [autoDeleteAfterSync] is off). *)
Fixpoint uploadLoop (items : list PreparedAsset) (processed failed : Z)
    (deleteCandidates : option (list string)) : M world (Z * Z * option (list string)) :=
  match items with
  | [] => ret (processed, failed, deleteCandidates)
  | item :: rest =>
      let* cancelled := gets token in
      if cancelled then ret (processed, failed, deleteCandidates)
      else
        let processed := processed + 1 in
        let* (failed, deleteCandidates) :=
          try_catch
            (uploadPreparedAsset item ;;
             let deleteCandidates :=
               match deleteCandidates with
               | Some set =>
                   if truthy_string (id (asset item))
                   then Some (MetaIndex.set_add (id (asset item)) set)
                   else Some set
               | None => None
               end in
             setSyncStatus (λ s, mkStatus (running s) (Z.max 0 (pendingUploads s - 1))
                                   (completedUploads s + 1) (isDeleting s) (lastBatchTotal s)
                                   processed (lastBatchType s) (lastError s)) ;;
             ret (failed, deleteCandidates))
            (λ error,
               setSyncStatus (λ s, mkStatus (running s) (Z.max 0 (pendingUploads s - 1))
                                     (completedUploads s) (isDeleting s) (lastBatchTotal s)
                                     processed (lastBatchType s) (Some (message_of error))) ;;
               in_db (LocalStore.recordFailure (Utils.fingerprint item) (message_of error)) ;;
               let* t := now in
               updateIndexCacheForRecord
                 (pendingRecord t item false (Some (message_of error))) ;;
               ret (failed + 1, deleteCandidates)) in
        uploadLoop rest processed failed deleteCandidates
  end.

Definition idle (s : SyncStatus) (uploadedCount : Z) (error : option string) : SyncStatus :=
  mkStatus false 0 (completedUploads s) (isDeleting s) 0 uploadedCount None error.

Definition starting (count : Z) (s : SyncStatus) : SyncStatus :=
  mkStatus true count (completedUploads s) (isDeleting s) count 0 (Some Upload) None.

Definition release : M world unit := modify (set_active false).

(** [processUploadBatch], lines 507-628, after its loop. *)
Definition finishBatch (prepared : list PreparedAsset) (processed failed : Z)
    (deleteCandidates : option (list string)) : M world unit :=
  let* cancelled := gets token in
  (if cancelled then
     setSyncStatus (λ s, idle s processed (Some "Sync cancelled by user"))
   else
     setSyncStatus (λ s, idle s 0 (lastError s)) ;;
     let* t := now in
     recordCompletion (mkCompletion Upload (Z.of_nat (length prepared)) failed t)) ;;
  (match deleteCandidates with
   | Some (_ :: _ as ids) =>
       modify (λ w, set_device (mkDevice (readable (device w)) (downloadable (device w))
                                  (deletedAssets (device w) ++ ids)) w)
   | _ => ret tt
   end) ;;
  release.

(** [processUploadBatch], lines 507-628. *)
Definition processUploadBatch (assets : list Asset) (options : UploadBatchOptions)
    : M world unit :=
  match assets with
  | [] => ret tt
  | _ =>
      modify (λ w, set_active true (set_token (nullish (cancelToken options) false) w)) ;;
      pause ;;
      ensureMetaLoaded false ;;
      let count := Z.of_nat (length assets) in
      setSyncStatus (starting count) ;;
      let* prepared := prepareAssetsForUpload assets options in
      let* cancelled := gets token in
      if cancelled then
        release ;;
        setSyncStatus (λ s, idle s 0 (Some "Sync cancelled by user"))
      else
        match prepared with
        | [] => release ;; setSyncStatus (λ s, idle s 0 (lastError s))
        | _ =>
            let* shouldAutoDelete := gets autoDeleteAfterSync in
            let deleteCandidates := if shouldAutoDelete then Some [] else None in
            (if negb (length prepared =? length assets)%nat
             then setSyncStatus (starting (Z.of_nat (length prepared)))
             else ret tt) ;;
            let* (processed, failed, deleteCandidates) :=
              uploadLoop prepared 0 0 deleteCandidates in
            finishBatch prepared processed failed deleteCandidates
        end
  end.

(** The options of [deleteRepoFile]. *)
Record DeleteOptions : Type := mkDeleteOptions {
  skipStatus : bool;
  skipInvalidation : bool;
}.

(** [deleteRepoFile], lines 834-871. *)
Definition deleteRepoFile (path : string) (options : DeleteOptions) : M world unit :=
  ensureMetaLoaded false ;;
  let shouldReportStatus := negb (skipStatus options) in
  (if shouldReportStatus then
     setSyncStatus (λ s, mkStatus true (pendingUploads s) (completedUploads s) true 1 0
                           (Some DeleteFiles) (lastError s))
   else ret tt) ;;
  finally
    (try_catch
       (in_remote (Github.deleteFile path ("Delete " +:+ path)) ;;
        let* cached := gets (λ w, MetaIndex.getMetaEntryFromCache path
                                    (MetaIndex.indices (meta w))) in
        (match cached with
         | Some cached =>
             let fp := MetaIndex.fingerprint (MetaIndex.entry cached) in
             in_meta (MetaIndex.removeMetaEntries [fp]) ;;
             let* existing := gets (λ w, LocalStore.getAsset fp (db w)) in
             in_db (LocalStore.deleteAsset fp) ;;
             removeFromIndexCache fp (existing ≫= LocalStore.assetId) ;;
             blockAutoSyncFingerprint fp
         | None => ret tt
         end) ;;
        (if negb (skipInvalidation options) then modify (emit CacheInvalidated) else ret tt) ;;
        (if shouldReportStatus then
           let* t := now in recordCompletion (mkCompletion DeleteFiles 1 0 t)
         else ret tt))
       (λ error,
          (if shouldReportStatus then
             setSyncStatus (λ s, mkStatus (running s) (pendingUploads s) (completedUploads s)
                                   (isDeleting s) (lastBatchTotal s) (lastBatchUploaded s)
                                   (lastBatchType s) (Some (message_of error))) ;;
             let* t := now in recordCompletion (mkCompletion DeleteFiles 1 1 t)
           else ret tt) ;;
          throw error))
    (λ w, if shouldReportStatus then
            emit SyncStatusChanged
              (set_status (mkStatus false (pendingUploads (syncStatus w))
                             (completedUploads (syncStatus w)) false 0 0 None
                             (lastError (syncStatus w))) w)
          else w).

(** [getMetaEntryFromCache(fingerprint) || getMetaEntryFromCache(asset.id)] *)
Definition metaEntryOf (a : Asset) (w : world) : option MetaIndex.MetaShardEntry :=
  let ix := MetaIndex.indices (meta w) in
  match MetaIndex.getMetaEntryFromCache (makeFingerprint a) ix with
  | Some e => Some e
  | None => MetaIndex.getMetaEntryFromCache (id a) ix
  end.

(** [isAssetUploadedAsset], lines 754-763. *)
Definition isAssetUploadedAsset (a : Asset) (w : world) : bool :=
  let fp := makeFingerprint a in
  if isAutoSyncBlockedFingerprint fp w then false
  else if match cachedEntry a fp w with
          | Some entry => uploaded entry
          | None => false
          end
       then true
       else bool_decide (is_Some (metaEntryOf a w)).

(** The status patches of [deleteRepoFilesBulk]. *)
Definition deleting (total processed : Z) (error : option string) (s : SyncStatus) : SyncStatus :=
  mkStatus true (pendingUploads s) (completedUploads s) true total processed
    (Some DeleteFiles) error.

Definition notDeleting (error : option string) (s : SyncStatus) : SyncStatus :=
  mkStatus false (pendingUploads s) (completedUploads s) false 0 0 None error.

(** The loop of [deleteRepoFilesBulk], lines 890-909. *)
Fixpoint bulkDeleteLoop (total : Z) (paths : list string) (deleted failed : list string)
    (processed : Z) (lastErrorMessage : option string)
    : M world (list string * list string * option string) :=
  match paths with
  | [] => ret (deleted, failed, lastErrorMessage)
  | path :: rest =>
      let* (deleted, failed, lastErrorMessage) :=
        try_catch
          (deleteRepoFile path (mkDeleteOptions true true) ;;
           ret (deleted ++ [path], failed, lastErrorMessage))
          (λ error,
             setSyncStatus (λ s, mkStatus (running s) (pendingUploads s) (completedUploads s)
                                   (isDeleting s) (lastBatchTotal s) (lastBatchUploaded s)
                                   (lastBatchType s) (Some (message_of error))) ;;
             ret (deleted, failed ++ [path], Some (message_of error))) in
      let processed := processed + 1 in
      setSyncStatus (deleting total processed lastErrorMessage) ;;
      bulkDeleteLoop total rest deleted failed processed lastErrorMessage
  end.

(** [deleteRepoFilesBulk], lines 873-916. *)
Definition deleteRepoFilesBulk (paths : list string) : M world (list string * list string) :=
  match paths with
  | [] => ret ([], [])
  | _ =>
      let total := Z.of_nat (length paths) in
      setSyncStatus (deleting total 0 None) ;;
      let* (deleted, failed, lastErrorMessage) := bulkDeleteLoop total paths [] [] 0 None in
      (match deleted with
       | [] => ret tt
       | _ => modify (emit CacheInvalidated)
       end) ;;
      let* t := now in
      recordCompletion (mkCompletion DeleteFiles total (Z.of_nat (length failed)) t) ;;
      setSyncStatus (notDeleting lastErrorMessage) ;;
      ret (deleted, failed)
  end.

(** [verifyAndCleanUploadIndex], lines 1006-1018. *)
Definition verifyAndCleanUploadIndex : M world unit :=
  ensureUploadIndexCache ;;
  ensureMetaLoaded false ;;
  let* metaEntries :=
    gets (λ w, MetaIndex.getCachedMetaEntries None (MetaIndex.indices (meta w))) in
  let fingerprints := map (λ e, MetaIndex.fingerprint (MetaIndex.entry e)) metaEntries in
  let* records := gets (λ w, LocalStore.getAssets (db w)) in
  for_each records
    (λ record,
       if LocalStore.uploaded record
          && negb (bool_decide (LocalStore.fingerprint record ∈ fingerprints))
       then
         in_db (LocalStore.deleteAsset (LocalStore.fingerprint record)) ;;
         removeFromIndexCache (LocalStore.fingerprint record) (LocalStore.assetId record)
       else ret tt).

End Sync.
(** ** The properties that the theorems state *)

Module TextProps.
Import Js Text.

(** A string without the separator of the fingerprint. *)
Fixpoint bar_free (s : string) : bool :=
  match s with
  | EmptyString => true
  | String c r => if decide (c = "|"%char) then false else bar_free r
  end.

(** Every character of the string satisfies [p]. *)
Fixpoint all_chars (p : ascii → bool) (s : string) : bool :=
  match s with
  | EmptyString => true
  | String c r => p c && all_chars p r
  end.

(** The characters that [sanitizeBucket] keeps. *)
Definition bucket_ok (c : ascii) : bool :=
  is_digit c || is_lower c || bool_decide (c = "-"%char).

End TextProps.

Module CacheProps.
Import Js CloudCache.

(** The [stats] entry of each item that has a manifest. *)
Definition statsOf (listing : list EntryDir) : list Stat :=
  omap (λ e, statOf e <$> readManifest e) listing.

(** The total size of a list of stats. *)
Definition sumSizes (stats : list Stat) : Z :=
  foldr (λ s acc, size s + acc) 0 stats.

Arguments statsOf : simpl never.

(** The filter of [removeEntry] on the stats. *)
Definition keepStat (d : string) (s : Stat) : bool :=
  if decide (dir s = d) then false else true.

End CacheProps.

Module StoreProps.
Import Js Text Json Github MetaIndex.

(** The entries of a document are keyed by their fingerprints. *)
Definition keyed (entries : list (string * MetaShardEntry)) : Prop :=
  NoDup (map fst entries) ∧ Forall (λ ke, fingerprint (entry ke.2) = ke.1) entries.

Definition doc_wf (d : Doc.t) : Prop := keyed (Doc.entries d).

(** What [normalizeShardDocument] makes of the fields of an entry that
    [JSON.stringify] has written. *)
Definition readString (x : nullable string) : nullable string :=
  match x with
  | Val s => if truthy_string s then Val s else Null
  | _ => Null
  end.

Definition readOptionalString (x : option string) : option string :=
  match x with
  | Some s => if truthy_string s then Some s else None
  | None => None
  end.

Definition readNumber (x : option jsnum) : option jsnum :=
  match x with
  | Some (Fin z) => Some (Fin z)
  | _ => None
  end.

Definition readBack (m : MetaEntry) : MetaEntry :=
  mkMetaEntry (fingerprint m) (repoPath m) (readString (previewRepoPath m))
    (readNumber (createdAt m)) (readNumber (fileSize m)) (readOptionalString (contentHash m))
    (readNumber (uploadedAt m)) (readString (assetId m)).

(** An entry without [undefined], empty strings or non-finite numbers. *)
Definition plain (m : MetaEntry) : Prop :=
  readBack m = m.

(** No function of the store sets the clock. *)
Definition same_clock (s s' : state) : Prop := clock s' = clock s.

(** Listing the shard files does not touch the cache. *)
Definition same_cache (s s' : state) : Prop := cache s' = cache s.

(** Every cached document is keyed by the fingerprints of its entries. *)
Definition shard_wf (shard : Shard.t) : Prop :=
  ∀ d, Shard.doc shard = Some d → doc_wf d.

Definition shards_wf (shards : list (string * Shard.t)) : Prop :=
  Forall (λ ks, shard_wf ks.2) shards.

Definition cache_wf (s : state) : Prop :=
  ∀ c, cache s = Some c → shards_wf (Cache.shards c).

(** [persistShard], when it returns, has written the document of the
    shard, stamped with the time, at the path of the shard. *)
Definition persisted (now : Z) (shard : Shard.t) : Doc.t :=
  Doc.mk SHARD_VERSION (sanitizeBucket (Shard.bucket shard)) now
    (match Shard.doc shard with
     | Some d => Doc.entries d
     | None => []
     end).

(** The index by fingerprint does not hold the fingerprint. *)
Definition unindexed (fp : string) (ix : Indices) : Prop :=
  lookup_key fp (metaByFingerprint ix) = None.

(** The slot of the shard that holds a fingerprint, as
    [removeMetaEntries] computes it. *)
Definition shardKey (ix : Indices) (fp : string) : string :=
  sanitizeBucket match lookup_key fp (fingerprintToBucket ix) with
                 | Some bucket => bucket
                 | None => bucketFromFingerprint fp
                 end.

(** The entry of a fingerprint is resident in a store when the shard in
    the slot of the fingerprint is loaded, is known by its SHA, and its
    document, keyed by fingerprint, holds the entry. *)
Record resident (fp : string) (s : state) (shard : Shard.t) : Prop := mkResident {
  resident_slot :
    ∃ c, cache s = Some c ∧ lookup_key (shardKey (indices s) fp) (Cache.shards c) = Some shard;
  resident_loaded : Shard.loaded shard = true;
  resident_entry :
    ∃ doc, Shard.doc shard = Some doc ∧ doc_wf doc ∧ is_Some (lookup_key fp (Doc.entries doc));
  resident_sha : ∃ sha, Shard.sha shard = Some sha ∧ truthy_string sha = true;
  resident_path : Shard.path shard ≠ META_MANIFEST_PATH;
}.

(** The longest path of a file of the repository. *)
Definition longest (fs : list (string * file)) : nat :=
  fold_left (λ n '(path, _), Nat.max n (String.length path)) fs 0%nat.

(** The error with which the model of [walk] gives up. *)
Definition too_deep : error := Exception "walk: directory tree too deep".

End StoreProps.

Module SyncProps.
Import Js Text Fingerprint Utils Sync.

(** The parts of the world that a step leaves as they are. *)
Definition same_status (w w' : world) : Prop := syncStatus w' = syncStatus w.

Definition same_meta (w w' : world) : Prop := meta w' = meta w.

Definition same_index (w w' : world) : Prop :=
  uploadIndexCache w' = uploadIndexCache w ∧ autoSyncBlocklist w' = autoSyncBlocklist w.

(** An asset that the first loop of [prepareAssetsForUpload] does not
    skip: its fingerprint is not blocked and the index entry found for it,
    under its id or else under its fingerprint, is not marked uploaded. *)
Definition admitted (w : world) (a : Asset) : Prop :=
  isAutoSyncBlockedFingerprint (makeFingerprint a) w = false ∧
  ∀ e, cachedEntry a (makeFingerprint a) w = Some e → uploaded e = false.

(** What holds of every prepared asset and of every asset set aside for a
    retry. *)
Definition prepared_ok (all : list Asset) (w0 : world) (p : PreparedAsset) : Prop :=
  asset p ∈ all ∧ Utils.fingerprint p = makeFingerprint (asset p) ∧ admitted w0 (asset p).

Definition retryable_ok (all : list Asset) (w0 : world) (a : Asset) : Prop :=
  a ∈ all ∧ admitted w0 a.

End SyncProps.

Module NameProps.
Import Js Text Utils TextProps.

(** The first and the last character of a string. *)
Definition first_char (s : string) : option ascii :=
  match s with
  | EmptyString => None
  | String c _ => Some c
  end.

Fixpoint last_char (s : string) : option ascii :=
  match s with
  | EmptyString => None
  | String c EmptyString => Some c
  | String _ r => last_char r
  end.

(** A name that can stand as one segment of a path: it is not empty, made
    of letters, digits, dots, underscores, spaces and dashes, and neither
    begins nor ends with a dash. *)
Definition safe_name (s : string) : Prop :=
  s ≠ EmptyString ∧ all_chars is_safe s = true ∧
  first_char s ≠ Some "-"%char ∧ last_char s ≠ Some "-"%char.

(** [s.includes('.')] *)
Definition has_dot (s : string) : bool := one_of s "."%char.

(** The replacement of backslashes that [normalizePath] begins with. *)
Definition slashed (s : string) : string :=
  map_chars (λ c, if decide (c = "\"%char) then "/"%char else c) s.

End NameProps.

Module DocProps.
Import Js Text Json Github MetaIndex StoreProps.

(** An entry as a shard document keeps it: under its fingerprint, with a
    fingerprint and a repository path that are not empty. *)
Definition stored (ke : string * MetaShardEntry) : Prop :=
  fingerprint (entry ke.2) = ke.1 ∧
  truthy_string ke.1 = true ∧ truthy_string (repoPath (entry ke.2)) = true.

(** A document in the form in which [normalizeShardDocument] returns
    documents: no fingerprint occurs twice, every entry is stored under its
    fingerprint and is plain, and the bucket is a sanitised name. *)
Definition canonical (d : Doc.t) : Prop :=
  NoDup (map fst (Doc.entries d)) ∧
  Forall (λ ke, stored ke ∧ plain (entry ke.2)) (Doc.entries d) ∧
  sanitizeBucket (Doc.bucket d) = Doc.bucket d.

(** The entry [ke.2] is cached under the fingerprint [ke.1] as an entry of
    the bucket, and its repository path, when it has one, leads to a cached
    entry. *)
Definition resolves (bucket : string) (ix : Indices) (ke : string * MetaShardEntry) : Prop :=
  lookup_key ke.1 (metaByFingerprint ix) = Some ke.2 ∧
  lookup_key ke.1 (fingerprintToBucket ix) = Some bucket ∧
  (truthy_string (repoPath (entry ke.2)) = true →
   ∃ f, lookup_key (repoPath (entry ke.2)) (pathToFingerprint ix) = Some f ∧
        truthy_string f = true ∧ is_Some (lookup_key f (metaByFingerprint ix))).

End DocProps.

Module IndexProps.
Import Js Text Fingerprint Utils Sync.

(** The rows of the table [assets] are keyed by the fingerprints of their
    records, which is what the primary key of the table says. *)
Definition db_keyed (d : LocalStore.db) : Prop :=
  Forall (λ row, LocalStore.fingerprint row.2 = row.1) (LocalStore.assets d).

(** No fingerprint has two rows in the table. *)
Definition db_unique (d : LocalStore.db) : Prop :=
  NoDup (map fst (LocalStore.assets d)).

(** The block set in memory holds the fingerprints that the table
    [auto_sync_blocklist] gives. *)
Definition blocklist_mirrors (w : world) : Prop :=
  ∀ fp, fp ∈ autoSyncBlocklist w ↔ fp ∈ LocalStore.getAutoSyncBlocklist (db w).

(** The fingerprints of the entries that the metadata cache holds. *)
Definition cachedFingerprints (w : world) : list string :=
  map (λ e, MetaIndex.fingerprint (MetaIndex.entry e))
    (map snd (MetaIndex.metaByFingerprint (MetaIndex.indices (meta w)))).

(** The batch has ended: the cancel token is released and the status is
    idle. *)
Definition at_rest (w : world) : Prop :=
  active w = false ∧ running (syncStatus w) = false ∧ pendingUploads (syncStatus w) = 0 ∧
  lastBatchType (syncStatus w) = None.

(** A step that does not delete the row of a fingerprint. *)
Definition keeps_row (fp : string) (w w' : world) : Prop :=
  is_Some (LocalStore.getAsset fp (db w)) → is_Some (LocalStore.getAsset fp (db w')).

End IndexProps.

Module RunProps.
Import Js.

(** The function returns from every state: it does not throw. *)
Definition returns {S A : Type} (m : M S A) : Prop :=
  ∀ s, ∃ a s', m s = (Ok a, s').

End RunProps.

Module ManifestProps.
Import Js Text Json Github MetaIndex.

(** A row of the manifest as [normalizeManifest] returns rows: under a
    sanitised bucket name, with a path that is not empty. *)
Definition listed (ki : string * Info.t) : Prop :=
  sanitizeBucket ki.1 = ki.1 ∧ truthy_string (Info.path ki.2) = true.

(** A manifest in the form in which [normalizeManifest] returns manifests:
    no bucket occurs twice and every row is listed. *)
Definition canonical_manifest (m : Manifest.t) : Prop :=
  NoDup (map fst (Manifest.shards m)) ∧ Forall listed (Manifest.shards m).

(** What [writeManifest] writes of a manifest. *)
Definition written (m : Manifest.t) : Manifest.t :=
  Manifest.mk MANIFEST_VERSION (Manifest.updatedAt m) (Manifest.shards m).

(** The row that the loop of [normalizeManifest] makes of a raw value. *)
Definition rowOf (key : string) (rawInfo : json) : Info.t :=
  let bucket := sanitizeBucket key in
  Info.mk
    match nonempty_string (field "path" (Some rawInfo)) with
    | Some p => p
    | None => getShardPath bucket
    end
    (toNumber (field "count" (Some rawInfo)) 0)
    (toNumber (field "updatedAt" (Some rawInfo)) 0)
    match field "sha" (Some rawInfo) with
    | Some (JStr s) => Some s
    | _ => None
    end.

End ManifestProps.

Module EventProps.
Import Js Text Events.

(** The subscriptions of an event, in the order in which they were made. *)
Definition subscriptions (event : string) (em : EventEmitter.t) : list Subscription :=
  match lookup_key event (EventEmitter.listeners em) with
  | Some a => EventEmitter.array a em
  | None => []
  end.

(** The subscriptions that are not for one call only. *)
Definition lasting (subs : list Subscription) : list Subscription :=
  List.filter (λ sub, negb (once sub)) subs.

(** No call of a listener changes the array at the address [a]: none
    pushes to it, which is what [on] and [once] do to the array of their
    event. *)
Definition leaves_array {U P : Type} (call : nat → P → M (U * EventEmitter.t) unit)
    (a : nat) (subs : list Subscription) : Prop :=
  ∀ cb payload g,
    EventEmitter.heap g.2 !! a = Some subs →
    EventEmitter.heap (call cb payload g).2.2 !! a = Some subs.

End EventProps.
(** ** The stores and devices of the examples *)

Module Samples.

Section Repositories.
Import Js Github.

(** A store used in the examples: the SHA of a content is a digest that
    tells the contents of the examples apart. *)
Definition demo_hash (c : content) : string :=
  match c with
  | Bytes b => "blob:" +:+ b
  | JsonText _ => "json"
  end.

Definition demo_remote (fs : list (string * file)) : remote :=
  {| files := fs; blob_hash := demo_hash; faults := []; issued := [] |}.

End Repositories.

Section Stores.
Import Js Text Json Github MetaIndex.

(** A shard document with one entry, as [persistShard] writes it. *)
Definition one_entry_shard : json :=
  JObj [("version", JNum 1); ("bucket", JStr "2024-01-02"); ("generatedAt", JNum 50);
        ("entries",
         JObj [("a.jpg|1704153600000|10",
                JObj [("fingerprint", JStr "a.jpg|1704153600000|10");
                      ("repoPath", JStr "gitgallery/images/Camera/a.jpg");
                      ("previewRepoPath", JNull); ("createdAt", JNum 1704153600000);
                      ("fileSize", JNum 10); ("contentHash", JStr "h");
                      ("uploadedAt", JNum 50); ("assetId", JStr "7");
                      ("updatedAt", JNum 50)])])].

(** A repository that holds this shard at its dated path and no manifest,
    read by a store that has nothing cached. *)
Definition dated_shard_only : state :=
  mkState
    (mkRemote [("gitgallery/meta/2024/01/02/meta_dict.json",
                mkFile (JsonText one_entry_shard) "sha-1")] demo_hash [] [])
    100 None noIndices.

(** A repository without metadata, read by a store that has nothing
    cached. *)
Definition empty_repository : state :=
  mkState (mkRemote [] demo_hash [] []) 100 None noIndices.

(** An entry whose optional fields are all present. *)
Definition sample_entry : MetaEntry :=
  mkMetaEntry "IMG_1.jpg|1700000000000|2048" "gitgallery/images/Camera/IMG_1.jpg"
    (Val "gitgallery/previews/Camera/IMG_1.jpg") (Some (Fin 1700000000000))
    (Some (Fin 2048)) (Some "c29tZSBoYXNo") (Some (Fin 1700000001000)) (Val "42").

(** The same entry without a repository path. *)
Definition pathless_entry : MetaEntry :=
  mkMetaEntry "IMG_1.jpg|1700000000000|2048" ""
    (Val "gitgallery/previews/Camera/IMG_1.jpg") (Some (Fin 1700000000000))
    (Some (Fin 2048)) (Some "c29tZSBoYXNo") (Some (Fin 1700000001000)) (Val "42").

(** The same entry with its preview path [undefined]. *)
Definition previewless_entry : MetaEntry :=
  mkMetaEntry "IMG_1.jpg|1700000000000|2048" "gitgallery/images/Camera/IMG_1.jpg"
    Undefined (Some (Fin 1700000000000))
    (Some (Fin 2048)) (Some "c29tZSBoYXNo") (Some (Fin 1700000001000)) (Val "42").

(** The document of a shard that holds the sample entry. *)
Definition sample_document : Doc.t :=
  Doc.mk 1 "2023-11-14" 50 [(fingerprint sample_entry, mkShardEntry sample_entry 50)].

End Stores.

Section Caches.
Import Js CloudCache.

(** Two entries used last at the same time, the first with a cached
    original of 300 MiB and a preview, the second with a preview only; the
    cache is over its budget of 400 MiB and nothing is old. *)
Definition with_original : EntryDir :=
  {| name := "fp-a";
     manifest_json := Some (mkCacheManifest "fp-a" "t" (Some (mkCachedFile "preview.jpg" 1000))
                              (Some (mkCachedFile "original.jpg" 1000)) (Some 1000) (Some 1000));
     file_sizes := [("preview.jpg", 1048576%N); ("original.jpg", 314572800%N)] |}.

Definition without_original : EntryDir :=
  {| name := "fp-b";
     manifest_json := Some (mkCacheManifest "fp-b" "t" (Some (mkCachedFile "preview.jpg" 1000))
                              None (Some 1000) None);
     file_sizes := [("preview.jpg", 209715200%N)] |}.

End Caches.

Section Worlds.
Import Js Text Fingerprint Utils Sync.

(** Two photos on the device. *)
Definition photo (n : Z) : Asset :=
  mkAsset (pretty n) ("IMG_" +:+ pretty n +:+ ".jpg") ("file:///DCIM/Camera/IMG_" +:+ pretty n +:+ ".jpg")
    (Some (1700000000000 + n)) None (Some 2048).

Definition photo_file (n : Z) : AssetFile :=
  mkAssetFile ("file:///DCIM/Camera/IMG_" +:+ pretty n +:+ ".jpg") "Camera" None (Some 2048)
    "aGVsbG8=" "digest".

Definition no_status : SyncStatus := mkStatus false 0 0 false 0 0 None None.

(** A device with the two photos, a loaded and empty metadata cache, an
    empty repository whose first request fails, and a user who cancels
    while the first upload is under way. *)
Definition cancelling_world : world :=
  mkWorld
    (MetaIndex.mkState (Github.mkRemote [] demo_hash [true] []) 100
       (Some (MetaIndex.Cache.mk (MetaIndex.Manifest.mk 1 100 []) None [] 100))
       MetaIndex.noIndices)
    (LocalStore.mkDb [] [])
    (mkDevice [("1", photo_file 1); ("2", photo_file 2)] [] [])
    false [] no_status None true [] true false false
    [false; false; false; true] [].

(** The local index holds two records: one, not uploaded, of the asset
    with id 1 under an earlier fingerprint, and one, uploaded, under the
    fingerprint that the asset has now. *)
Definition shadowed_world : world :=
  mkWorld
    (MetaIndex.mkState (Github.mkRemote [] demo_hash [] []) 100
       (Some (MetaIndex.Cache.mk (MetaIndex.Manifest.mk 1 100 []) None [] 100))
       MetaIndex.noIndices)
    (LocalStore.mkDb
       [("IMG_1.jpg|1600000000000|1024",
         LocalStore.mkRecord "IMG_1.jpg|1600000000000|1024" (Some "1")
           (Some "gitgallery/images/Camera/IMG_1.jpg") false (Some 1024) (Some 1600000000000)
           None None (Some 50) None None);
        (makeFingerprint (photo 1),
         LocalStore.mkRecord (makeFingerprint (photo 1)) (Some "7")
           (Some "gitgallery/images/Camera/IMG_1.jpg") true (Some 2048) (Some 1700000000001)
           None None (Some 60) (Some 60) None)]
       [])
    (mkDevice [("1", photo_file 1)] [] [])
    false [] no_status None true [] false false false [] [].

End Worlds.

Section StoreWorlds.
Import Js Text Fingerprint Utils Sync MetaIndex.

(** The record that the local index keeps of the sample photo. *)
Definition sample_record : LocalStore.AssetRecord :=
  LocalStore.mkRecord (fingerprint sample_entry) (Some "42") (Some (repoPath sample_entry)) true
    (Some 2048) (Some 1700000000000) (Some "c29tZSBoYXNo") None (Some 60) (Some 60) None.

(** A repository that holds the sample photo and the shard with its
    entry, written by another device after this one loaded the metadata:
    the cache of this device is loaded and does not resolve the path. *)
Definition stale_world : world :=
  mkWorld
    (mkState
       (Github.mkRemote
          [(repoPath sample_entry, Github.mkFile (Github.Bytes "aGVsbG8=") "sha-photo");
           ("gitgallery/meta/2023/11/14/meta_dict.json",
            Github.mkFile
              (Github.JsonText
                 (json_of_doc (Doc.mk 1 "2023-11-14" 50
                                 [(fingerprint sample_entry, mkShardEntry sample_entry 50)])))
              "sha-shard")]
          demo_hash [] [])
       100 (Some (Cache.mk (Manifest.mk 1 100 []) None [] 100)) noIndices)
    (LocalStore.mkDb [(fingerprint sample_entry, sample_record)] [])
    (mkDevice [] [] [])
    false [] no_status None true [] true false false [] [].

(** The store of a device that has itself written the entry of the sample
    photo. *)
Definition resolving_world : world :=
  mkWorld
    (upsertMetaEntry sample_entry
       (mkState
          (Github.mkRemote
             [(repoPath sample_entry, Github.mkFile (Github.Bytes "aGVsbG8=") "sha-photo")]
             demo_hash [] [])
          100 None noIndices)).2
    (LocalStore.mkDb [(fingerprint sample_entry, sample_record)] [])
    (mkDevice [] [] [])
    false [] no_status None true [] true false false [] [].

End StoreWorlds.

End Samples.
(** * Properties *)

(** ** Strings *)

Lemma append_nil_l (s : string) : "" +:+ s = s.
Proof. reflexivity. Qed.

Lemma append_cons (c : ascii) (s t : string) : String c s +:+ t = String c (s +:+ t).
Proof. reflexivity. Qed.

Lemma append_assoc (a b c : string) : (a +:+ b) +:+ c = a +:+ b +:+ c.
Proof. induction a as [|x a IH]; [done|]. by rewrite !append_cons, IH. Qed.

Ltac str_simpl := rewrite ?append_cons, ?append_nil_l in *.

(** ** Association lists *)

Section AssocFacts.
Import Js.

Lemma lookup_key_assign {A : Type} k (v : A) l : lookup_key k (assign k v l) = Some v.
Proof.
  induction l as [|[k' v'] l IH]; simpl.
  - by rewrite decide_True.
  - destruct (decide (k' = k)) as [->|Hne]; simpl.
    + by rewrite decide_True.
    + by rewrite decide_False.
Qed.

Lemma lookup_key_assign_ne {A : Type} k k' (v : A) l :
  k ≠ k' → lookup_key k' (assign k v l) = lookup_key k' l.
Proof.
  intros Hne. induction l as [|[k0 v0] l IH]; simpl.
  - by rewrite decide_False.
  - destruct (decide (k0 = k)) as [->|Hne0]; simpl.
    + by rewrite !decide_False.
    + by rewrite IH.
Qed.

Lemma lookup_key_remove {A : Type} k (l : list (string * A)) : lookup_key k (remove_key k l) = None.
Proof.
  induction l as [|[k' v'] l IH]; simpl; [done|].
  destruct (decide (k' = k)) as [->|Hne]; simpl; [done|].
  by rewrite decide_False.
Qed.

Lemma lookup_key_remove_ne {A : Type} k k' (l : list (string * A)) :
  k ≠ k' → lookup_key k' (remove_key k l) = lookup_key k' l.
Proof.
  intros Hne. induction l as [|[k0 v0] l IH]; simpl; [done|].
  destruct (decide (k0 = k)) as [->|Hne0]; simpl.
  - by rewrite decide_False.
  - by rewrite IH.
Qed.

End AssocFacts.

(** ** Runs of asynchronous functions *)

Section MonadFacts.
Import Js.
Context {S : Type}.

Lemma bind_ok {A B : Type} (m : M S A) (k : A → M S B) s b s' :
  bind m k s = (Ok b, s') → ∃ a s1, m s = (Ok a, s1) ∧ k a s1 = (Ok b, s').
Proof.
  unfold bind. destruct (m s) as [[a|e] s1]; [|done]. intros H. by exists a, s1.
Qed.

Lemma bind_throw {A B : Type} (m : M S A) (k : A → M S B) s e s' :
  bind m k s = (Throw e, s') →
  m s = (Throw e, s') ∨ ∃ a s1, m s = (Ok a, s1) ∧ k a s1 = (Throw e, s').
Proof.
  unfold bind. destruct (m s) as [[a|e0] s1]; [|intros [= -> ->]; by left].
  intros H. right. by exists a, s1.
Qed.

Lemma ret_ok {A : Type} (a b : A) (s s' : S) : ret a s = (Ok b, s') → b = a ∧ s' = s.
Proof. by intros [= -> ->]. Qed.

Lemma gets_ok {A : Type} (f : S → A) b (s s' : S) : gets f s = (Ok b, s') → b = f s ∧ s' = s.
Proof. by intros [= <- <-]. Qed.

Lemma modify_ok (f : S → S) (u : unit) (s s' : S) : modify f s = (Ok u, s') → s' = f s.
Proof. by intros [= <-]. Qed.

Lemma throw_ok {A : Type} e (a : A) (s s' : S) : throw e s = (Ok a, s') → False.
Proof. done. Qed.

Lemma try_catch_ok {A : Type} (m : M S A) h (a : A) s s' :
  try_catch m h s = (Ok a, s') →
  m s = (Ok a, s') ∨ ∃ e s1, m s = (Throw e, s1) ∧ h e s1 = (Ok a, s').
Proof.
  unfold try_catch. destruct (m s) as [[a0|e] s1]; [by left|]. intros H. right. by exists e, s1.
Qed.

Lemma zoom_ok {T A : Type} (proj : S → T) (inj : T → S → S) (m : M T A) a s s' :
  zoom proj inj m s = (Ok a, s') → ∃ t', m (proj s) = (Ok a, t') ∧ s' = inj t' s.
Proof.
  unfold zoom. destruct (m (proj s)) as [r t'] eqn:E. intros [= -> <-]. by exists t'.
Qed.

Lemma zoom_run {T A : Type} (proj : S → T) (inj : T → S → S) (m : M T A) s :
  zoom proj inj m s = ((m (proj s)).1, inj (m (proj s)).2 s).
Proof. unfold zoom. by destruct (m (proj s)). Qed.

Context (R : S → S → Prop) `{!PreOrder R}.

Lemma maintains_ret {A : Type} (a : A) : maintains R (ret a).
Proof. intros s. simpl. reflexivity. Qed.

Lemma maintains_throw {A : Type} e : maintains R (@throw S A e).
Proof. intros s. simpl. reflexivity. Qed.

Lemma maintains_gets {A : Type} (f : S → A) : maintains R (gets f).
Proof. intros s. simpl. reflexivity. Qed.

Lemma maintains_modify (f : S → S) : (∀ s, R s (f s)) → maintains R (modify f).
Proof. intros H s. apply H. Qed.

Lemma maintains_bind {A B : Type} (m : M S A) (k : A → M S B) :
  maintains R m → (∀ a, maintains R (k a)) → maintains R (bind m k).
Proof.
  intros Hm Hk s. unfold bind. specialize (Hm s).
  destruct (m s) as [[a|e] s1]; simpl in *; [|done].
  etrans; [exact Hm|apply Hk].
Qed.

Lemma maintains_try_catch {A : Type} (m : M S A) h :
  maintains R m → (∀ e, maintains R (h e)) → maintains R (try_catch m h).
Proof.
  intros Hm Hh s. unfold try_catch. specialize (Hm s).
  destruct (m s) as [[a|e] s1]; simpl in *; [done|].
  etrans; [exact Hm|apply Hh].
Qed.

Lemma maintains_finally {A : Type} (m : M S A) (cleanup : S → S) :
  maintains R m → (∀ s, R s (cleanup s)) → maintains R (finally m cleanup).
Proof.
  intros Hm Hc s. unfold finally. specialize (Hm s).
  destruct (m s) as [r s1]; simpl in *. etrans; [exact Hm|apply Hc].
Qed.

Lemma maintains_fold {A B : Type} (f : M S B → A → M S B) (l : list A) :
  (∀ acc a, maintains R acc → maintains R (f acc a)) →
  ∀ acc, maintains R acc → maintains R (fold_left f l acc).
Proof.
  intros Hf. induction l as [|a l IH]; intros acc Hacc; simpl; [done|].
  apply IH, Hf, Hacc.
Qed.

End MonadFacts.

Lemma maintains_zoom {S T A : Type} (R : S → S → Prop) (Q : T → T → Prop)
    (proj : S → T) (inj : T → S → S) (m : Js.M T A) :
  (∀ s t', Q (proj s) t' → R s (inj t' s)) →
  Js.maintains Q m → Js.maintains R (Js.zoom proj inj m).
Proof.
  intros H Hm s. rewrite zoom_run. simpl. apply H, Hm.
Qed.

(** Take apart a run that returned. *)
Ltac run_inv H :=
  cbv beta in H;
  lazymatch type of H with
  | Js.bind _ _ _ = (Js.Ok _, _) =>
      let a := fresh "a" in let s := fresh "s" in let H1 := fresh "Hrun" in
      apply bind_ok in H as (a & s & H1 & H); run_inv H1; run_inv H
  | Js.ret _ _ = (Js.Ok _, _) =>
      let E1 := fresh in let E2 := fresh in
      apply ret_ok in H as [E1 E2]; try subst
  | Js.gets _ _ = (Js.Ok _, _) =>
      let E1 := fresh in let E2 := fresh in
      apply gets_ok in H as [E1 E2]; try subst
  | Js.modify _ _ = (Js.Ok _, _) => apply modify_ok in H; try subst
  | Js.throw _ _ = (Js.Ok _, _) => by apply throw_ok in H
  | _ => idtac
  end.

Create HintDb maintain.

(** Prove that a function maintains a relation by going through its
    steps; [tac] settles the steps that write the state. *)
Ltac maintain_with tac :=
  repeat first
    [ match goal with |- PreOrder _ => typeclasses eauto end
    | solve [eauto 2 with maintain]
    | apply maintains_ret
    | apply maintains_throw
    | apply maintains_gets
    | apply maintains_bind; [..|intros ?]
    | apply maintains_try_catch; [..|intros ?]
    | apply maintains_modify; [..|intros ?; tac]
    | match goal with
      | |- Js.maintains _ (match ?x with _ => _ end) => destruct x
      end ].

(** A loop that threads a value through the elements of a list: an
    invariant of the steps holds of the result when the loop returns. *)
Lemma fold_left_ok {S A B : Type} (f : Js.M S B → A → Js.M S B) (step : B → A → Js.M S B)
    (I : B → S → Prop) :
  (∀ acc a, f acc a = Js.bind acc (λ b, step b a)) →
  (∀ b a s b' s', I b s → step b a s = (Js.Ok b', s') → I b' s') →
  ∀ l acc s b s',
    fold_left f l acc s = (Js.Ok b, s') →
    (∀ b1 s1, acc s = (Js.Ok b1, s1) → I b1 s1) →
    I b s'.
Proof.
  intros Hf Hstep. induction l as [|a l IH]; intros acc s b s' Hrun Hacc; simpl in Hrun.
  - by apply Hacc.
  - apply (IH _ _ _ _ Hrun). intros b1 s1. rewrite Hf. intros H.
    apply bind_ok in H as (b0 & s0 & H0 & H). eapply Hstep; [|exact H]. by apply Hacc.
Qed.

(** ** Fingerprint *)

Section FingerprintFacts.
Import Js Fingerprint TextProps.

Lemma bar_free_app s t : bar_free (s +:+ t) = bar_free s && bar_free t.
Proof.
  induction s as [|c s IH]; simpl; [done|].
  destruct (decide (c = "|"%char)); [done|apply IH].
Qed.

Lemma pretty_N_char_bar_free x : pretty_N_char x ≠ "|"%char.
Proof. unfold pretty_N_char. by repeat case_match. Qed.

Lemma pretty_N_go_bar_free x s : bar_free s = true → bar_free (pretty_N_go x s) = true.
Proof.
  revert s. induction (N.lt_wf_0 x) as [x _ IH]; intros s Hs.
  assert (x = 0 ∨ 0 < x)%N as [->|Hpos] by lia.
  - by rewrite pretty_N_go_0.
  - rewrite pretty_N_go_step by done. apply IH.
    + by apply N.div_lt.
    + simpl. destruct (decide _) as [E|_]; [|done].
      by destruct (pretty_N_char_bar_free _ E).
Qed.

Lemma pretty_N_bar_free (x : N) : bar_free (pretty x) = true.
Proof.
  unfold pretty, pretty_N. case_decide; [done|].
  by apply pretty_N_go_bar_free.
Qed.

Lemma number_to_string_bar_free z : bar_free (number_to_string z) = true.
Proof.
  unfold number_to_string, pretty, pretty_Z. destruct z as [|p|p].
  - done.
  - apply pretty_N_bar_free.
  - rewrite bar_free_app. simpl. apply pretty_N_bar_free.
Qed.

(** The last separator of a string determines the split. *)
Lemma split_at_last_bar a a' b b' :
  bar_free b = true → bar_free b' = true →
  a +:+ "|" +:+ b = a' +:+ "|" +:+ b' → a = a' ∧ b = b'.
Proof.
  revert a'. induction a as [|c a IH]; intros [|c' a'] Hb Hb' E; str_simpl.
  - by simplify_eq.
  - injection E as <- ->. rewrite bar_free_app in Hb. cbn in Hb.
    by rewrite andb_false_r in Hb.
  - injection E as -> <-. rewrite bar_free_app in Hb'. cbn in Hb'.
    by rewrite andb_false_r in Hb'.
  - injection E as -> E. destruct (IH a' Hb Hb' E) as [-> ->]. done.
Qed.

Lemma join3_inj f t s f' t' s' :
  bar_free t = true → bar_free s = true → bar_free t' = true → bar_free s' = true →
  f +:+ "|" +:+ t +:+ "|" +:+ s = f' +:+ "|" +:+ t' +:+ "|" +:+ s' →
  f = f' ∧ t = t' ∧ s = s'.
Proof.
  intros Ht Hs Ht' Hs' E.
  assert (∀ x y z, x +:+ "|" +:+ y +:+ "|" +:+ z = (x +:+ "|" +:+ y) +:+ "|" +:+ z) as R.
  { intros. by rewrite !append_assoc. }
  rewrite (R f t s), (R f' t' s') in E.
  apply split_at_last_bar in E as [E ->]; [|done..].
  apply split_at_last_bar in E as [-> ->]; done.
Qed.

Example makeFingerprint_sample :
  makeFingerprint (mkAsset "42" "IMG_0001.jpg" "file:///x" (Some 1700000000000) None (Some 2048))
  = "IMG_0001.jpg|1700000000000|2048".
Proof. vm_compute. reflexivity. Qed.

Example makeFingerprint_fallbacks :
  makeFingerprint (mkAsset "42" "" "file:///x" None None None) = "asset-42|0|0".
Proof. vm_compute. reflexivity. Qed.

(** C6, as amended.  The fingerprint is a function of the three values that
    enter the template literal, namely the file name or else [asset-<id>],
    the creation time or else the modification time or else 0, and the file
    size or else 0, and it is injective on them: two assets have the same
    fingerprint exactly when these three values agree. *)
Theorem makeFingerprint_injective_on_effective_inputs (a b : Asset) :
  makeFingerprint a = makeFingerprint b ↔ effectiveInputs a = effectiveInputs b.
Proof.
  unfold makeFingerprint, effectiveInputs. split.
  - intros E. apply join3_inj in E as (E0 & E1 & E2);
      [|apply number_to_string_bar_free..].
    unfold number_to_string in *.
    apply (inj pretty) in E1. apply (inj pretty) in E2. congruence.
  - intros [= -> -> ->]. done.
Qed.

(** C6, as stated, fails: an asset without a file name borrows its name
    from its id, so two assets whose file names differ (and whose time and
    size agree) can share a fingerprint. *)
Lemma makeFingerprint_collision_on_raw_inputs :
  ¬ (∀ a b : Asset, rawInputs a ≠ rawInputs b → makeFingerprint a ≠ makeFingerprint b).
Proof.
  intros H.
  apply (H (mkAsset "7" "" "file:///a" (Some 1000) None (Some 10))
           (mkAsset "8" "asset-7" "file:///b" (Some 1000) None (Some 10))).
  - discriminate.
  - vm_compute. reflexivity.
Qed.

End FingerprintFacts.

(** ** Job queue *)

Section JobQueueFacts.
Import Promise JobQueue.

(** Three jobs enqueued at ticks 0, 1 and 2: the first takes five ticks and
    rejects, the second takes two ticks, the third one tick. *)
Example enqueue_all_sample :
  enqueue_all (new 0)
    [((λ _, Some (5, Rejected)), 0); ((λ _, Some (2, Fulfilled)), 1); ((λ _, Some (1, Fulfilled)), 2)]%nat
  = [(Some (5, Rejected), Some 0); (Some (7, Fulfilled), Some 5); (Some (8, Fulfilled), Some 7)]%nat.
Proof. reflexivity. Qed.

Lemma catch_finally p now : catch_ (finally_ p now) now = catch_ p now.
Proof. destruct p as [[t o]|]; simpl; [|done]. f_equal. f_equal. lia. Qed.

(** The time at which [this.current] settles never decreases. *)
Lemma enqueue_current q job now q' r s :
  enqueue q job now = (q', r, s) →
  current q' = catch_ r now ∧
  (∀ u, s = Some u → ∃ tc, current q = Some (tc, Fulfilled) ∧ (tc ≤ u)%nat ∧ r = finally_ (call job u) now) ∧
  (∀ tr o, r = Some (tr, o) → ∃ tc oc, current q = Some (tc, oc) ∧ (tc ≤ tr)%nat).
Proof.
  unfold enqueue, then_. destruct (current q) as [[tc [|]]|] eqn:Ec; intros [= <- <- <-];
    (split; [cbn [current]; first [by rewrite catch_finally | simpl; f_equal; f_equal; lia | done]|split]).
  - intros u [= <-]. exists tc. split; [done|]. split; [lia|done].
  - intros tr o. unfold call. destruct (job _) as [[d o']|]; [|done].
    simpl. intros [= <- <-]. exists tc, Fulfilled. split; [done|lia].
  - done.
  - simpl. intros tr o [= <- <-]. exists tc, Rejected. split; [done|lia].
  - done.
  - done.
Qed.

(** Every job of a sequence starts after [this.current] has settled. *)
Lemma enqueue_all_after_current jobs : ∀ q r s u,
  (r, s) ∈ enqueue_all q jobs → s = Some u →
  ∃ tc oc, current q = Some (tc, oc) ∧ (tc ≤ u)%nat.
Proof.
  induction jobs as [|[job now] rest IH]; intros q r s u Hin Hs; simpl in Hin.
  - by apply elem_of_nil in Hin.
  - destruct (enqueue q job now) as [[q' r0] s0] eqn:E.
    destruct (enqueue_current _ _ _ _ _ _ E) as (Hc & Hstart & Hsettle).
    apply elem_of_cons in Hin as [[= -> ->]|Hin].
    + destruct (Hstart u Hs) as (tc & Hq & Hle & _). eauto.
    + destruct (IH q' r s u Hin Hs) as (tc' & oc' & Hq' & Hle').
      rewrite Hc in Hq'. unfold catch_ in Hq'.
      destruct r0 as [[tr o]|]; [|done]. injection Hq' as <- <-.
      destruct (Hsettle tr o eq_refl) as (tc & oc & Hq & Hle).
      exists tc, oc. split; [done|lia].
Qed.

(** A job that starts, starts after the promise of the job enqueued just
    before the sequence has settled. *)
Lemma enqueue_all_after_head q job now rest q' r0 s0 r s u :
  enqueue q job now = (q', r0, s0) →
  (r, s) ∈ enqueue_all q' rest → s = Some u →
  ∃ t o, r0 = Some (t, o) ∧ (t ≤ u)%nat.
Proof.
  intros E Hin Hs.
  destruct (enqueue_current _ _ _ _ _ _ E) as (Hc & _ & _).
  destruct (enqueue_all_after_current _ _ _ _ _ Hin Hs) as (tc & oc & Hq & Hle).
  rewrite Hc in Hq. unfold catch_ in Hq. destruct r0 as [[t o]|]; [|done].
  injection Hq as <- <-. exists t, o. split; [done|lia].
Qed.

Lemma enqueue_all_no_overlap jobs : ∀ q i k r1 s1 r2 s2 u,
  (i < k)%nat →
  enqueue_all q jobs !! i = Some (r1, s1) →
  enqueue_all q jobs !! k = Some (r2, s2) →
  s2 = Some u →
  ∃ t o, r1 = Some (t, o) ∧ (t ≤ u)%nat.
Proof.
  induction jobs as [|[job now] rest IH]; intros q i k r1 s1 r2 s2 u Hik Hi Hk Hs; simpl in *.
  - done.
  - destruct (enqueue q job now) as [[q' r0] s0] eqn:E.
    destruct k as [|k]; [lia|]. destruct i as [|i]; simpl in *.
    + injection Hi as -> ->.
      eapply enqueue_all_after_head; [exact E| |exact Hs].
      eapply list_elem_of_lookup_2, Hk.
    + eapply (IH q' i k); eauto with lia.
Qed.

Lemma enqueue_all_progress jobs : ∀ q k tc,
  current q = Some (tc, Fulfilled) →
  (k < length jobs)%nat →
  (∀ i r s, (i < k)%nat → enqueue_all q jobs !! i = Some (r, s) → is_Some r) →
  ∃ r u, enqueue_all q jobs !! k = Some (r, Some u).
Proof.
  induction jobs as [|[job now] rest IH]; intros q k tc Hq Hk Hprev; simpl in *.
  - lia.
  - destruct (enqueue q job now) as [[q' r0] s0] eqn:E.
    destruct (enqueue_current _ _ _ _ _ _ E) as (Hc & _ & _).
    destruct k as [|k]; simpl.
    + unfold enqueue, then_ in E. rewrite Hq in E. injection E as _ _ <-. eauto.
    + destruct (Hprev 0%nat r0 s0) as [[t o] ->]; [lia|done|].
      apply (IH q' k (Nat.max t now)); [by rewrite Hc|lia|].
      intros i r s Hi Hl. apply (Hprev (S i) r s); [lia|done].
Qed.



End JobQueueFacts.

(** ** Remote storage bridge *)

Section GithubFacts.
Import Js Github Samples.

Example putFile_creates :
  fst (putFile "a.jpg" "Upload a" "AAAA" None (demo_remote [])) = Ok (Some "blob:AAAA").
Proof. reflexivity. Qed.

Example putFile_replaces_unseen_version :
  let r := demo_remote [("a.jpg", mkFile (Bytes "BBBB") "blob:BBBB")] in
  let '(res, r') := putFile "a.jpg" "Upload a" "AAAA" None r in
  res = Ok (Some "blob:AAAA") ∧ files r' = [("a.jpg", mkFile (Bytes "AAAA") "blob:AAAA")].
Proof. split; reflexivity. Qed.

(** With a SHA passed by the caller the write is conditional. *)
Example putFile_stale_sha_conflicts :
  let r := demo_remote [("a.jpg", mkFile (Bytes "BBBB") "blob:BBBB")] in
  let '(res, r') := putFile "a.jpg" "Upload a" "AAAA" (Some "blob:CCCC") r in
  res = Throw VersionConflict ∧ files r' = files r.
Proof. split; reflexivity. Qed.


End GithubFacts.

(** ** Sharded metadata store: bootstrap and removal *)

Section RegexFacts.
Import Js Text Regex.

Lemma any_plus_none taken s k :
  (∀ t r, k t r = None) → any_plus taken s k = None.
Proof.
  intros Hk. revert taken. induction s as [|c s IH]; intros taken; simpl; [done|].
  destruct (is_line_terminator c); [done|]. by rewrite IH, Hk.
Qed.

(** A pattern that asks for a character after the end of the input matches
    nothing. *)
Lemma match_here_after_end (pre : list item) (c : ascii) (post : list item) :
  ∀ at_start s, match_here (pre ++ Eol :: Chr c :: post) at_start s = None.
Proof.
  induction pre as [|it pre IH]; intros at_start s; simpl.
  - by destruct s.
  - destruct it.
    + destruct at_start; [apply IH|done].
    + destruct s; [apply IH|done].
    + destruct s as [|c' s]; [done|]. destruct (decide _); [apply IH|done].
    + destruct (take_digits n s) as [[d s']|]; [|done]. by rewrite IH.
    + apply any_plus_none. intros t r. by rewrite IH.
Qed.

Lemma search_from_after_end (pre : list item) (c : ascii) (post : list item) :
  ∀ s at_start, search_from (pre ++ Eol :: Chr c :: post) at_start s = None.
Proof.
  induction s as [|x s IH]; intros at_start; simpl; rewrite match_here_after_end; [done|apply IH].
Qed.

End RegexFacts.

Section BootstrapFacts.
Import Js Text Regex Json Github MetaIndex Samples.

(** The three patterns that end in [${SHARD_FILENAME}$] match no path. *)
Lemma datedPattern_never_matches path : match_ datedPattern path = None.
Proof.
  unfold match_.
  change datedPattern with
    (([Bol] ++ lit "gitgallery/meta/" ++ [Digits 4; Chr "/"; Digits 2; Chr "/"; Digits 2; Chr "/"])
     ++ Eol :: Chr "{" :: (lit "SHARD_FILENAME}" ++ [Eol])).
  apply search_from_after_end.
Qed.

Lemma unknownPattern_never_matches path : match_ unknownPattern path = None.
Proof.
  unfold match_.
  change unknownPattern with
    (([Bol] ++ lit "gitgallery/meta/unknown/")
     ++ Eol :: Chr "{" :: (lit "SHARD_FILENAME}" ++ [Eol])).
  apply search_from_after_end.
Qed.

Lemma miscPattern_never_matches path : match_ miscPattern path = None.
Proof.
  unfold match_.
  change miscPattern with
    (([Bol] ++ lit "gitgallery/meta/misc/" ++ [AnyPlus; Chr "/"])
     ++ Eol :: Chr "{" :: (lit "SHARD_FILENAME}" ++ [Eol])).
  apply search_from_after_end.
Qed.

(** Only the legacy layout is recognised. *)
Lemma bucketFromShardFilePath_legacy_only path bucket :
  bucketFromShardFilePath path = Some bucket →
  ∃ name, match_ legacyPattern
            (map_chars (λ c, if decide (c = "\"%char) then "/"%char else c) path) = Some [name]
          ∧ bucket = sanitizeBucket name.
Proof.
  unfold bucketFromShardFilePath. destruct (truthy_string path); [|done].
  rewrite datedPattern_never_matches, unknownPattern_never_matches, miscPattern_never_matches.
  destruct (match_ legacyPattern _) as [[|name [|??]]|]; try done.
  intros [= <-]. by exists name.
Qed.

(** The path at which the store writes the shard of a dated bucket is not
    recognised as the path of a shard. *)
Example getShardPath_not_recognised :
  getShardPath "2024-01-02" = "gitgallery/meta/2024/01/02/meta_dict.json" ∧
  bucketFromShardFilePath (getShardPath "2024-01-02") = None ∧
  bucketFromShardFilePath (getShardPath "unknown") = None ∧
  bucketFromShardFilePath "gitgallery/meta/shards/2024-01-02.json" = Some "2024-01-02".
Proof. repeat split; vm_compute; reflexivity. Qed.

(** C2 does not hold of the code.  With the manifest absent and one shard
    file in the dated layout, the bootstrap completes, lists no shard
    file, and writes back a manifest without any row: the row of bucket
    2024-01-02 with count 1 that the claim asks for is missing. *)
Theorem bootstrap_misses_dated_shard :
  fst (listShardFiles dated_shard_only) = Ok [] ∧
  ∃ c s',
    ensureBaseState dated_shard_only = (Ok c, s') ∧
    Manifest.shards (Cache.manifest c) = [] ∧
    lookup_key META_MANIFEST_PATH (files (remote s'))
    = Some (mkFile (JsonText (JObj [("version", JNum 1); ("updatedAt", JNum 100);
                                    ("shards", JObj [])])) "json").
Proof.
  split; [vm_compute; reflexivity|].
  eexists _, _. split; [vm_compute; reflexivity|]. split; vm_compute; reflexivity.
Qed.

(** The same shard in the legacy layout is found. *)
Example bootstrap_finds_legacy_shard :
  let s := mkState
             (mkRemote [("gitgallery/meta/shards/2024-01-02.json",
                         mkFile (JsonText one_entry_shard) "sha-1")] demo_hash [] [])
             100 None noIndices in
  (λ c, Manifest.shards (Cache.manifest c)) <$> result_value (fst (ensureBaseState s))
  = Some [("2024-01-02", Info.mk "gitgallery/meta/shards/2024-01-02.json" 1 50 (Some "sha-1"))].
Proof. vm_compute. reflexivity. Qed.

(** C1 does not hold of the code.  [removeMetaEntries] for a fingerprint
    that no shard holds completes without error and leaves in the cached
    manifest a row with count 0 for the bucket of the fingerprint:
    [ensureShardLoaded] creates the row and the loop skips the shard as
    unchanged. *)
Theorem removeMetaEntries_leaves_empty_bucket :
  ∃ s',
    removeMetaEntries ["IMG_1.jpg|1700000000000|2048"] empty_repository = (Ok tt, s') ∧
    (Manifest.shards ∘ Cache.manifest) <$> cache s'
    = Some [("2023-11-14", Info.mk "gitgallery/meta/2023/11/14/meta_dict.json" 0 100 None)].
Proof. eexists. split; vm_compute; reflexivity. Qed.

End BootstrapFacts.

(** ** Sharded metadata store: what is written is what is read *)

Section RoundTripFacts.
Import Js Text Json Github MetaIndex StoreProps.

Lemma lookup_key_None {A : Type} k (l : list (string * A)) :
  k ∉ map fst l → lookup_key k l = None.
Proof.
  induction l as [|[k' v] l IH]; simpl; [done|]. intros Hk.
  rewrite not_elem_of_cons in Hk. destruct Hk as [Hne Hk].
  rewrite decide_False by done. by apply IH.
Qed.

Lemma map_fst_assign {A : Type} k (v : A) l :
  map fst (assign k v l) = if bool_decide (k ∈ map fst l) then map fst l else map fst l ++ [k].
Proof.
  induction l as [|[k' v'] l IH]; simpl; [done|].
  destruct (decide (k' = k)) as [->|Hne]; simpl.
  - rewrite bool_decide_true; [done|]. apply elem_of_cons. by left.
  - rewrite IH. destruct (bool_decide (k ∈ map fst l)) eqn:E.
    + apply bool_decide_eq_true in E. rewrite bool_decide_true; [done|].
      apply elem_of_cons. by right.
    + apply bool_decide_eq_false in E. rewrite bool_decide_false; [done|].
      rewrite elem_of_cons. intros [->|?]; done.
Qed.

Lemma keyed_nil : keyed [].
Proof. split; constructor. Qed.

Lemma Forall_assign {A : Type} (P : string * A → Prop) k v l :
  P (k, v) → Forall P l → Forall P (assign k v l).
Proof.
  intros Hv. induction 1 as [|[k' v'] l Hx Hl IH]; simpl.
  - by constructor.
  - destruct (decide (k' = k)); by constructor.
Qed.

Lemma keyed_assign k e entries :
  fingerprint (entry e) = k → keyed entries → keyed (assign k e entries).
Proof.
  intros Hk [Hnd Hall]. split.
  - rewrite map_fst_assign. case_bool_decide; [done|].
    apply NoDup_app. split; [done|]. split; [|apply NoDup_singleton].
    intros x Hx ->%list_elem_of_singleton. done.
  - by apply Forall_assign.
Qed.

Lemma normalizeEntry_key now k raw f e :
  normalizeEntry now k raw = Some (f, e) → fingerprint (entry e) = f.
Proof.
  unfold normalizeEntry. destruct (is_object raw); [|done].
  destruct (truthy_string _); [|done].
  destruct (toOptionalString _); [|done]. by intros [= <- <-].
Qed.

Lemma normalizeShardDocument_wf now bucket input : doc_wf (normalizeShardDocument now bucket input).
Proof.
  unfold doc_wf, normalizeShardDocument. simpl.
  destruct (entries_of _) as [raw|]; [|apply keyed_nil].
  assert (∀ acc, keyed acc →
            keyed (fold_left
                     (λ entries '(key, rawValue),
                        match normalizeEntry now key rawValue with
                        | Some (fingerprint, e) => assign fingerprint e entries
                        | None => entries
                        end) raw acc)) as H.
  { induction raw as [|[k v] raw IH]; intros acc Hacc; simpl; [done|].
    apply IH. destruct (normalizeEntry now k v) as [[f e]|] eqn:E; [|done].
    apply keyed_assign; [|done]. by eapply normalizeEntry_key. }
  apply H, keyed_nil.
Qed.

(** Reading back one entry that is stored under its fingerprint. *)
Lemma normalizeEntry_json now (e : MetaShardEntry) :
  normalizeEntry now (fingerprint (entry e)) (json_of_entry e)
  = if truthy_string (fingerprint (entry e)) && truthy_string (repoPath (entry e))
    then Some (fingerprint (entry e), mkShardEntry (readBack (entry e)) (updatedAt e))
    else None.
Proof.
  destruct e as [[fp rp pv ca fs ch ua aid] t]. unfold normalizeEntry, json_of_entry, readBack.
  cbn [entry fingerprint repoPath previewRepoPath createdAt fileSize contentHash uploadedAt
       assetId updatedAt is_object].
  destruct fp as [|c fp]; [by destruct pv, aid|].
  destruct rp as [|c' rp]; [by destruct pv, aid|].
  destruct pv as [| |[|??]], aid as [| |[|??]], ch as [[|??]|],
    ca as [[?| |?]|], fs as [[?| |?]|], ua as [[?| |?]|]; reflexivity.
Qed.

Lemma readBack_entries now fp (entries : list (string * MetaShardEntry)) :
  keyed entries →
  ∀ acc,
    lookup_key fp
      (fold_left
         (λ entries '(key, rawValue),
            match normalizeEntry now key rawValue with
            | Some (fingerprint, e) => assign fingerprint e entries
            | None => entries
            end)
         (map (λ '(k, e), (k, json_of_entry e)) entries) acc)
    = match lookup_key fp entries with
      | Some e =>
          if truthy_string fp && truthy_string (repoPath (entry e))
          then Some (mkShardEntry (readBack (entry e)) (updatedAt e))
          else lookup_key fp acc
      | None => lookup_key fp acc
      end.
Proof.
  intros [Hnd Hall]. induction entries as [|[k e] entries IH]; intros acc; simpl; [done|].
  apply NoDup_cons in Hnd as [Hk Hnd]. apply Forall_cons in Hall as [He Hall].
  cbn [fst snd] in He, Hk. rewrite IH by done. subst k. rewrite normalizeEntry_json.
  destruct (decide (fingerprint (entry e) = fp)) as [<-|Hne].
  - rewrite (lookup_key_None _ _ Hk).
    destruct (truthy_string _ && truthy_string _); [|done]. by rewrite lookup_key_assign.
  - destruct (lookup_key fp entries) as [e'|]; [destruct (_ && _); [done|]|];
      (destruct (truthy_string (fingerprint (entry e)) && truthy_string (repoPath (entry e)));
       [by rewrite lookup_key_assign_ne|done]).
Qed.

(** Reading back a document that [persistShard] has written. *)
Lemma normalizeShardDocument_json now bucket (d : Doc.t) fp e :
  doc_wf d →
  lookup_key fp (Doc.entries d) = Some e →
  truthy_string fp = true → truthy_string (repoPath (entry e)) = true →
  lookup_key fp (Doc.entries (normalizeShardDocument now bucket (Some (json_of_doc d))))
  = Some (mkShardEntry (readBack (entry e)) (updatedAt e)).
Proof.
  intros Hwf Hl Hfp Hrp. unfold normalizeShardDocument. cbn [Doc.entries].
  assert (entries_of (field "entries" (Some (json_of_doc d)))
          = Some (map (λ '(k, e), (k, json_of_entry e)) (Doc.entries d))) as -> by reflexivity.
  rewrite (readBack_entries now fp _ Hwf), Hl, Hfp, Hrp. done.
Qed.

End RoundTripFacts.

(** ** Sharded metadata store: the steps of a mutation *)

Section RequestFacts.
Import Js Text Json Github.

(** A request leaves the files and the hash function as they are, unless
    it is a write that goes through. *)
Lemma request_run {A : Type} (respond : M remote A) r :
  request_ respond r = (Throw NetworkFailure, set_faults (tail (faults r)) r)
  ∨ ∃ r0, files r0 = files r ∧ blob_hash r0 = blob_hash r ∧ issued r0 = issued r
          ∧ request_ respond r = respond r0.
Proof.
  unfold request_. destruct (faults r) as [|[|] rest] eqn:E.
  - right. by exists r.
  - left. done.
  - right. by exists (set_faults rest r).
Qed.

Lemma getContent_ok path r data r' :
  getContent path r = (Ok data, r') →
  files r' = files r ∧ blob_hash r' = blob_hash r ∧ issued r' = issued r ∧
  match lookup_key path (files r) with
  | Some f => data = FileData path (f_content f) (f_sha f)
  | None => ∃ items, data = DirData items
  end.
Proof.
  unfold getContent. destruct (request_run
    (λ r, match lookup_key path (files r) with
          | Some f => (Ok (FileData path (f_content f) (f_sha f)), r)
          | None => match children path (files r) with
                    | [] => (Throw (RequestError 404), r)
                    | items => (Ok (DirData items), r)
                    end
          end) r) as [->|(r0 & Hf & Hh & Hi & ->)]; [done|].
  rewrite Hf. destruct (lookup_key path (files r)) as [f|].
  - intros [= <- <-]. done.
  - destruct (children path (files r)) as [|it items]; [done|]. intros [= <- <-].
    repeat split; try done. by eexists.
Qed.

Lemma getContent_throw path r e r' :
  getContent path r = (Throw e, r') →
  files r' = files r ∧ blob_hash r' = blob_hash r ∧ issued r' = issued r ∧
  (e = NetworkFailure ∨ (e = RequestError 404 ∧ lookup_key path (files r) = None)).
Proof.
  unfold getContent. destruct (request_run
    (λ r, match lookup_key path (files r) with
          | Some f => (Ok (FileData path (f_content f) (f_sha f)), r)
          | None => match children path (files r) with
                    | [] => (Throw (RequestError 404), r)
                    | items => (Ok (DirData items), r)
                    end
          end) r) as [->|(r0 & Hf & Hh & Hi & ->)].
  - intros [= <- <-]. repeat split; try done. by left.
  - rewrite Hf. destruct (lookup_key path (files r)) as [f|]; [done|].
    destruct (children path (files r)) as [|it items]; [|done]. intros [= <- <-].
    repeat split; try done. by right.
Qed.

Lemma createOrUpdateFileContents_ok path message body sha r new r' :
  createOrUpdateFileContents path message body sha r = (Ok new, r') →
  new = Some (blob_hash r body) ∧
  files r' = assign path (mkFile body (blob_hash r body)) (files r) ∧
  blob_hash r' = blob_hash r.
Proof.
  unfold createOrUpdateFileContents.
  match goal with |- request_ ?f _ = _ → _ =>
    destruct (request_run f (log_request (Put path message body sha) r))
      as [->|(r0 & Hf & Hh & Hi & ->)] end; [done|].
  change (files (log_request _ r)) with (files r) in Hf.
  change (blob_hash (log_request _ r)) with (blob_hash r) in Hh.
  cbv beta. rewrite Hf.
  destruct (lookup_key path (files r)) as [f|], sha as [expected|]; try done.
  - destruct (decide _); [|done]. intros [= <- <-]. simpl. by rewrite Hh.
  - destruct (children path (files r)); [|done]. intros [= <- <-]. simpl. by rewrite Hh.
Qed.

End RequestFacts.

Module ClockFacts.
Import Js Text Json Github MetaIndex StoreProps.

#[global] Instance same_clock_preorder : PreOrder same_clock.
Proof. split; [done|]. intros s1 s2 s3. unfold same_clock. congruence. Qed.

Lemma request_same_clock {A : Type} (m : M Github.remote A) : maintains same_clock (request m).
Proof. apply (maintains_zoom _ (λ _ _, True)); [done|]. intros ?. done. Qed.

Lemma update_cache_same_clock f : maintains same_clock (update_cache f).
Proof. by intros s. Qed.

Lemma update_indices_same_clock f : maintains same_clock (update_indices f).
Proof. by intros s. Qed.

Lemma store_shard_same_clock key shard : maintains same_clock (store_shard key shard).
Proof. by intros s. Qed.

Lemma markManifestEntry_same_clock bucket shard :
  maintains same_clock (markManifestEntry bucket shard).
Proof. by intros s. Qed.

#[global] Hint Resolve request_same_clock update_cache_same_clock update_indices_same_clock
  store_shard_same_clock markManifestEntry_same_clock : maintain.

Ltac clock := maintain_with ltac:(reflexivity).

Lemma fetchManifest_same_clock : maintains same_clock fetchManifest.
Proof. unfold fetchManifest. clock. Qed.

Lemma writeManifest_same_clock m sha msg : maintains same_clock (writeManifest m sha msg).
Proof. unfold writeManifest. clock. Qed.

Lemma fetchShardDocument_same_clock b p : maintains same_clock (fetchShardDocument b p).
Proof. unfold fetchShardDocument. clock. Qed.

Lemma persistShard_same_clock key shard msg : maintains same_clock (persistShard key shard msg).
Proof. unfold persistShard. clock. Qed.

Lemma deleteShardFile_same_clock shard : maintains same_clock (deleteShardFile shard).
Proof. unfold deleteShardFile. clock. Qed.

#[global] Hint Resolve fetchManifest_same_clock writeManifest_same_clock fetchShardDocument_same_clock
  persistShard_same_clock deleteShardFile_same_clock : maintain.

Lemma walk_same_clock fuel : ∀ path files, maintains same_clock (walk fuel path files).
Proof.
  induction fuel as [|fuel IH]; intros path files; simpl; [clock|].
  clock. apply maintains_fold; [|clock]. intros acc it Hacc. clock.
Qed.

#[global] Hint Resolve walk_same_clock : maintain.

Lemma listShardFiles_same_clock : maintains same_clock listShardFiles.
Proof. unfold listShardFiles. clock. Qed.

#[global] Hint Resolve listShardFiles_same_clock : maintain.

Lemma buildManifestFromExistingShards_same_clock :
  maintains same_clock buildManifestFromExistingShards.
Proof.
  unfold buildManifestFromExistingShards. clock.
  apply maintains_fold; [|clock]. intros acc [fb fp] Hacc. clock.
Qed.

#[global] Hint Resolve buildManifestFromExistingShards_same_clock : maintain.

Lemma ensureBaseState_same_clock : maintains same_clock ensureBaseState.
Proof. unfold ensureBaseState. clock. Qed.

#[global] Hint Resolve ensureBaseState_same_clock : maintain.

Lemma ensureShardLoaded_same_clock bucket : maintains same_clock (ensureShardLoaded bucket).
Proof. unfold ensureShardLoaded. clock. Qed.

Lemma persistManifest_same_clock : maintains same_clock persistManifest.
Proof. unfold persistManifest. clock. Qed.

#[global] Hint Resolve ensureShardLoaded_same_clock persistManifest_same_clock : maintain.

#[global] Instance same_cache_preorder : PreOrder same_cache.
Proof. split; [done|]. intros s1 s2 s3. unfold same_cache. congruence. Qed.

Lemma request_same_cache {A : Type} (m : M Github.remote A) : maintains same_cache (request m).
Proof. apply (maintains_zoom _ (λ _ _, True)); [done|]. intros ?. done. Qed.

#[global] Hint Resolve request_same_cache : maintain.

Lemma walk_same_cache fuel : ∀ path files, maintains same_cache (walk fuel path files).
Proof.
  induction fuel as [|fuel IH]; intros path files; simpl; [clock|].
  clock. apply maintains_fold; [|clock]. intros acc it Hacc. clock.
Qed.

#[global] Hint Resolve walk_same_cache : maintain.

Lemma listShardFiles_same_cache : maintains same_cache listShardFiles.
Proof. unfold listShardFiles. clock. Qed.

Lemma same_clock_run {A : Type} (m : M state A) r s s' :
  maintains same_clock m → m s = (r, s') → clock s' = clock s.
Proof. intros Hm E. specialize (Hm s). by rewrite E in Hm. Qed.

End ClockFacts.

(** ** Sharded metadata store: the walk of the metadata tree ends *)

Section WalkFacts.
Import Js Text Json Github MetaIndex StoreProps.

Lemma after_prefix_length p s rel :
  after_prefix p s = Some rel → String.length s = (String.length p + String.length rel)%nat.
Proof.
  revert s. induction p as [|a p IH]; intros s; simpl.
  - by intros [= ->].
  - destruct s as [|b s]; [done|]. destruct (decide (a = b)); [|done].
    intros H. simpl. by rewrite (IH _ H).
Qed.

Lemma first_segment_length rel :
  (String.length (first_segment rel).1 ≤ String.length rel)%nat.
Proof.
  induction rel as [|c rel IH]; simpl; [done|].
  destruct (decide (c = "/"%char)); simpl; [lia|].
  destruct (first_segment rel) as [seg more]. simpl in *. lia.
Qed.

Lemma length_append (s t : string) :
  String.length (s +:+ t) = (String.length s + String.length t)%nat.
Proof. induction s as [|c s IH]; simpl; [done|]. by rewrite IH. Qed.

Lemma elem_of_add_item it x l : it ∈ add_item x l → it = x ∨ it ∈ l.
Proof.
  induction l as [|y l IH]; simpl.
  - intros ->%list_elem_of_singleton. by left.
  - destruct (decide (i_path y = i_path x)); [by right|].
    intros [->|Hin]%elem_of_cons; [right; apply elem_of_cons; by left|].
    destruct (IH Hin) as [->|Hl]; [by left|]. right. apply elem_of_cons. by right.
Qed.

Lemma longest_from (fs : list (string * file)) : ∀ n,
  (n ≤ fold_left (λ n '(path, _), Nat.max n (String.length path)) fs n)%nat ∧
  ∀ path f, (path, f) ∈ fs →
    (String.length path ≤ fold_left (λ n '(path, _), Nat.max n (String.length path)) fs n)%nat.
Proof.
  induction fs as [|[p f0] fs IH]; intros n; simpl.
  - split; [done|]. intros path f Hin. by apply elem_of_nil in Hin.
  - destruct (IH (Nat.max n (String.length p))) as [Hn Hin]. split; [lia|].
    intros path f [[= -> ->]|Hl]%elem_of_cons; [lia|]. by eapply Hin.
Qed.

(** A directory listing names paths that are longer than the path of the
    directory and no longer than the path of a file. *)
Lemma children_paths dir fs it :
  it ∈ children dir fs →
  (String.length dir < String.length (i_path it) ≤ longest fs)%nat.
Proof.
  unfold longest. induction fs as [|[path f] fs IH]; simpl.
  - intros Hin. by apply elem_of_nil in Hin.
  - intros Hin.
    assert (∀ n m, (n ≤ m)%nat →
              (fold_left (λ n '(path, _), Nat.max n (String.length path)) fs n
               ≤ fold_left (λ n '(path, _), Nat.max n (String.length path)) fs m)%nat) as Hmono.
    { clear. induction fs as [|[p f] fs IH]; intros n m Hnm; simpl; [done|].
      apply IH. lia. }
    destruct (after_prefix (dir +:+ "/") path) as [rel|] eqn:Erel.
    + destruct (first_segment rel) as [seg more] eqn:Eseg.
      apply elem_of_add_item in Hin as [->|Hin].
      * simpl. apply after_prefix_length in Erel.
        pose proof (first_segment_length rel) as Hseg. rewrite Eseg in Hseg. simpl in Hseg.
        rewrite !length_append in *. simpl in *.
        destruct (longest_from fs (String.length path)) as [Hn _]. lia.
      * destruct (IH Hin) as [H1 H2]. split; [done|].
        etrans; [exact H2|]. apply Hmono. lia.
    + destruct (IH Hin) as [H1 H2]. split; [done|].
      etrans; [exact H2|]. apply Hmono. lia.
Qed.

Lemma getContent_files path r : files (getContent path r).2 = files r.
Proof.
  destruct (getContent path r) as [[data|e] r'] eqn:E; simpl.
  - by apply getContent_ok in E as (? & _).
  - by apply getContent_throw in E as (? & _).
Qed.

Lemma getContent_error path r e r' :
  getContent path r = (Throw e, r') → e ≠ too_deep.
Proof. intros H. apply getContent_throw in H as (_ & _ & _ & [->|[-> _]]); done. Qed.

(** A request of the walk, with its catch: the files stay, and a listing
    is the listing of the directory. *)
Lemma walk_request path s response s1 :
  try_catch (let* data := request (getContent path) in ret (Some data))
    (λ error, if is404 error then ret None else throw error) s = (response, s1) →
  files (remote s1) = files (remote s) ∧ response ≠ Throw too_deep ∧
  ∀ items, response = Ok (Some (DirData items)) → items = children path (files (remote s)).
Proof.
  unfold try_catch, bind, request. rewrite zoom_run.
  destruct (getContent path (remote s)) as [[data|e] r1] eqn:Eget; simpl.
  - pose proof (getContent_files path (remote s)) as Hfiles. rewrite Eget in Hfiles.
    intros [= <- <-]. split; [done|]. split; [done|]. intros items [= ->].
    unfold getContent, request_ in Eget.
    destruct (faults (remote s)) as [|[|] rest]; simpl in Eget; [|done|];
      (destruct (lookup_key path (files (remote s))); [done|]);
      (destruct (children path (files (remote s))); [done|]);
      by injection Eget as <- _.
  - pose proof (getContent_files path (remote s)) as Hfiles. rewrite Eget in Hfiles.
    apply getContent_error in Eget.
    destruct (is404 e); intros [= <- <-]; (split; [done|]); split; try done.
    by intros [= ->].
Qed.

(** With fuel for the longest path, [walk] never gives up: it returns or
    throws what a request has thrown. *)
Lemma walk_ends fuel : ∀ path acc s r s',
  (longest (files (remote s)) - String.length path < fuel)%nat →
  walk fuel path acc s = (r, s') →
  r ≠ Throw too_deep ∧ files (remote s') = files (remote s).
Proof.
  induction fuel as [|fuel IH]; intros path acc s r s' Hfuel; [lia|].
  cbn [walk]. unfold bind at 1.
  destruct (try_catch (let* data := request (getContent path) in ret (Some data))
              (λ error, if is404 error then ret None else throw error) s)
    as [response s1] eqn:Etry.
  apply walk_request in Etry as (Hf & Hne & Hdir).
  destruct response as [[[filePath body sha|items]|]|e].
  - destruct (bucketFromShardFilePath filePath) as [bucket|]; [|by intros [= <- <-]].
    destruct (truthy_string bucket); by intros [= <- <-].
  - rewrite (Hdir items eq_refl). rewrite <- Hf.
    assert (∀ its (m : M state (list (string * string))),
              (∀ it, it ∈ its → it ∈ children path (files (remote s))) →
              (∀ s0 r0 s0', files (remote s0) = files (remote s) → m s0 = (r0, s0') →
                            r0 ≠ Throw too_deep ∧ files (remote s0') = files (remote s)) →
              ∀ s0 r0 s0',
                files (remote s0) = files (remote s) →
                fold_left
                  (λ acc it,
                     let* files := acc in
                     if i_dir it then walk fuel (i_path it) files
                     else
                       match bucketFromShardFilePath (i_path it) with
                       | Some bucket =>
                           if truthy_string bucket then ret (files ++ [(bucket, i_path it)])
                           else ret files
                       | None => ret files
                       end) its m s0 = (r0, s0') →
                r0 ≠ Throw too_deep ∧ files (remote s0') = files (remote s)) as Hfold.
    { induction its as [|it its IHits]; intros m Hits Hm s0 r0 s0' Hs0; simpl; [by apply Hm|].
      apply IHits; [intros it' Hin; apply Hits, elem_of_cons; by right| |done].
      intros s2 r2 s2' Hs2. unfold bind.
      destruct (m s2) as [[found|e] s3] eqn:Em.
      - destruct (Hm _ _ _ Hs2 Em) as [_ Hs3].
        destruct (i_dir it).
        + intros Hwalk. apply IH in Hwalk as [Hr Hs]; [split; [done|congruence]|].
          rewrite Hs3.
          pose proof (children_paths path (files (remote s)) it
                        ltac:(apply Hits, elem_of_cons; by left)) as [H1 H2].
          lia.
        + destruct (bucketFromShardFilePath (i_path it)) as [bucket|]; [|by intros [= <- <-]].
          destruct (truthy_string bucket); by intros [= <- <-].
      - intros [= <- <-]. by apply (Hm _ _ _ Hs2 Em). }
    rewrite Hf. apply Hfold; [done| |done].
    intros s0 r0 s0' Hs0 [= <- <-]. done.
  - intros [= <- <-]. split; [done|exact Hf].
  - intros [= <- <-]. split; [intros [= ->]; by apply Hne|exact Hf].
Qed.

(** [listShardFiles] returns, or throws the error of a request. *)
Lemma listShardFiles_ends s : (listShardFiles s).1 ≠ Throw too_deep.
Proof.
  unfold listShardFiles, bind, gets.
  destruct (walk (walk_fuel (remote s)) META_ROOT [] s) as [r s'] eqn:E.
  apply walk_ends in E as [Hr _]; [done|].
  unfold walk_fuel, longest. lia.
Qed.

End WalkFacts.
Module StoreFacts.
Import Js Text Json Github MetaIndex StoreProps ClockFacts.

Lemma request_ok {A : Type} (m : M Github.remote A) a s s' :
  request m s = (Ok a, s') → ∃ r', m (remote s) = (Ok a, r') ∧ s' = set_remote r' s.
Proof. apply zoom_ok. Qed.

Lemma request_throw {A : Type} (m : M Github.remote A) e s s' :
  request m s = (Throw e, s') → ∃ r', m (remote s) = (Throw e, r') ∧ s' = set_remote r' s.
Proof.
  unfold request. rewrite zoom_run. destruct (m (remote s)) as [r r'] eqn:E.
  simpl. intros [= -> <-]. by exists r'.
Qed.

Lemma lookup_key_elem {A : Type} k (v : A) l : lookup_key k l = Some v → (k, v) ∈ l.
Proof.
  induction l as [|[k' v'] l IH]; simpl; [done|].
  destruct (decide (k' = k)) as [->|Hne].
  - intros [= ->]. apply elem_of_cons. by left.
  - intros H. apply elem_of_cons. right. by apply IH.
Qed.

Lemma Forall_remove_key {A : Type} (P : string * A → Prop) k l :
  Forall P l → Forall P (remove_key k l).
Proof.
  induction 1 as [|[k' v'] l Hx Hl IH]; simpl; [constructor|].
  destruct (decide (k' = k)); [done|by constructor].
Qed.

Lemma shards_wf_lookup key shard shards :
  shards_wf shards → lookup_key key shards = Some shard → shard_wf shard.
Proof.
  intros Hall Hl. apply lookup_key_elem in Hl.
  unfold shards_wf in Hall. rewrite Forall_forall in Hall. apply (Hall _ Hl).
Qed.

Lemma shards_wf_assign key shard shards :
  shard_wf shard → shards_wf shards → shards_wf (assign key shard shards).
Proof. intros Hs Hl. by apply Forall_assign. Qed.

Lemma shards_wf_remove key shards : shards_wf shards → shards_wf (remove_key key shards).
Proof. apply Forall_remove_key. Qed.

Lemma makeEmptyShard_wf now bucket : doc_wf (makeEmptyShard now bucket).
Proof. apply keyed_nil. Qed.

(** [fetchShardDocument] reads the repository and nothing else. *)
Lemma fetchShardDocument_ok bucket path s d sha s' :
  fetchShardDocument bucket path s = (Ok (d, sha), s') →
  doc_wf d ∧ cache s' = cache s ∧ indices s' = indices s ∧
  files (remote s') = files (remote s) ∧ blob_hash (remote s') = blob_hash (remote s) ∧
  ∀ f, lookup_key path (files (remote s)) = Some f →
       d = normalizeShardDocument (clock s) bucket (decode (f_content f)).
Proof.
  unfold fetchShardDocument. intros H. apply try_catch_ok in H as [H|(e & s1 & H & Hh)].
  - apply bind_ok in H as (data & s1 & Hreq & H).
    apply request_ok in Hreq as (r' & Hget & ->).
    apply getContent_ok in Hget as (Hf & Hb & _ & Hdata).
    apply bind_ok in H as (now & s2 & Hnow & H). apply gets_ok in Hnow as [-> ->].
    destruct data as [p body sh|items]; apply ret_ok in H as [[= -> ->] ->]; simpl.
    + split; [apply normalizeShardDocument_wf|]. repeat split; try done.
      intros f Hl. rewrite Hl in Hdata. by injection Hdata as _ -> _.
    + split; [apply makeEmptyShard_wf|]. repeat split; try done.
      intros f Hl. rewrite Hl in Hdata. done.
  - apply bind_throw in H as [H|(data & s2 & _ & H)].
    + apply request_throw in H as (r' & Hget & ->).
      apply getContent_throw in Hget as (Hf & Hb & _ & He).
      destruct (is404 e) eqn:E404; [|done].
      apply bind_ok in Hh as (now & s2 & Hnow & H). apply gets_ok in Hnow as [-> ->].
      apply ret_ok in H as [[= -> ->] ->]. simpl.
      split; [apply makeEmptyShard_wf|]. repeat split; try done.
      intros f Hl. destruct He as [->|[-> Hnone]]; [done|congruence].
    + apply bind_throw in H as [H|(? & ? & _ & H)]; [done|]. by destruct data.
Qed.

Lemma persistShard_ok key shard message s shard' s' :
  persistShard key shard message s = (Ok shard', s') →
  let doc := persisted (clock s) shard in
  Shard.path shard' = Shard.path shard ∧
  Shard.doc shard' = Some doc ∧
  files (remote s')
  = assign (Shard.path shard)
      (mkFile (JsonText (json_of_doc doc)) (blob_hash (remote s) (JsonText (json_of_doc doc))))
      (files (remote s)) ∧
  blob_hash (remote s') = blob_hash (remote s) ∧
  indices s' = indices s ∧
  (∀ c, cache s = Some c →
        ∃ c', cache s' = Some c' ∧
              Cache.shards c' = assign key shard' (assign key
                (Shard.mk (Shard.bucket shard) (Shard.path shard) (Shard.sha shard)
                   (Shard.count shard) (Shard.updatedAt shard) (Some doc) (Shard.loaded shard))
                (Cache.shards c)) ∧
              Cache.manifest c' = Cache.manifest c ∧
              Cache.manifestSha c' = Cache.manifestSha c).
Proof.
  unfold persistShard. intros H.
  apply bind_ok in H as (now & s1 & Hnow & H). apply gets_ok in Hnow as [-> ->].
  apply bind_ok in H as ([] & s1 & Hst & H). apply modify_ok in Hst. subst s1.
  apply bind_ok in H as (sha & s2 & Hreq & H).
  apply request_ok in Hreq as (r' & Hput & ->).
  apply createOrUpdateFileContents_ok in Hput as (-> & Hfiles & Hhash).
  apply bind_ok in H as ([] & s3 & Hst & H). apply modify_ok in Hst. subst s3.
  apply ret_ok in H as [-> ->].
  assert (persisted (clock s) shard
          = Doc.mk SHARD_VERSION (sanitizeBucket (Shard.bucket shard)) (clock s)
              (Doc.entries match Shard.doc shard with
                           | Some doc => doc
                           | None => makeEmptyShard (clock s) (Shard.bucket shard)
                           end)) as Hdoc.
  { unfold persisted. by destruct (Shard.doc shard). }
  cbn zeta. rewrite Hdoc. simpl. repeat split; try done.
  intros c Hc. rewrite Hc. simpl. eexists. split; [reflexivity|]. simpl. done.
Qed.

(** [persistManifest] writes the manifest file and no other. *)
Lemma persistManifest_ok s u s' :
  persistManifest s = (Ok u, s') →
  indices s' = indices s ∧
  (∀ p, p ≠ META_MANIFEST_PATH →
        lookup_key p (files (remote s')) = lookup_key p (files (remote s))) ∧
  (∀ c, cache s = Some c → ∃ c', cache s' = Some c' ∧ Cache.shards c' = Cache.shards c).
Proof.
  unfold persistManifest. intros H.
  apply bind_ok in H as (now & s1 & Hnow & H). apply gets_ok in Hnow as [-> ->].
  apply bind_ok in H as ([] & s1 & Hst & H). apply modify_ok in Hst. subst s1.
  apply bind_ok in H as (current & s1 & Hc & H). apply gets_ok in Hc as [-> ->].
  simpl in H. destruct (cache s) as [c|] eqn:Ec; simpl in H.
  - apply bind_ok in H as (sha & s2 & Hreq & H).
    unfold writeManifest in Hreq. apply request_ok in Hreq as (r' & Hput & ->).
    apply createOrUpdateFileContents_ok in Hput as (-> & Hfiles & Hhash).
    apply modify_ok in H. subst s'. simpl. split; [done|]. split.
    + intros p Hp. rewrite Hfiles. simpl. by rewrite lookup_key_assign_ne.
    + intros c0 [= <-]. eexists. split; [reflexivity|]. done.
  - apply ret_ok in H as [_ ->]. simpl. split; [done|]. split; [done|].
    intros c0 Hc0. simpl in *. congruence.
Qed.

(** What [buildManifestFromExistingShards] returns is keyed. *)
Lemma buildManifestFromExistingShards_ok s manifest shards s' :
  buildManifestFromExistingShards s = (Ok (manifest, shards), s') →
  shards_wf shards ∧ cache s' = cache s.
Proof.
  unfold buildManifestFromExistingShards. intros H.
  apply bind_ok in H as (files & s1 & Hlist & H).
  assert (cache s1 = cache s) as Hc1.
  { pose proof (listShardFiles_same_cache s) as Hs. by rewrite Hlist in Hs. }
  apply bind_ok in H as (now & s2 & Hnow & H). apply gets_ok in Hnow as [-> ->].
  rewrite <- Hc1.
  refine (fold_left_ok _
            (λ b a, let '(fileBucket, filePath) := a in let '(manifest, shards) := b in _)
            (λ b s2, shards_wf b.2 ∧ cache s2 = cache s1) _ _ files _ s1 (manifest, shards) s' H _).
  - intros acc [fb fp]. reflexivity.
  - intros [m0 sh0] [fb fp] s0 [m1 sh1] s3 [Hwf Hc] Hstep. simpl in *.
    apply bind_ok in Hstep as ([doc sha] & s4 & Hfetch & Hstep).
    apply fetchShardDocument_ok in Hfetch as (Hdoc & Hc4 & _).
    apply bind_ok in Hstep as ([] & s5 & Hupd & Hstep). apply modify_ok in Hupd. subst s5.
    apply ret_ok in Hstep as [[= -> ->] ->]. simpl. split; [|congruence].
    apply shards_wf_assign; [|done]. intros d [= <-]. done.
  - intros [m0 sh0] s0 [= <- <- <-]. simpl. split; [constructor|done].
Qed.

Lemma cache_wf_fresh s : cache s = None → cache_wf s.
Proof. intros E c. by rewrite E. Qed.

Lemma manifest_rows_wf (rows : list (string * Info.t)) acc :
  shards_wf acc →
  shards_wf (fold_left
               (λ shards '(bucket, info),
                  assign bucket
                    (Shard.mk bucket (Info.path info) (Info.sha info)
                       (Info.count info) (Info.updatedAt info) None false)
                    shards) rows acc).
Proof.
  revert acc. induction rows as [|[b i] rows IH]; intros acc Hacc; simpl; [done|].
  apply IH. apply shards_wf_assign; [|done]. by intros d.
Qed.

Lemma existing_shards_wf (existing : list (string * Shard.t)) acc :
  shards_wf existing → shards_wf acc →
  shards_wf (fold_left (λ shards '(_, shard), assign (Shard.bucket shard) shard shards)
               existing acc).
Proof.
  intros Hex. revert acc.
  induction Hex as [|[k sh] existing Hsh Hex IH]; intros acc Hacc; simpl; [done|].
  apply IH. by apply shards_wf_assign.
Qed.

Lemma ensureBaseState_ok s c s1 :
  cache_wf s → ensureBaseState s = (Ok c, s1) →
  cache s1 = Some c ∧ shards_wf (Cache.shards c).
Proof.
  intros Hwf. unfold ensureBaseState. intros H.
  apply bind_ok in H as (current & s0 & Hc & H). apply gets_ok in Hc as [-> ->].
  destruct (cache s) as [c0|] eqn:Ec.
  - apply ret_ok in H as [-> ->]. split; [done|]. by apply Hwf.
  - apply bind_ok in H as ([] & s2 & _ & H).
    apply bind_ok in H as (manifestResult & s3 & _ & H).
    apply bind_ok in H as ([[manifest manifestSha] shards] & s4 & Hm & H).
    apply bind_ok in H as (now & s5 & Hnow & H). apply gets_ok in Hnow as [-> ->].
    apply bind_ok in H as ([] & s6 & Hset & H). apply modify_ok in Hset. subst s6.
    apply ret_ok in H as [-> ->]. split; [done|].
    cbn [Cache.shards].
    destruct manifestResult as [[fetched sha]|].
    + apply bind_ok in Hm as (now & s5 & Hnow & Hm). apply gets_ok in Hnow as [-> ->].
      apply ret_ok in Hm as [[= _ _ Hs] _]. subst shards.
      apply manifest_rows_wf. constructor.
    + apply bind_ok in Hm as ([manifest0 existing] & s5 & Hbuild & Hm).
      apply buildManifestFromExistingShards_ok in Hbuild as [Hex _].
      apply bind_ok in Hm as (sha & s6 & _ & Hm).
      apply ret_ok in Hm as [[= _ _ Hs] _]. subst shards.
      apply existing_shards_wf; [done|constructor].
Qed.

Lemma ensureShardLoaded_ok bucket s key shard s2 :
  cache_wf s → ensureShardLoaded bucket s = (Ok (key, shard), s2) →
  key = sanitizeBucket bucket ∧
  (∃ d, Shard.doc shard = Some d ∧ doc_wf d) ∧
  ∃ c2, cache s2 = Some c2 ∧ lookup_key key (Cache.shards c2) = Some shard
        ∧ shards_wf (Cache.shards c2).
Proof.
  intros Hwf. unfold ensureShardLoaded. intros H.
  apply bind_ok in H as (c & s1 & Hbase & H).
  apply (ensureBaseState_ok _ _ _ Hwf) in Hbase as [Hc1 Hwf1].
  apply bind_ok in H as (shard0 & s3 & Hfind & H).
  assert (∃ c3, cache s3 = Some c3 ∧ lookup_key (sanitizeBucket bucket) (Cache.shards c3) = Some shard0
                ∧ shards_wf (Cache.shards c3)) as (c3 & Hc3 & Hl3 & Hwf3).
  { destruct (lookup_key (sanitizeBucket bucket) (Cache.shards c)) as [sh|] eqn:El.
    - apply ret_ok in Hfind as [-> ->]. by exists c.
    - apply bind_ok in Hfind as ([] & s4 & Hst & Hfind). apply modify_ok in Hst. subst s4.
      apply ret_ok in Hfind as [-> ->]. simpl. rewrite Hc1. simpl. eexists. split; [done|].
      simpl. split; [by rewrite lookup_key_assign|].
      apply shards_wf_assign; [|done]. by intros d. }
  destruct (Shard.loaded shard0 && bool_decide (is_Some (Shard.doc shard0))) eqn:Eloaded.
  - apply ret_ok in H as [[= -> ->] ->]. split; [done|].
    apply andb_true_iff in Eloaded as [_ Hdoc]. apply bool_decide_eq_true in Hdoc as [d Hd].
    split; [|by exists c3]. exists d. split; [done|].
    by apply (shards_wf_lookup _ _ _ Hwf3 Hl3).
  - apply bind_ok in H as ([doc sha] & s4 & Hfetch & H).
    apply fetchShardDocument_ok in Hfetch as (Hdoc & Hc4 & _).
    apply bind_ok in H as ([] & s5 & Hst & H). apply modify_ok in Hst. subst s5.
    apply bind_ok in H as ([] & s6 & Hix & H). apply modify_ok in Hix. subst s6.
    apply bind_ok in H as ([] & s7 & Hmk & H). apply modify_ok in Hmk. subst s7.
    apply ret_ok in H as [[= -> ->] ->]. split; [done|]. split; [by exists doc|].
    simpl. rewrite Hc4, Hc3. simpl. eexists. split; [done|]. simpl.
    split; [by rewrite lookup_key_assign|].
    apply shards_wf_assign; [|done]. by intros d [= <-].
Qed.

Lemma upsert_persist_ok key bucket shard message c s s' :
  cache s = Some c →
  (store_shard key shard ;;
   let* shard := persistShard key shard message in
   match Shard.doc shard with
   | Some doc => update_indices (ingestShardDocument doc)
   | None => ret tt
   end ;;
   markManifestEntry bucket (Some shard) ;;
   persistManifest) s = (Ok tt, s') →
  ∃ c' shard',
    cache s' = Some c' ∧
    lookup_key key (Cache.shards c') = Some shard' ∧
    Shard.path shard' = Shard.path shard ∧
    (Shard.path shard ≠ META_MANIFEST_PATH →
     ∃ h, lookup_key (Shard.path shard) (files (remote s'))
          = Some (mkFile (JsonText (json_of_doc (persisted (clock s) shard))) h)).
Proof.
  intros Hc H.
  apply bind_ok in H as ([] & s3 & Hst & H). apply modify_ok in Hst. subst s3.
  apply bind_ok in H as (shard' & s4 & Hpersist & H).
  apply persistShard_ok in Hpersist as (Hpath & Hdoc' & Hfiles & Hhash & Hix & Hcache).
  destruct (Hcache (with_shards (assign key shard (Cache.shards c)) c))
    as (c4 & Hc4 & Hsh4 & _).
  { simpl. by rewrite Hc. }
  clear Hcache. rewrite Hdoc' in H.
  apply bind_ok in H as ([] & s5 & Hupd & H). apply modify_ok in Hupd. subst s5.
  apply bind_ok in H as ([] & s6 & Hmk & H). apply modify_ok in Hmk. subst s6.
  apply persistManifest_ok in H as (_ & Hother & Hkeep).
  destruct (Hkeep (with_manifest
                     (with_manifest_shards
                        (assign bucket
                           (Info.mk (Shard.path shard') (Shard.count shard')
                              (Shard.updatedAt shard') (Shard.sha shard'))
                           (Manifest.shards (Cache.manifest c4)))
                        (Cache.manifest c4)) c4)) as (c' & Hc' & Hsh').
  { simpl. by rewrite Hc4. }
  exists c', shard'. split; [done|]. split.
  { rewrite Hsh'. simpl. rewrite Hsh4. by rewrite lookup_key_assign. }
  split; [done|]. intros Hnot. eexists.
  rewrite (Hother _ Hnot). simpl. rewrite Hfiles. simpl. apply lookup_key_assign.
Qed.

End StoreFacts.

Section UpsertFacts.
Import Js Text Json Github MetaIndex StoreProps ClockFacts StoreFacts Samples.



(** An entry whose preview path is [undefined] reads back with the preview
    path [null]. *)
Lemma upsertMetaEntry_undefined_reads_back_null :
  ∃ s' doc sha s'',
    upsertMetaEntry previewless_entry empty_repository = (Ok tt, s') ∧
    fetchShardDocument (sanitizeBucket (resolveBucket previewless_entry))
      (getShardPath (sanitizeBucket (resolveBucket previewless_entry))) s'
    = (Ok (doc, sha), s'') ∧
    (previewRepoPath ∘ entry) <$> lookup_key (fingerprint previewless_entry) (Doc.entries doc)
    = Some Null.
Proof.
  do 4 eexists. split; [vm_compute; reflexivity|].
  split; vm_compute; reflexivity.
Qed.


(** The fetch of the witness returns: the entry is read back as it was
    written. *)
Lemma sample_entry_round_trip :
  ∃ s' doc sha s'',
    upsertMetaEntry sample_entry empty_repository = (Ok tt, s') ∧
    fetchShardDocument (sanitizeBucket (resolveBucket sample_entry))
      (getShardPath (sanitizeBucket (resolveBucket sample_entry))) s'
    = (Ok (doc, sha), s'') ∧
    lookup_key (fingerprint sample_entry) (Doc.entries doc)
    = Some (mkShardEntry sample_entry 100).
Proof.
  do 4 eexists. split; [vm_compute; reflexivity|].
  split; vm_compute; reflexivity.
Qed.

End UpsertFacts.

(** ** Sharded metadata store: the removal of an entry *)

Module RemovalFacts.
Import Js Text Json Github MetaIndex TextProps StoreProps ClockFacts StoreFacts.

(** *** Bucket names *)

Lemma bucket_char_ok c : bucket_ok (bucket_char c) = true.
Proof.
  unfold bucket_char. change (is_digit c || is_lower c || bool_decide (c = "-"%char))
    with (bucket_ok c).
  destruct (bucket_ok c) eqn:E; [exact E|]. vm_compute. reflexivity.
Qed.

Lemma bucket_ok_fixed c :
  bucket_ok c = true → is_space c = false ∧ lower_char c = c ∧ bucket_char c = c.
Proof.
  destruct c as [[] [] [] [] [] [] [] []]; vm_compute; intros H;
    solve [discriminate H | repeat split; reflexivity].
Qed.

Lemma map_chars_fixed (p : ascii → bool) (f : ascii → ascii) s :
  (∀ c, p c = true → f c = c) → all_chars p s = true → map_chars f s = s.
Proof.
  intros Hf. induction s as [|c s IH]; simpl; [done|].
  intros [Hc Hs]%andb_true_iff. by rewrite (Hf c Hc), IH.
Qed.

Lemma trimStart_fixed s : all_chars bucket_ok s = true → trimStart s = s.
Proof.
  destruct s as [|c s]; simpl; [done|]. intros [Hc _]%andb_true_iff.
  by destruct (bucket_ok_fixed c Hc) as (-> & _).
Qed.

Lemma trimEnd_fixed s : all_chars bucket_ok s = true → trimEnd s = s.
Proof.
  induction s as [|c s IH]; simpl; [done|]. intros [Hc Hs]%andb_true_iff.
  rewrite (IH Hs). destruct s; [|done].
  by destruct (bucket_ok_fixed c Hc) as (-> & _).
Qed.

Lemma map_chars_bucket_ok s : all_chars bucket_ok (map_chars bucket_char s) = true.
Proof. induction s as [|c s IH]; simpl; [done|]. by rewrite bucket_char_ok, IH. Qed.

Lemma sanitizeBucket_ok bucket :
  all_chars bucket_ok (sanitizeBucket bucket) = true ∧
  truthy_string (sanitizeBucket bucket) = true.
Proof.
  unfold sanitizeBucket, or_string.
  destruct (truthy_string (map_chars bucket_char (toLowerCase (trim bucket)))) eqn:E.
  - split; [apply map_chars_bucket_ok|exact E].
  - split; vm_compute; reflexivity.
Qed.

(** [sanitizeBucket] leaves a sanitized bucket name as it is. *)
Lemma sanitizeBucket_idem bucket : sanitizeBucket (sanitizeBucket bucket) = sanitizeBucket bucket.
Proof.
  destruct (sanitizeBucket_ok bucket) as [Hok Hne].
  generalize dependent (sanitizeBucket bucket). intros b Hok Hne.
  unfold sanitizeBucket, trim. rewrite (trimStart_fixed b Hok), (trimEnd_fixed b Hok).
  unfold toLowerCase.
  rewrite (map_chars_fixed bucket_ok lower_char b) by (done || intros c Hc; by apply bucket_ok_fixed).
  rewrite (map_chars_fixed bucket_ok bucket_char b) by (done || intros c Hc; by apply bucket_ok_fixed).
  unfold or_string. by rewrite Hne.
Qed.

(** *** The index by fingerprint *)

Lemma removeEntryFromCache_index fp ix :
  metaByFingerprint (removeEntryFromCache fp ix) = remove_key fp (metaByFingerprint ix).
Proof.
  unfold removeEntryFromCache.
  by destruct (lookup_key fp (fingerprintToPaths ix)).
Qed.

Lemma removeEntryFromCache_unindexed fp ix : unindexed fp (removeEntryFromCache fp ix).
Proof. unfold unindexed. rewrite removeEntryFromCache_index. apply lookup_key_remove. Qed.

Lemma removeEntryFromCache_keeps_unindexed fp fp' ix :
  unindexed fp ix → unindexed fp (removeEntryFromCache fp' ix).
Proof.
  unfold unindexed. rewrite removeEntryFromCache_index. intros H.
  destruct (decide (fp' = fp)) as [->|Hne]; [apply lookup_key_remove|].
  by rewrite lookup_key_remove_ne.
Qed.

Lemma evictBucketEntries_keeps_unindexed fp bucket ix :
  unindexed fp ix → unindexed fp (evictBucketEntries bucket ix).
Proof.
  unfold evictBucketEntries. destruct (lookup_key bucket (bucketToFingerprints ix)) as [fps|]; [|done].
  revert ix. induction fps as [|fp' fps IH]; intros ix H; simpl; [done|].
  apply IH. by apply removeEntryFromCache_keeps_unindexed.
Qed.

Lemma registerPaths_index fp paths ix :
  metaByFingerprint (registerPaths fp paths ix) = metaByFingerprint ix.
Proof.
  unfold registerPaths.
  by destruct (fold_left _ paths (pathToFingerprint ix, [])) as [p2f set].
Qed.

Lemma ingestShardDocument_keeps_unindexed fp doc ix :
  Forall (λ ke, fingerprint (entry ke.2) ≠ fp) (Doc.entries doc) →
  unindexed fp ix → unindexed fp (ingestShardDocument doc ix).
Proof.
  intros Hdoc Hix. unfold ingestShardDocument.
  apply (evictBucketEntries_keeps_unindexed _ (Doc.bucket doc)) in Hix.
  generalize dependent (evictBucketEntries (Doc.bucket doc) ix). clear ix. intros ix Hix.
  assert (∀ acc,
            unindexed fp acc.1 →
            unindexed fp
              (fold_left
                 (λ '(ix, bucketSet) '(_, e),
                    let fp := fingerprint (entry e) in
                    if truthy_string fp then
                      let ix := mkIndices (assign fp e (metaByFingerprint ix)) (pathToFingerprint ix)
                                  (assign fp (Doc.bucket doc) (fingerprintToBucket ix))
                                  (bucketToFingerprints ix) (fingerprintToPaths ix) in
                      (registerPaths fp [Val (repoPath (entry e)); previewRepoPath (entry e)] ix,
                       set_add fp bucketSet)
                    else (ix, bucketSet))
                 (Doc.entries doc) acc).1) as Hfold.
  { induction Hdoc as [|[k e] entries Hke Hdoc IH]; intros [ix0 set0] Hacc; simpl; [done|].
    apply IH. simpl in Hke. destruct (truthy_string (fingerprint (entry e))); [|done].
    simpl. unfold unindexed. rewrite registerPaths_index. simpl.
    by rewrite lookup_key_assign_ne. }
  specialize (Hfold (ix, []) Hix).
  destruct (fold_left _ (Doc.entries doc) (ix, [])) as [ix1 set1]. done.
Qed.

Lemma keyed_remove fp (entries : list (string * MetaShardEntry)) :
  keyed entries →
  keyed (remove_key fp entries) ∧
  Forall (λ ke, fingerprint (entry ke.2) ≠ fp) (remove_key fp entries).
Proof.
  intros [Hnd Hall]. induction entries as [|[k e] entries IH]; simpl.
  - split; [apply keyed_nil|constructor].
  - apply NoDup_cons in Hnd as [Hk Hnd]. apply Forall_cons in Hall as [He Hall].
    destruct (IH Hnd Hall) as [[Hnd' Hall'] Hne'].
    destruct (decide (k = fp)) as [->|Hne]; [done|].
    split; [split|].
    + simpl. apply NoDup_cons. split; [|done]. intros Hin. apply Hk.
      clear -Hin. induction entries as [|[k' e'] entries IH]; simpl in *; [done|].
      destruct (decide (k' = fp)); [apply elem_of_cons; right; by apply IH|].
      simpl in Hin. apply elem_of_cons in Hin as [->|Hin]; apply elem_of_cons; [by left|].
      right. by apply IH.
    + by constructor.
    + constructor; [|done]. simpl in *. congruence.
Qed.

(** *** The steps of [removeMetaEntries] *)

Lemma ensureBaseState_cached s c : cache s = Some c → ensureBaseState s = (Ok c, s).
Proof. intros H. unfold ensureBaseState, bind, gets. by rewrite H. Qed.

Lemma ensureShardLoaded_loaded bucket s c shard d :
  cache s = Some c → lookup_key (sanitizeBucket bucket) (Cache.shards c) = Some shard →
  Shard.loaded shard = true → Shard.doc shard = Some d →
  ensureShardLoaded bucket s = (Ok (sanitizeBucket bucket, shard), s).
Proof.
  intros Hc Hl Hloaded Hdoc. unfold ensureShardLoaded, bind.
  rewrite (ensureBaseState_cached s c Hc), Hl. unfold ret. rewrite Hloaded, Hdoc.
  rewrite bool_decide_true by done. done.
Qed.

Lemma deleteFile__ok path message sha r (u : unit) r' :
  deleteFile_ path message sha r = (Ok u, r') →
  files r' = remove_key path (files r) ∧ blob_hash r' = blob_hash r.
Proof.
  unfold deleteFile_.
  match goal with |- request_ ?f _ = _ → _ =>
    destruct (request_run f (log_request (Delete path message sha) r))
      as [->|(r0 & Hf & Hh & Hi & ->)] end; [done|].
  change (files (log_request _ r)) with (files r) in Hf.
  change (blob_hash (log_request _ r)) with (blob_hash r) in Hh.
  cbv beta. rewrite Hf.
  destruct (lookup_key path (files r)) as [f|]; [|done].
  destruct (decide _); [|done]. intros [= <- <-]. simpl. by rewrite Hh.
Qed.

Lemma deleteShardFile_ok shard sha s u s' :
  Shard.sha shard = Some sha → truthy_string sha = true →
  deleteShardFile shard s = (Ok u, s') →
  files (remote s') = remove_key (Shard.path shard) (files (remote s)) ∧
  cache s' = cache s ∧ indices s' = indices s.
Proof.
  intros Hsha Ht. unfold deleteShardFile. rewrite Hsha, Ht. intros H.
  apply request_ok in H as (r' & Hdel & ->).
  apply deleteFile__ok in Hdel as [Hf _]. done.
Qed.

(** Fetching the document of a shard whose file is not in the repository
    gives an empty document. *)
Lemma fetchShardDocument_missing bucket path s d sha s' :
  lookup_key path (files (remote s)) = None →
  fetchShardDocument bucket path s = (Ok (d, sha), s') →
  Doc.entries d = [].
Proof.
  intros Hnone. unfold fetchShardDocument. intros H.
  apply try_catch_ok in H as [H|(e & s1 & H & Hh)].
  - apply bind_ok in H as (data & s1 & Hreq & H).
    apply request_ok in Hreq as (r' & Hget & ->).
    apply getContent_ok in Hget as (_ & _ & _ & Hdata). rewrite Hnone in Hdata.
    destruct Hdata as [items ->].
    apply bind_ok in H as (now & s2 & Hnow & H). apply gets_ok in Hnow as [-> ->].
    by apply ret_ok in H as [[= -> _] _].
  - destruct (is404 e); [|done].
    apply bind_ok in Hh as (now & s2 & Hnow & Hh). apply gets_ok in Hnow as [-> ->].
    by apply ret_ok in Hh as [[= -> _] _].
Qed.

(** Reading back a document that does not hold the fingerprint. *)
Lemma normalizeShardDocument_json_absent now bucket (d : Doc.t) fp :
  doc_wf d → lookup_key fp (Doc.entries d) = None →
  lookup_key fp (Doc.entries (normalizeShardDocument now bucket (Some (json_of_doc d)))) = None.
Proof.
  intros Hwf Hl. unfold normalizeShardDocument. cbn [Doc.entries].
  assert (entries_of (field "entries" (Some (json_of_doc d)))
          = Some (map (λ '(k, e), (k, json_of_entry e)) (Doc.entries d))) as -> by reflexivity.
  by rewrite (readBack_entries now fp _ Hwf), Hl.
Qed.

(** The removal of a resident entry: the fingerprint leaves the index,
    and a fresh fetch of the document of its shard does not find it. *)
Lemma removeMetaEntries_resident fp s shard s' :
  resident fp s shard →
  removeMetaEntries [fp] s = (Ok tt, s') →
  unindexed fp (indices s') ∧
  ∀ d sha s'',
    fetchShardDocument (shardKey (indices s) fp) (Shard.path shard) s' = (Ok (d, sha), s'') →
    lookup_key fp (Doc.entries d) = None.
Proof.
  intros [(c & Hc & Hl) Hloaded (doc & Hdoc & Hwf & [e He]) (sha0 & Hsha & Hsha') Hpath].
  unfold removeMetaEntries. intros H.
  apply bind_ok in H as (c0 & s1 & Hbase & H).
  rewrite (ensureBaseState_cached s c Hc) in Hbase. injection Hbase as <- <-.
  apply bind_ok in H as (ix & s1 & Hix & H). apply gets_ok in Hix as [-> ->].
  change (groupByBucket (indices s) [fp]) with [(shardKey (indices s) fp, [fp])] in H.
  set (key := shardKey (indices s) fp) in *.
  assert (sanitizeBucket key = key) as Hkey by apply sanitizeBucket_idem.
  apply bind_ok in H as (dirty & s2 & Hgroups & H).
  cbn [removeGroups] in Hgroups.
  apply bind_ok in Hgroups as (dirty1 & s3 & Hgroup & Hret). apply ret_ok in Hret as [-> ->].
  unfold removeGroup in Hgroup.
  apply bind_ok in Hgroup as ([k sh] & s4 & Hload & Hgroup).
  rewrite (ensureShardLoaded_loaded key s c shard doc) in Hload by (by rewrite ?Hkey).
  rewrite Hkey in Hload. injection Hload as <- <- <-.
  rewrite Hdoc in Hgroup.
  apply bind_ok in Hgroup as (ix & s4 & Hix & Hgroup). apply gets_ok in Hix as [-> ->].
  cbn [removeFromDoc] in Hgroup. rewrite He in Hgroup.
  apply bind_ok in Hgroup as ([] & s4 & Hst & Hgroup). apply modify_ok in Hst. subst s4.
  apply bind_ok in Hgroup as ([] & s4 & Hst & Hgroup). apply modify_ok in Hst. subst s4.
  cbn [negb] in Hgroup.
  apply bind_ok in Hgroup as (now & s4 & Hnow & Hgroup). apply gets_ok in Hnow as [-> ->].
  apply bind_ok in Hgroup as ([] & s4 & Hst & Hgroup). apply modify_ok in Hst. subst s4.
  destruct (keyed_remove fp (Doc.entries doc) Hwf) as [Hwf' Hne].
  cbn [Shard.bucket Shard.path Shard.sha Shard.count Shard.loaded Shard.doc Shard.updatedAt
       Doc.version Doc.bucket Doc.entries Doc.generatedAt clock set_indices set_cache] in Hgroup.
  set (doc2 := Doc.mk (Doc.version doc) (Doc.bucket doc) (clock s)
                 (remove_key fp (Doc.entries doc))) in Hgroup.
  set (shard2 := Shard.mk (Shard.bucket shard) (Shard.path shard) (Shard.sha shard)
                   (entryCount doc2) (clock s) (Some doc2) (Shard.loaded shard)) in Hgroup.
  match type of Hgroup with _ ?st = _ => remember st as s4 eqn:Es4 end.
  assert (indices s4 = removeEntryFromCache fp (indices s)) as Hix4 by (by subst s4).
  assert (remote s4 = remote s) as Hr4 by (by subst s4).
  assert (clock s4 = clock s) as Hk4 by (by subst s4).
  clear Es4.
  destruct (entryCount doc2 =? 0).
  - apply bind_ok in Hgroup as ([] & s5 & Hdel & Hgroup).
    apply (deleteShardFile_ok shard2 sha0) in Hdel as (Hf5 & _ & Hix5); [|done..].
    apply bind_ok in Hgroup as ([] & s6 & Hst & Hgroup). apply modify_ok in Hst. subst s6.
    apply bind_ok in Hgroup as ([] & s6 & Hst & Hgroup). apply modify_ok in Hst. subst s6.
    apply bind_ok in Hgroup as ([] & s6 & Hst & Hgroup). apply modify_ok in Hst. subst s6.
    apply ret_ok in Hgroup as [-> ->]. cbn [orb] in H.
    apply persistManifest_ok in H as (Hix' & Hother & _). split.
    + unfold unindexed. rewrite Hix'. simpl. rewrite Hix5, Hix4.
      apply evictBucketEntries_keeps_unindexed, removeEntryFromCache_unindexed.
    + intros d sha s'' Hfetch.
      apply fetchShardDocument_missing in Hfetch; [by rewrite Hfetch|].
      rewrite (Hother _ Hpath). simpl. rewrite Hf5. apply lookup_key_remove.
  - apply bind_ok in Hgroup as (shard3 & s5 & Hpersist & Hgroup).
    apply persistShard_ok in Hpersist as (Hpath3 & Hdoc3 & Hf5 & _ & Hix5 & _).
    rewrite Hdoc3 in Hgroup.
    apply bind_ok in Hgroup as ([] & s6 & Hst & Hgroup). apply modify_ok in Hst. subst s6.
    apply bind_ok in Hgroup as ([] & s6 & Hst & Hgroup). apply modify_ok in Hst. subst s6.
    apply ret_ok in Hgroup as [-> ->]. cbn [orb] in H.
    apply persistManifest_ok in H as (Hix' & Hother & _). split.
    + unfold unindexed. rewrite Hix'. simpl. rewrite Hix5, Hix4.
      apply ingestShardDocument_keeps_unindexed; [exact Hne|].
      apply removeEntryFromCache_unindexed.
    + intros d sha s'' Hfetch.
      apply fetchShardDocument_ok in Hfetch as (_ & _ & _ & _ & _ & Hread).
      rewrite (Hread _ ltac:(rewrite (Hother _ Hpath); simpl; rewrite Hf5;
                             apply lookup_key_assign)).
      cbn [decode f_content].
      apply normalizeShardDocument_json_absent; [exact Hwf'|].
      apply lookup_key_remove.
Qed.

End RemovalFacts.
(** ** Local content cache: eviction *)

Section CloudCacheFacts.
Import Js CloudCache CacheProps Samples.

Lemma statsOf_cons e l :
  statsOf (e :: l) = match readManifest e with
                     | Some m => statOf e m :: statsOf l
                     | None => statsOf l
                     end.
Proof. unfold statsOf. cbn. by destruct (readManifest e). Qed.

Lemma cachedSize_sumSizes listing : cachedSize listing = sumSizes (statsOf listing).
Proof.
  induction listing as [|e l IH]; [done|].
  rewrite statsOf_cons. simpl. destruct (readManifest e); simpl; by rewrite IH.
Qed.

Lemma fileSize_nonneg e f : 0 ≤ fileSize e f.
Proof. unfold fileSize. destruct (lookup_key _ _); lia. Qed.

Lemma entrySize_nonneg e m : 0 ≤ entrySize e m.
Proof.
  unfold entrySize.
  assert (∀ x : option CachedFile,
            0 ≤ match x with Some p => fileSize e (file p) | None => 0 end) as H.
  { intros [p|]; [apply fileSize_nonneg|lia]. }
  pose proof (H (preview m)). pose proof (H (original m)). lia.
Qed.

Lemma statsOf_nonneg listing : Forall (λ s, 0 ≤ size s) (statsOf listing).
Proof.
  induction listing as [|e l IH]; [constructor|].
  rewrite statsOf_cons. destruct (readManifest e); [|done].
  constructor; [apply entrySize_nonneg|done].
Qed.

Lemma sumSizes_cons s l : sumSizes (s :: l) = size s + sumSizes l.
Proof. reflexivity. Qed.

Lemma sumSizes_app a b : sumSizes (a ++ b) = sumSizes a + sumSizes b.
Proof. induction a as [|s a IH]; simpl; [done|]. rewrite IH. lia. Qed.

Lemma sumSizes_perm l1 l2 : l1 ≡ₚ l2 → sumSizes l1 = sumSizes l2.
Proof.
  induction 1 as [|x l1 l2 _ IH|x y l|l1 l2 l3 _ IH12 _ IH23]; simpl; lia.
Qed.

Lemma sumSizes_mono l1 l2 :
  l1 ⊆+ l2 → Forall (λ s, 0 ≤ size s) l2 → sumSizes l1 ≤ sumSizes l2.
Proof.
  induction 1 as [|x l1 l2 _ IH|x y l|x l1 l2 _ IH|l1 l2 l3 H12 IH12 H23 IH23]; intros Hall; simpl.
  - done.
  - apply Forall_cons in Hall as [_ Hall]. specialize (IH Hall). lia.
  - lia.
  - apply Forall_cons in Hall as [Hx Hall]. specialize (IH Hall). lia.
  - assert (Forall (λ s, 0 ≤ size s) l2) as Hall2.
    { apply Forall_forall. intros s Hs. rewrite Forall_forall in Hall.
      apply Hall. by eapply elem_of_submseteq. }
    specialize (IH12 Hall2). specialize (IH23 Hall). lia.
Qed.

Lemma filter_submseteq (f : Stat → bool) l1 l2 :
  l1 ⊆+ l2 → List.filter f l1 ⊆+ List.filter f l2.
Proof.
  induction 1 as [|x l1 l2 _ IH|x y l|x l1 l2 _ IH|l1 l2 l3 _ IH12 _ IH23]; simpl.
  - done.
  - destruct (f x); [by constructor|done].
  - destruct (f x), (f y); try done. constructor.
  - destruct (f x); [by constructor|done].
  - by etrans.
Qed.

Lemma filter_sublist_self (f : Stat → bool) l : List.filter f l ⊆+ l.
Proof.
  induction l as [|x l IH]; simpl; [done|].
  destruct (f x); by constructor.
Qed.

Lemma statsOf_deleteDir d listing :
  statsOf (deleteDir d listing) = List.filter (keepStat d) (statsOf listing).
Proof.
  unfold deleteDir. induction listing as [|e l IH]; [done|]. simpl.
  destruct (decide (name e = d)) as [E|E]; rewrite !statsOf_cons.
  - destruct (readManifest e); simpl; [|done].
    unfold keepStat at 1. simpl. by rewrite decide_True.
  - destruct (readManifest e); simpl; [|done].
    unfold keepStat at 1. simpl. rewrite decide_False by done. by rewrite IH.
Qed.

Lemma statsOf_deleteDir_sub d listing : statsOf (deleteDir d listing) ⊆+ statsOf listing.
Proof. rewrite statsOf_deleteDir. apply filter_sublist_self. Qed.

(** What the first loop computes. *)
Lemma scan_spec now items : ∀ listing totalSize stats,
  let '(listing', totalSize', stats') := scan now items listing totalSize stats in
  statsOf listing' ⊆+ statsOf listing ∧
  totalSize' = totalSize + sumSizes (statsOf items) ∧
  stats' = (stats ++ statsOf items)%list.
Proof.
  induction items as [|item rest IH]; intros listing totalSize stats; cbn [scan].
  - change (statsOf []) with (@nil Stat). split; [done|]. split; [cbn; lia|by rewrite app_nil_r].
  - rewrite statsOf_cons. destruct (readManifest item) as [m|].
    + destruct (agedOut now m).
      * specialize (IH (removeEntry (statOf item m) listing) (totalSize + size (statOf item m))
                       (stats ++ [statOf item m])%list).
        destruct (scan _ _ _ _ _) as [[l' t'] s']. destruct IH as (H1 & H2 & H3).
        split; [|split].
        -- etrans; [exact H1|]. apply statsOf_deleteDir_sub.
        -- rewrite sumSizes_cons. lia.
        -- by rewrite H3, <- app_assoc.
      * specialize (IH listing (totalSize + size (statOf item m)) (stats ++ [statOf item m])%list).
        destruct (scan _ _ _ _ _) as [[l' t'] s']. destruct IH as (H1 & H2 & H3).
        split; [done|]. split; [rewrite sumSizes_cons; lia|by rewrite H3, <- app_assoc].
    + specialize (IH (deleteDir (name item) listing) totalSize stats).
      destruct (scan _ _ _ _ _) as [[l' t'] s']. destruct IH as (H1 & H2 & H3).
      split; [|done]. etrans; [exact H1|]. apply statsOf_deleteDir_sub.
Qed.

Lemma insertStat_perm s sorted : insertStat s sorted ≡ₚ s :: sorted.
Proof.
  induction sorted as [|s' rest IH]; simpl; [done|].
  destruct (Z.ltb _ _); [done|]. rewrite IH. apply Permutation_swap.
Qed.

Lemma sortStats_perm stats : sortStats stats ≡ₚ stats.
Proof.
  unfold sortStats.
  assert (∀ acc, fold_left (λ sorted s, insertStat s sorted) stats acc ≡ₚ (acc ++ stats)%list) as H.
  { induction stats as [|s rest IH]; intros acc; simpl.
    - by rewrite app_nil_r.
    - rewrite IH, insertStat_perm. by rewrite <- Permutation_middle. }
  apply (H []).
Qed.

(** The second loop stops below the target or with nothing left. *)
Lemma evict_bound sorted : ∀ currentSize listing,
  statsOf listing ⊆+ sorted →
  Forall (λ s, 0 ≤ size s) sorted →
  currentSize = sumSizes sorted →
  cachedSize (evict sorted currentSize listing) ≤ PRUNE_TARGET_BYTES.
Proof.
  induction sorted as [|stat rest IH]; intros cur listing Hsub Hall Hcur; simpl.
  - apply submseteq_nil_r in Hsub. rewrite cachedSize_sumSizes, Hsub. done.
  - destruct (Z.leb cur PRUNE_TARGET_BYTES) eqn:Hle.
    + apply Z.leb_le in Hle. rewrite cachedSize_sumSizes.
      pose proof (sumSizes_mono _ _ Hsub Hall). simpl in *. lia.
    + apply Forall_cons in Hall as [Hs Hall]. apply IH; [|done|simpl in Hcur; lia].
      unfold removeEntry. rewrite statsOf_deleteDir.
      apply (filter_submseteq (keepStat (dir stat))) in Hsub. simpl in Hsub.
      unfold keepStat at 2 in Hsub. rewrite decide_True in Hsub by done.
      etrans; [exact Hsub|]. apply filter_sublist_self.
Qed.

(** The age of an entry counts less when its original is cached. *)
Lemma agedOut_original_last now m1 m2 :
  lastUsedOf m1 = lastUsedOf m2 → is_Some (original m1) → original m2 = None →
  agedOut now m1 = true → agedOut now m2 = true.
Proof.
  unfold agedOut. intros -> [o ->] ->. rewrite !Z.ltb_lt.
  unfold ENTRY_MAX_AGE_WITH_ORIGINAL_MS, ENTRY_MAX_AGE_MS. lia.
Qed.

Lemma elem_of_deleteDir e d listing : e ∈ deleteDir d listing → e ∈ listing ∧ name e ≠ d.
Proof.
  unfold deleteDir. rewrite list_elem_of_In, filter_In, <- list_elem_of_In.
  intros [? ?]. split; [done|]. by destruct (decide (name e = d)).
Qed.

Lemma scan_keeps now items : ∀ listing totalSize stats e,
  e ∈ (scan now items listing totalSize stats).1.1 →
  e ∈ listing ∧ ∀ item m, item ∈ items → readManifest item = Some m →
                          agedOut now m = true → name e ≠ name item.
Proof.
  induction items as [|item rest IH]; intros listing totalSize stats e; simpl.
  - intros ?. split; [done|]. intros ?? Hin. by apply elem_of_nil in Hin.
  - destruct (readManifest item) as [m|] eqn:Em.
    + destruct (agedOut now m) eqn:Ea.
      * intros Hin. apply IH in Hin as [Hin Hrest].
        apply elem_of_deleteDir in Hin as [Hin Hne]. split; [done|].
        intros item' m' Hi Hm Hag. apply elem_of_cons in Hi as [->|Hi]; [done|eauto].
      * intros Hin. apply IH in Hin as [Hin Hrest]. split; [done|].
        intros item' m' Hi Hm Hag. apply elem_of_cons in Hi as [->|Hi]; [congruence|eauto].
    + intros Hin. apply IH in Hin as [Hin Hrest].
      apply elem_of_deleteDir in Hin as [Hin Hne]. split; [done|].
      intros item' m' Hi Hm Hag. apply elem_of_cons in Hi as [->|Hi]; [congruence|eauto].
Qed.

Lemma evict_keeps sorted : ∀ currentSize listing e,
  e ∈ evict sorted currentSize listing → e ∈ listing.
Proof.
  induction sorted as [|stat rest IH]; intros cur listing e; simpl; [done|].
  destruct (Z.leb _ _); [done|]. intros Hin. apply IH in Hin.
  by apply elem_of_deleteDir in Hin as [? _].
Qed.

Lemma prune_keeps now entries e :
  e ∈ prune now entries →
  ∀ item m, item ∈ entries → readManifest item = Some m → agedOut now m = true →
            name e ≠ name item.
Proof.
  unfold prune. destruct entries as [|e0 rest]; [by intros ?%elem_of_nil|].
  pose proof (scan_keeps now (e0 :: rest) (e0 :: rest) 0 [] e) as Hscan.
  destruct (scan _ _ _ _ _) as [[l t] s]. simpl in Hscan.
  destruct (Z.leb _ _); intros Hin.
  - by apply Hscan.
  - apply evict_keeps in Hin. by apply Hscan.
Qed.

Example prune_sample : prune 2000 [with_original; without_original] = [without_original].
Proof. vm_compute. reflexivity. Qed.




End CloudCacheFacts.

(** ** index.ts: what a batch leaves behind *)

Module SyncFacts.
Import Js Text Fingerprint Utils Sync SyncProps.

#[global] Instance same_status_preorder : PreOrder same_status.
Proof. split; [done|]. intros w1 w2 w3. unfold same_status. congruence. Qed.

#[global] Instance same_meta_preorder : PreOrder same_meta.
Proof. split; [done|]. intros w1 w2 w3. unfold same_meta. congruence. Qed.

#[global] Instance same_index_preorder : PreOrder same_index.
Proof.
  split; [done|]. intros w1 w2 w3 [? ?] [? ?].
  unfold same_index. split; congruence.
Qed.

Lemma in_meta_run {A : Type} (m : M MetaIndex.state A) w :
  in_meta m w = ((m (meta w)).1, set_meta (m (meta w)).2 w).
Proof. unfold in_meta. apply zoom_run. Qed.

Lemma in_meta_ok {A : Type} (m : M MetaIndex.state A) a w w' :
  in_meta m w = (Ok a, w') → ∃ s', m (meta w) = (Ok a, s') ∧ w' = set_meta s' w.
Proof. unfold in_meta. apply zoom_ok. Qed.

Lemma in_meta_maintains {A : Type} (R : world → world → Prop) (m : M MetaIndex.state A) :
  (∀ w s, R w (set_meta s w)) → maintains R (in_meta m).
Proof. intros H w. rewrite in_meta_run. apply H. Qed.

Lemma in_remote_maintains {A : Type} (R : world → world → Prop) (m : M Github.remote A) :
  (∀ w s, R w (set_meta s w)) → maintains R (in_remote m).
Proof. intros H. unfold in_remote. by apply in_meta_maintains. Qed.

Lemma pause_run w :
  ∃ cancelled rest,
    (pause w).2 = set_token (token w || cancelled) (set_ui rest w).
Proof.
  unfold pause, modify. simpl. destruct w as [m d dv ad ix st lc mr bl bll tk ac u em].
  destruct u as [|[] rest]; simpl.
  - exists false, []. unfold set_token, set_ui. simpl. by rewrite orb_false_r.
  - exists (ac && negb tk), rest. unfold cancelActiveSync. simpl.
    destruct ac, tk; reflexivity.
  - exists false, rest. unfold set_token, set_ui. simpl. by rewrite orb_false_r.
Qed.

Lemma pause_same_status : maintains same_status pause.
Proof. intros w. destruct (pause_run w) as (c & rest & ->). done. Qed.

Lemma pause_same_meta : maintains same_meta pause.
Proof. intros w. destruct (pause_run w) as (c & rest & ->). done. Qed.

Lemma pause_same_index : maintains same_index pause.
Proof. intros w. destruct (pause_run w) as (c & rest & ->). done. Qed.

(** The cancel flag of a batch is never lowered by a point at which the
    batch awaits. *)
Lemma pause_token w : token w = true → token (pause w).2 = true.
Proof. intros H. destruct (pause_run w) as (c & rest & ->). simpl. by rewrite H. Qed.

#[global] Hint Resolve pause_same_status pause_same_meta pause_same_index : maintain.

Ltac status := maintain_with ltac:(reflexivity).

Lemma in_db_same_status f : maintains same_status (in_db f).
Proof. unfold in_db. status. Qed.

Lemma updateIndexCacheForRecord_same_status record :
  maintains same_status (updateIndexCacheForRecord record).
Proof. unfold updateIndexCacheForRecord. status. Qed.

Lemma in_meta_same_status {A : Type} (m : M MetaIndex.state A) :
  maintains same_status (in_meta m).
Proof. by apply in_meta_maintains. Qed.

Lemma in_remote_same_status {A : Type} (m : M Github.remote A) :
  maintains same_status (in_remote m).
Proof. by apply in_remote_maintains. Qed.

Lemma now_same_status : maintains same_status now.
Proof. unfold now. status. Qed.

Lemma ensureAutoSyncBlocklist_same_status : maintains same_status ensureAutoSyncBlocklist.
Proof.
  unfold ensureAutoSyncBlocklist. apply maintains_modify. intros w.
  by destruct (autoSyncBlocklistLoaded w).
Qed.

#[global] Hint Resolve in_db_same_status updateIndexCacheForRecord_same_status
  in_meta_same_status in_remote_same_status now_same_status
  ensureAutoSyncBlocklist_same_status : maintain.

Lemma unblockAutoSyncFingerprint_same_status fp :
  maintains same_status (unblockAutoSyncFingerprint fp).
Proof. unfold unblockAutoSyncFingerprint. status. Qed.

Lemma blockAutoSyncFingerprint_same_status fp :
  maintains same_status (blockAutoSyncFingerprint fp).
Proof. unfold blockAutoSyncFingerprint. status. Qed.

#[global] Hint Resolve unblockAutoSyncFingerprint_same_status
  blockAutoSyncFingerprint_same_status : maintain.

Lemma uploadPreparedAsset_same_status p : maintains same_status (uploadPreparedAsset p).
Proof. unfold uploadPreparedAsset. status. Qed.

Lemma maintains_run {A : Type} (R : world → world → Prop) (m : M world A) r w w' :
  maintains R m → m w = (r, w') → R w w'.
Proof. intros Hm E. specialize (Hm w). by rewrite E in Hm. Qed.

(** One turn of the loop of [processUploadBatch], whether the upload
    returns or throws: the item is counted as processed, and it is counted
    either as completed or as failed. *)
Lemma upload_turn item processed failed dc failed' dc' w w' :
  try_catch
    (uploadPreparedAsset item ;;
     let deleteCandidates :=
       match dc with
       | Some set =>
           if truthy_string (id (asset item))
           then Some (MetaIndex.set_add (id (asset item)) set)
           else Some set
       | None => None
       end in
     setSyncStatus (λ s, mkStatus (running s) (Z.max 0 (pendingUploads s - 1))
                           (completedUploads s + 1) (isDeleting s) (lastBatchTotal s)
                           processed (lastBatchType s) (lastError s)) ;;
     ret (failed, deleteCandidates))
    (λ error,
       setSyncStatus (λ s, mkStatus (running s) (Z.max 0 (pendingUploads s - 1))
                             (completedUploads s) (isDeleting s) (lastBatchTotal s)
                             processed (lastBatchType s) (Some (message_of error))) ;;
       in_db (LocalStore.recordFailure (Utils.fingerprint item) (message_of error)) ;;
       let* t := now in
       updateIndexCacheForRecord (pendingRecord t item false (Some (message_of error))) ;;
       ret (failed + 1, dc)) w
  = (Ok (failed', dc'), w') →
  lastBatchUploaded (syncStatus w') = processed ∧
  (completedUploads (syncStatus w') - completedUploads (syncStatus w)) + (failed' - failed) = 1.
Proof.
  intros H. apply try_catch_ok in H as [H|(e & w1 & H & Hh)].
  - apply bind_ok in H as ([] & w1 & Hup & H).
    apply (maintains_run _ _ _ _ _ (uploadPreparedAsset_same_status item)) in Hup.
    apply bind_ok in H as ([] & w2 & Hst & H). apply modify_ok in Hst. subst w2.
    apply ret_ok in H as [[= -> ->] ->]. simpl. rewrite Hup. split; [done|]. lia.
  - assert (syncStatus w1 = syncStatus w) as Hsame.
    { apply bind_throw in H as [H|([] & w2 & Hup & H)].
      - by apply (maintains_run _ _ _ _ _ (uploadPreparedAsset_same_status item)) in H.
      - apply bind_throw in H as [H|([] & w3 & _ & H)]; done. }
    apply bind_ok in Hh as ([] & w2 & Hst & Hh). apply modify_ok in Hst. subst w2.
    apply bind_ok in Hh as ([] & w2 & Hdb & Hh). apply modify_ok in Hdb. subst w2.
    apply bind_ok in Hh as (t & w2 & Hnow & Hh). apply gets_ok in Hnow as [-> ->].
    apply bind_ok in Hh as ([] & w2 & Hix & Hh). apply modify_ok in Hix. subst w2.
    apply ret_ok in Hh as [[= -> ->] ->]. simpl. rewrite Hsame. split; [done|]. lia.
Qed.

(** The counters of the loop: every item that the loop reaches is counted
    in [processed], and it is either a completed upload or a failed one.
    After the first turn the status shows [processed]. *)
Lemma uploadLoop_counts items : ∀ processed failed dc w processed' failed' dc' w',
  uploadLoop items processed failed dc w = (Ok (processed', failed', dc'), w') →
  processed' - processed
  = (completedUploads (syncStatus w') - completedUploads (syncStatus w)) + (failed' - failed)
  ∧ (processed' = processed ∧ syncStatus w' = syncStatus w
     ∨ processed < processed' ∧ lastBatchUploaded (syncStatus w') = processed').
Proof.
  induction items as [|item rest IH]; intros p f dc w p' f' dc' w' H; simpl in H.
  - apply ret_ok in H as [[= -> -> ->] ->]. split; [lia|by left].
  - apply bind_ok in H as (cancelled & w0 & Hc & H). apply gets_ok in Hc as [-> ->].
    destruct (token w).
    + apply ret_ok in H as [[= -> -> ->] ->]. split; [lia|by left].
    + apply bind_ok in H as ([f1 dc1] & w1 & Hturn & H).
      apply upload_turn in Hturn as [Hshown Hone].
      apply IH in H as [Hcount Hrest]. split; [lia|]. right.
      destruct Hrest as [[-> Hsame]|[Hlt Hshown']].
      * split; [lia|]. by rewrite Hsame.
      * split; [lia|done].
Qed.

(** The loop returns: a failed upload is caught. *)
Lemma uploadLoop_returns items : ∀ processed failed dc w,
  ∃ processed' failed' dc' w',
    uploadLoop items processed failed dc w = (Ok (processed', failed', dc'), w').
Proof.
  induction items as [|item rest IH]; intros p f dc w; simpl.
  - by eexists _, _, _, _.
  - unfold bind at 1. simpl. destruct (token w); [by eexists _, _, _, _|].
    unfold bind at 1.
    match goal with |- context [try_catch ?m ?h w] => destruct (try_catch m h w) as [r w1] eqn:E end.
    destruct r as [[f1 dc1]|e].
    + apply IH.
    + exfalso. unfold try_catch in E.
      match type of E with context [?m w] => destruct (m w) as [[a|e0] w2] end; [done|].
      done.
Qed.

(** Once the cancel flag is raised the loop leaves the world as it is. *)
Lemma uploadLoop_cancelled items processed failed dc w :
  token w = true →
  uploadLoop items processed failed dc w = (Ok (processed, failed, dc), w).
Proof.
  intros H. destruct items as [|item rest]; simpl; [done|].
  unfold bind, gets. by rewrite H.
Qed.

Ltac frame := maintain_with ltac:(reflexivity).

Lemma setSyncStatus_same_meta patch : maintains same_meta (setSyncStatus patch).
Proof. unfold setSyncStatus. frame. Qed.

Lemma recordCompletion_same_meta event : maintains same_meta (recordCompletion event).
Proof. unfold recordCompletion. frame. Qed.

Lemma now_same_meta : maintains same_meta now.
Proof. unfold now. frame. Qed.

Lemma release_same_meta : maintains same_meta release.
Proof. unfold release. frame. Qed.

#[global] Hint Resolve setSyncStatus_same_meta recordCompletion_same_meta now_same_meta
  release_same_meta : maintain.

Lemma finishBatch_same_meta prepared processed failed dc :
  maintains same_meta (finishBatch prepared processed failed dc).
Proof.
  unfold finishBatch. frame.
Qed.

Lemma finishBatch_cancelled prepared processed failed dc w w' :
  token w = true → finishBatch prepared processed failed dc w = (Ok tt, w') →
  syncStatus w' = idle (syncStatus w) processed (Some "Sync cancelled by user").
Proof.
  intros Hc. unfold finishBatch. intros H.
  apply bind_ok in H as (c & w0 & Hg & H). apply gets_ok in Hg as [-> ->]. rewrite Hc in H.
  apply bind_ok in H as ([] & w1 & Hst & H). apply modify_ok in Hst. subst w1.
  apply bind_ok in H as ([] & w1 & Hdel & H).
  apply modify_ok in H. subst w'. simpl.
  destruct dc as [[|x ids]|].
  - by apply ret_ok in Hdel as [_ ->].
  - by apply modify_ok in Hdel as ->.
  - by apply ret_ok in Hdel as [_ ->].
Qed.

(** *** Preparation *)

Lemma admitted_same_index w w' a : same_index w w' → (admitted w a ↔ admitted w' a).
Proof.
  intros [Hix Hbl]. unfold admitted, isAutoSyncBlockedFingerprint, cachedEntry.
  by rewrite Hix, Hbl.
Qed.

Lemma prepareAsset_Some a answer p :
  prepareAsset a answer = Some p → asset p = a ∧ Utils.fingerprint p = makeFingerprint a.
Proof.
  unfold prepareAsset. destruct answer as [file|]; [|done].
  destruct (negb _); [done|]. destruct (bool_decide _); [done|].
  by intros [= <-].
Qed.

Lemma prepareOnDevice_ok a entry w w' :
  prepareOnDevice a w = (Ok entry, w') →
  same_index w w' ∧
  ∀ p, entry = Some p → asset p = a ∧ Utils.fingerprint p = makeFingerprint a.
Proof.
  unfold prepareOnDevice. intros H.
  apply bind_ok in H as ([] & w1 & Hp & H).
  apply (maintains_run _ _ _ _ _ pause_same_index) in Hp.
  apply gets_ok in H as [-> ->]. split; [done|].
  intros p. apply prepareAsset_Some.
Qed.

Lemma tryRegister_elem entry prepared registered prepared' p :
  tryRegister entry prepared = (registered, prepared') →
  p ∈ prepared' → p ∈ prepared ∨ entry = Some p.
Proof.
  unfold tryRegister. destruct entry as [e|]; [|intros [= _ <-]; by left].
  destruct (bool_decide _); intros [= _ <-]; [by left|].
  rewrite elem_of_app, list_elem_of_singleton. intros [Hin | ->]; [by left|by right].
Qed.

Section PrepareLoops.
Context (all : list Asset) (w0 : world).

Lemma prepareLoop_ok assets : ∀ prepared retryable w prepared' retryable' w',
  (∀ a, a ∈ assets → a ∈ all) →
  same_index w0 w →
  Forall (prepared_ok all w0) prepared → Forall (retryable_ok all w0) retryable →
  prepareLoop true assets prepared retryable w = (Ok (prepared', retryable'), w') →
  same_index w0 w' ∧ Forall (prepared_ok all w0) prepared' ∧ Forall (retryable_ok all w0) retryable'.
Proof.
  induction assets as [|a rest IH]; intros prepared retryable w prepared' retryable' w'
    Hall Hw Hp Hr H; simpl in H.
  - by apply ret_ok in H as [[= -> ->] ->].
  - apply bind_ok in H as (cancelled & w1 & Hc & H). apply gets_ok in Hc as [-> ->].
    destruct (token w); [by apply ret_ok in H as [[= -> ->] ->]|].
    apply bind_ok in H as (skip & w1 & Hs & H). apply gets_ok in Hs as [-> ->].
    assert (∀ a', a' ∈ rest → a' ∈ all) as Hall'.
    { intros a' Ha'. apply Hall. apply elem_of_cons. by right. }
    destruct (isAutoSyncBlockedFingerprint (makeFingerprint a) w
              || match cachedEntry a (makeFingerprint a) w with
                 | Some cached => uploaded cached
                 | None => false
                 end) eqn:Eskip.
    + by apply (IH _ _ _ _ _ _ Hall' Hw Hp Hr) in H.
    + apply orb_false_iff in Eskip as [Hblocked Hcached].
      assert (admitted w0 a) as Hadm.
      { apply (admitted_same_index _ _ _ Hw).
        split; [done|]. intros e He. by rewrite He in Hcached. }
      apply bind_ok in H as (entry & w1 & He & H).
      apply prepareOnDevice_ok in He as [Hw1 Hentry].
      assert (same_index w0 w1) as Hw01 by (etrans; done).
      destruct (tryRegister entry prepared) as [registered prepared1] eqn:Ereg.
      assert (Forall (prepared_ok all w0) prepared1) as Hp1.
      { apply Forall_forall. intros p Hin.
        destruct (tryRegister_elem _ _ _ _ _ Ereg Hin) as [Hold|Hnew].
        - by apply (proj1 (Forall_forall _ _) Hp).
        - destruct (Hentry p Hnew) as [Ha Hf]. unfold prepared_ok. rewrite Ha.
          split; [apply Hall, elem_of_cons; by left|]. split; [exact Hf|done]. }
      destruct registered.
      * by apply (IH _ _ _ _ _ _ Hall' Hw01 Hp1 Hr) in H.
      * apply (IH _ _ _ _ _ _ Hall' Hw01 Hp1) in H; [done|].
        apply Forall_app. split; [done|]. apply Forall_singleton.
        split; [apply Hall, elem_of_cons; by left|done].
Qed.

Lemma requestDownload_same_index a : maintains same_index (requestDownload a).
Proof.
  unfold requestDownload. apply maintains_bind; [typeclasses eauto|apply pause_same_index|].
  intros []. apply maintains_modify. intros w.
  by destruct (lookup_key (id a) (downloadable (device w))).
Qed.

Lemma downloadLoop_same_index retryable : maintains same_index (downloadLoop retryable).
Proof.
  induction retryable as [|a rest IH]; simpl.
  - apply maintains_ret. typeclasses eauto.
  - apply maintains_bind; [typeclasses eauto|apply maintains_gets; typeclasses eauto|].
    intros []; [apply maintains_ret; typeclasses eauto|].
    apply maintains_bind; [typeclasses eauto|apply requestDownload_same_index|].
    intros []. exact IH.
Qed.

Lemma retryLoop_ok retryable : ∀ prepared w prepared' w',
  same_index w0 w →
  Forall (retryable_ok all w0) retryable → Forall (prepared_ok all w0) prepared →
  retryLoop retryable prepared w = (Ok prepared', w') →
  same_index w0 w' ∧ Forall (prepared_ok all w0) prepared'.
Proof.
  induction retryable as [|a rest IH]; intros prepared w prepared' w' Hw Hr Hp H; simpl in H.
  - by apply ret_ok in H as [-> ->].
  - apply bind_ok in H as (cancelled & w1 & Hc & H). apply gets_ok in Hc as [-> ->].
    destruct (token w); [by apply ret_ok in H as [-> ->]|].
    apply bind_ok in H as (entry & w1 & He & H).
    apply prepareOnDevice_ok in He as [Hw1 Hentry].
    apply Forall_cons in Hr as [[Ha Hadm] Hr].
    refine (IH _ _ _ _ _ Hr _ H); [etrans; done|].
    destruct (tryRegister entry prepared) as [registered prepared1] eqn:Ereg. simpl.
    apply Forall_forall. intros p Hin.
    destruct (tryRegister_elem _ _ _ _ _ Ereg Hin) as [Hold|Hnew].
    + by apply (proj1 (Forall_forall _ _) Hp).
    + destruct (Hentry p Hnew) as [Hpa Hf]. unfold prepared_ok. rewrite Hpa.
      split; [done|]. split; [exact Hf|done].
Qed.

End PrepareLoops.

End SyncFacts.

Section CancellationFacts.
Import Js Text Fingerprint Utils Sync SyncProps SyncFacts Samples.

(** C3 as stated fails: the batch of two photos is cancelled during the
    first upload, which fails; the batch ends with [lastBatchUploaded = 1]
    although no upload has completed: nothing is in the repository, the
    count of completed uploads has not moved, and the local record of the
    photo is not marked uploaded. *)
Lemma cancelled_batch_counts_failed_upload :
  ∃ w',
    processUploadBatch [photo 1; photo 2] (mkOptions false None None) cancelling_world
    = (Ok tt, w') ∧
    token w' = true ∧
    lastBatchUploaded (syncStatus w') = 1 ∧
    completedUploads (syncStatus w') = completedUploads (syncStatus cancelling_world) ∧
    Github.files (MetaIndex.remote (meta w')) = [] ∧
    LocalStore.uploaded <$> LocalStore.getAsset (makeFingerprint (photo 1)) (db w')
    = Some false.
Proof. eexists. split; [vm_compute; reflexivity|]. split_and!; vm_compute; reflexivity. Qed.

(** C3, as amended.  When the loop of a batch has returned with the cancel
    flag raised and the batch has ended, [lastBatchUploaded] is the number
    of items that the loop has taken up: the uploads that completed (by
    which [completedUploads] has grown) and the uploads that failed.  From a
    state in which the flag is raised on, the loop over the remaining items
    and the end of the batch leave the metadata store, the repository and
    the log of the requests issued as they are. *)
Theorem cancelled_batch_reports_attempted_uploads
    (prepared : list PreparedAsset) (dc dc' : option (list string))
    (processed failed : Z) (w w1 w' : world) :
  uploadLoop prepared 0 0 dc w = (Ok (processed, failed, dc'), w1) →
  token w1 = true →
  finishBatch prepared processed failed dc' w1 = (Ok tt, w') →
  lastBatchUploaded (syncStatus w')
  = (completedUploads (syncStatus w') - completedUploads (syncStatus w)) + failed
  ∧ ∀ rest p f d w0,
      token w0 = true →
      meta ((let* (p', f', d') := uploadLoop rest p f d in
             finishBatch prepared p' f' d') w0).2 = meta w0.
Proof.
  intros Hloop Hc Hfin. split.
  - apply uploadLoop_counts in Hloop as [Hcount _].
    apply (finishBatch_cancelled _ _ _ _ _ _ Hc) in Hfin. rewrite Hfin. simpl. lia.
  - intros rest p f d w0 H0. unfold bind at 1.
    rewrite (uploadLoop_cancelled rest p f d w0 H0).
    apply finishBatch_same_meta.
Qed.

Lemma cancelled_batch_reports_attempted_uploads_witness :
  let prepared :=
    [default (mkPrepared (photo 1) "" "" "" None None "" None)
       (prepareAsset (photo 1) (Some (photo_file 1)));
     default (mkPrepared (photo 2) "" "" "" None None "" None)
       (prepareAsset (photo 2) (Some (photo_file 2)))] in
  let w := set_active true (set_ui [true] cancelling_world) in
  let w1 := (uploadLoop prepared 0 0 None w).2 in
  let w' := (finishBatch prepared 1 1 None w1).2 in
  (uploadLoop prepared 0 0 None w = (Ok (1, 1, None), w1) ∧ token w1 = true ∧
   finishBatch prepared 1 1 None w1 = (Ok tt, w')) ∧
  lastBatchUploaded (syncStatus w')
  = (completedUploads (syncStatus w') - completedUploads (syncStatus w)) + 1
  ∧ ∀ rest p f d w0,
      token w0 = true →
      meta ((let* (p', f', d') := uploadLoop rest p f d in
             finishBatch prepared p' f' d') w0).2 = meta w0.
Proof.
  intros prepared w w1 w'.
  assert (uploadLoop prepared 0 0 None w = (Ok (1, 1, None), w1)) as Hloop
    by (vm_compute; reflexivity).
  assert (token w1 = true) as Hc by (vm_compute; reflexivity).
  assert (finishBatch prepared 1 1 None w1 = (Ok tt, w')) as Hfin
    by (vm_compute; reflexivity).
  split; [exact (conj Hloop (conj Hc Hfin))|].
  exact (cancelled_batch_reports_attempted_uploads prepared None None 1 1 w w1 w'
           Hloop Hc Hfin).
Defined.

End CancellationFacts.

Section IdempotenceFacts.
Import Js Text Fingerprint Utils Sync SyncProps SyncFacts Samples.




End IdempotenceFacts.
(** ** index.ts: the deletion of a remote file *)

Module DeletionFacts.
Import Js Text Fingerprint Utils Sync SyncProps SyncFacts.

Lemma finally_ok {S A : Type} (m : M S A) (cleanup : S → S) a s s' :
  finally m cleanup s = (Ok a, s') → ∃ s1, m s = (Ok a, s1) ∧ s' = cleanup s1.
Proof.
  unfold finally. destruct (m s) as [r s1]. intros [= -> <-]. by exists s1.
Qed.

Lemma set_add_elem x set : x ∈ MetaIndex.set_add x set.
Proof.
  unfold MetaIndex.set_add. case_bool_decide; [done|].
  apply elem_of_app. right. by apply list_elem_of_singleton.
Qed.

(** [blockAutoSyncFingerprint] puts a fingerprint on the blocklist and
    leaves the records, the index and the metadata store as they are. *)
Lemma blockAutoSyncFingerprint_ok fp w r w' :
  blockAutoSyncFingerprint fp w = (r, w') →
  r = Ok tt ∧
  meta w' = meta w ∧ LocalStore.assets (db w') = LocalStore.assets (db w) ∧
  uploadIndexCache w' = uploadIndexCache w ∧ emitted w' = emitted w ∧
  (truthy_string fp = true → fp ∈ autoSyncBlocklist w').
Proof.
  unfold blockAutoSyncFingerprint. destruct (truthy_string fp) eqn:Efp; simpl.
  - unfold bind, ensureAutoSyncBlocklist, modify, gets, in_db. simpl.
    destruct (isAutoSyncBlockedFingerprint fp _) eqn:Eb.
    + intros [= <- <-]. destruct (autoSyncBlocklistLoaded w); simpl; repeat split; try done;
        intros _; unfold isAutoSyncBlockedFingerprint in Eb;
        by apply bool_decide_eq_true in Eb.
    + intros [= <- <-]. destruct (autoSyncBlocklistLoaded w); simpl; repeat split; try done;
        intros _; apply set_add_elem.
  - intros [= <- <-]. repeat split; done.
Qed.

(** The request that [deleteFile] makes when no SHA is known for the path:
    none. *)
Lemma deleteFile_without_sha path message r r' :
  Github.fetchFileSha path r = (Ok None, r') →
  Github.deleteFile path message r = (Ok tt, r') ∧
  Github.files r' = Github.files r ∧ Github.issued r' = Github.issued r.
Proof.
  intros H. unfold Github.deleteFile, bind. rewrite H. split; [done|].
  unfold Github.fetchFileSha in H. apply try_catch_ok in H as [H|(e & r1 & H & Hh)].
  - apply bind_ok in H as (data & r1 & Hget & H).
    apply getContent_ok in Hget as (Hf & _ & Hi & _).
    destruct data; apply ret_ok in H as [_ ->]; done.
  - assert (Github.files r1 = Github.files r ∧ Github.issued r1 = Github.issued r) as [Hf Hi].
    { apply bind_throw in H as [H|(data & r2 & Hget & H)].
      - by apply getContent_throw in H as (? & _ & ? & _).
      - apply getContent_ok in Hget as (? & _ & ? & _). by destruct data. }
    destruct (is404 e); [|done]. apply ret_ok in Hh as [_ ->]. done.
Qed.

(** What follows the removal in [deleteRepoFile]: the invalidation signal
    and the report. *)
Lemma deleteRepoFile_tail options (u : unit) w w' :
  ((if negb (skipInvalidation options) then modify (emit CacheInvalidated) else ret tt) ;;
   (if negb (skipStatus options) then
      let* t := now in recordCompletion (mkCompletion DeleteFiles 1 0 t)
    else ret tt)) w = (Ok u, w') →
  meta w' = meta w ∧ db w' = db w ∧ uploadIndexCache w' = uploadIndexCache w ∧
  autoSyncBlocklist w' = autoSyncBlocklist w ∧
  (skipInvalidation options = false → CacheInvalidated ∈ emitted w').
Proof.
  intros H. apply bind_ok in H as ([] & w1 & Hinv & H).
  assert (meta w1 = meta w ∧ db w1 = db w ∧ uploadIndexCache w1 = uploadIndexCache w ∧
          autoSyncBlocklist w1 = autoSyncBlocklist w ∧
          (skipInvalidation options = false → CacheInvalidated ∈ emitted w1))
    as (Hm & Hd & Hi & Hb & He).
  { destruct (skipInvalidation options); simpl in Hinv.
    - apply ret_ok in Hinv as [_ ->]. done.
    - apply modify_ok in Hinv. subst w1. simpl. repeat split; try done.
      intros _. apply elem_of_app. right. by apply list_elem_of_singleton. }
  destruct (skipStatus options); simpl in H.
  - apply ret_ok in H as [_ ->]. done.
  - apply bind_ok in H as (t & w2 & Ht & H). apply gets_ok in Ht as [-> ->].
    apply modify_ok in H. subst w'. simpl. repeat split; try done.
    intros Hs. apply elem_of_app. left. by apply He.
Qed.

End DeletionFacts.

Section DeletionClaim.
Import Js Text Fingerprint Utils Sync SyncProps SyncFacts DeletionFacts.
Import MetaIndex StoreProps StoreFacts RemovalFacts Samples.

(** C8 as stated fails: the delete of the photo succeeds, and the entry of
    the photo is still in its shard, the local record is still there, and
    the fingerprint is not on the blocklist, because the metadata cache of
    the device does not resolve the path. *)
Lemma deleteRepoFile_leaves_unresolved_entry :
  ∃ w' d sha s'',
    deleteRepoFile (repoPath sample_entry) (mkDeleteOptions false false) stale_world
    = (Ok tt, w') ∧
    lookup_key (repoPath sample_entry) (Github.files (remote (meta w'))) = None ∧
    fetchShardDocument "2023-11-14" "gitgallery/meta/2023/11/14/meta_dict.json" (meta w')
    = (Ok (d, sha), s'') ∧
    lookup_key (fingerprint sample_entry) (Doc.entries d) = Some (mkShardEntry sample_entry 50) ∧
    LocalStore.getAsset (fingerprint sample_entry) (db w') = Some sample_record ∧
    fingerprint sample_entry ∉ autoSyncBlocklist w'.
Proof.
  do 4 eexists. split; [vm_compute; reflexivity|].
  split; [vm_compute; reflexivity|]. split; [vm_compute; reflexivity|].
  split; [vm_compute; reflexivity|]. split; [vm_compute; reflexivity|].
  vm_compute. by intros ?%elem_of_nil.
Qed.

(** C8, as amended.  When no SHA is known for a path, [deleteFile] issues
    no request and returns.  When [deleteRepoFile] returns, the
    cache-invalidation signal has been emitted unless the caller asked to
    skip it; and if the metadata cache, as it is loaded at the start of the
    call, resolves the path to an entry, then the local record of the
    fingerprint of the entry is deleted, its index entry is removed, and the
    fingerprint (if it is not empty) is on the blocklist; and if that entry
    is resident (its shard is loaded and known by its SHA, and the document
    of the shard holds the entry), the fingerprint is no longer in the index
    of the metadata store and a fresh fetch of the document of its shard
    does not find it. *)
Theorem deleteRepoFile_removes_what_the_cache_resolves
    (path : string) (options : DeleteOptions) (w w' : world) :
  deleteRepoFile path options w = (Ok tt, w') →
  let w0 := (ensureMetaLoaded false w).2 in
  (∀ message r r',
     Github.fetchFileSha path r = (Ok None, r') →
     Github.deleteFile path message r = (Ok tt, r') ∧
     Github.files r' = Github.files r ∧ Github.issued r' = Github.issued r) ∧
  (skipInvalidation options = false → CacheInvalidated ∈ emitted w') ∧
  ∀ cached,
    getMetaEntryFromCache path (indices (meta w0)) = Some cached →
    let fp := fingerprint (entry cached) in
    LocalStore.getAsset fp (db w') = None ∧
    lookup_key fp (uploadIndexCache w') = None ∧
    (truthy_string fp = true → fp ∈ autoSyncBlocklist w') ∧
    ∀ shard,
      resident fp (meta w0) shard →
      unindexed fp (indices (meta w')) ∧
      ∀ d sha s'',
        fetchShardDocument (shardKey (indices (meta w0)) fp) (Shard.path shard) (meta w')
        = (Ok (d, sha), s'') →
        lookup_key fp (Doc.entries d) = None.
Proof.
  intros H w0. split; [intros message r r'; apply deleteFile_without_sha|].
  unfold deleteRepoFile in H.
  apply bind_ok in H as ([] & wa & Hload & H).
  assert (w0 = wa) as Hw0 by (unfold w0; by rewrite Hload). clearbody w0. subst wa.
  apply bind_ok in H as ([] & wb & Hstart & H).
  assert (meta wb = meta w0 ∧ db wb = db w0 ∧ uploadIndexCache wb = uploadIndexCache w0)
    as (Hmb & Hdb & Hib).
  { destruct (skipStatus options); simpl in Hstart.
    - by apply ret_ok in Hstart as [_ ->].
    - apply modify_ok in Hstart. by subst wb. }
  apply finally_ok in H as (wz & H & ->).
  apply try_catch_ok in H as [H|(e & w1 & _ & Hh)].
  2:{ apply bind_ok in Hh as ([] & w2 & _ & Hh). done. }
  apply bind_ok in H as ([] & wc & Hdel & H).
  unfold in_remote in Hdel. apply in_meta_ok in Hdel as (sc & Hdel & ->).
  apply request_ok in Hdel as (r' & _ & ->).
  apply bind_ok in H as (cached & wd & Hcached & H). apply gets_ok in Hcached as [-> ->].
  cbn [meta set_meta indices set_remote] in H. rewrite Hmb in H.
  apply bind_ok in H as ([] & we & Hremove & H).
  apply deleteRepoFile_tail in H as (Hmz & Hdz & Hiz & Hbz & Hez).
  match goal with |- context [emitted ?f] => set (wf := f) end.
  assert (meta wf = meta wz ∧ db wf = db wz ∧ uploadIndexCache wf = uploadIndexCache wz ∧
          autoSyncBlocklist wf = autoSyncBlocklist wz ∧
          ∀ ev, ev ∈ emitted wz → ev ∈ emitted wf) as (Hmf & Hdf & Hif & Hbf & Hef).
  { unfold wf. destruct (skipStatus options); simpl; repeat split; try done.
    intros ev Hev. apply elem_of_app. by left. }
  clearbody wf. split; [intros Hs; by apply Hef, Hez|].
  intros cached Hc fp. rewrite Hc in Hremove. fold fp in Hremove.
  apply bind_ok in Hremove as ([] & w1 & Hrm & Hremove).
  apply in_meta_ok in Hrm as (sr & Hrm & ->). cbn [meta set_meta] in Hrm.
  apply bind_ok in Hremove as (existing & w2 & Hex & Hremove). apply gets_ok in Hex as [-> ->].
  apply bind_ok in Hremove as ([] & w2 & Hdel & Hremove). apply modify_ok in Hdel. subst w2.
  apply bind_ok in Hremove as ([] & w2 & Hix & Hremove). apply modify_ok in Hix. subst w2.
  apply blockAutoSyncFingerprint_ok in Hremove as (_ & Hme & Hde & Hie & _ & Hbe).
  split; [|split; [|split]].
  - unfold LocalStore.getAsset. rewrite Hdf, Hdz, Hde. simpl. apply lookup_key_remove.
  - rewrite Hif, Hiz, Hie. simpl.
    destruct (LocalStore.getAsset fp (db wb) ≫= LocalStore.assetId) as [id|];
      [|apply lookup_key_remove].
    destruct (truthy_string id); [|apply lookup_key_remove].
    destruct (decide (id = fp)) as [->|Hne]; [apply lookup_key_remove|].
    rewrite lookup_key_remove_ne by done. apply lookup_key_remove.
  - intros Ht. rewrite Hbf, Hbz. by apply Hbe.
  - intros shard [Hslot Hloaded Hentry Hsha Hpath].
    rewrite Hmf, Hmz, Hme. simpl.
    apply (removeMetaEntries_resident fp (set_remote r' (meta w0)) shard sr); [|exact Hrm].
    by constructor.
Qed.

Lemma deleteRepoFile_removes_what_the_cache_resolves_witness :
  let fp := fingerprint sample_entry in
  let w' := (deleteRepoFile (repoPath sample_entry) (mkDeleteOptions false false)
               resolving_world).2 in
  lookup_key (repoPath sample_entry) (Github.files (remote (meta w'))) = None ∧
  CacheInvalidated ∈ emitted w' ∧
  LocalStore.getAsset fp (db w') = None ∧
  lookup_key fp (uploadIndexCache w') = None ∧
  fp ∈ autoSyncBlocklist w' ∧
  unindexed fp (indices (meta w')) ∧
  ∀ d sha s'',
    fetchShardDocument "2023-11-14" "gitgallery/meta/2023/11/14/meta_dict.json" (meta w')
    = (Ok (d, sha), s'') →
    lookup_key fp (Doc.entries d) = None.
Proof.
  intros fp w'.
  assert (deleteRepoFile (repoPath sample_entry) (mkDeleteOptions false false) resolving_world
          = (Ok tt, w')) as Hrun by (vm_compute; reflexivity).
  destruct (deleteRepoFile_removes_what_the_cache_resolves _ _ _ _ Hrun)
    as (_ & Hsignal & Hresolved).
  destruct (Hresolved (mkShardEntry sample_entry 100) ltac:(vm_compute; reflexivity))
    as (Hrecord & Hindex & Hblock & Hresident).
  destruct (Hresident
              (Shard.mk "2023-11-14" "gitgallery/meta/2023/11/14/meta_dict.json" (Some "json")
                 1 100
                 (Some (Doc.mk 1 "2023-11-14" 100 [(fp, mkShardEntry sample_entry 100)])) true))
    as [Hgone Hfetch].
  { constructor.
    - eexists. split; vm_compute; reflexivity.
    - reflexivity.
    - eexists. split; [reflexivity|]. split; [|eexists; reflexivity].
      split; [apply NoDup_singleton|].
      apply Forall_cons_2; [reflexivity|apply Forall_nil_2].
    - exists "json". split; reflexivity.
    - vm_compute. discriminate. }
  split; [vm_compute; reflexivity|]. split; [apply Hsignal; reflexivity|].
  split; [exact Hrecord|]. split; [exact Hindex|]. split; [apply Hblock; reflexivity|].
  split; [exact Hgone|]. exact Hfetch.
Defined.

End DeletionClaim.
(** ** utils.ts: file names, repository paths and chunks *)

Module NameFacts.
Import Js Text Utils TextProps NameProps.

Lemma all_chars_collapse_runs (p class : ascii → bool) by_ s : ∀ in_run,
  p by_ = true → (∀ c, class c = false → p c = true) →
  all_chars p (collapse_runs class by_ in_run s) = true.
Proof.
  induction s as [|c s IH]; intros in_run Hby Hp; simpl; [done|].
  destruct (class c) eqn:Hc.
  - destruct in_run; simpl; rewrite ?Hby; by rewrite IH.
  - simpl. by rewrite Hp, IH.
Qed.

Lemma all_chars_strip_leading (p class : ascii → bool) s :
  all_chars p s = true → all_chars p (strip_leading class s) = true.
Proof.
  induction s as [|c s IH]; simpl; [done|]. intros [? ?]%andb_prop.
  destruct (class c); [by apply IH|]. simpl. by apply andb_true_intro.
Qed.

Lemma all_chars_strip_trailing (p class : ascii → bool) s :
  all_chars p s = true → all_chars p (strip_trailing class s) = true.
Proof.
  induction s as [|c s IH]; simpl; [done|]. intros [Hc Hs]%andb_prop.
  specialize (IH Hs). destruct (strip_trailing class s) as [|c' r'].
  - destruct (class c); simpl; [done|]. by rewrite Hc.
  - simpl in *. by rewrite Hc.
Qed.

Lemma first_char_strip_leading class s c :
  first_char (strip_leading class s) = Some c → class c = false.
Proof.
  induction s as [|x s IH]; simpl; [done|].
  destruct (class x) eqn:Hx; [done|]. simpl. by intros [= <-].
Qed.

Lemma last_char_strip_trailing class s c :
  last_char (strip_trailing class s) = Some c → class c = false.
Proof.
  induction s as [|x s IH]; simpl; [done|].
  destruct (strip_trailing class s) as [|c' r'] eqn:Hs.
  - destruct (class x) eqn:Hx; simpl; [done|]. by intros [= <-].
  - simpl. simpl in IH. done.
Qed.

Lemma first_char_strip_trailing class s :
  strip_trailing class s ≠ EmptyString →
  first_char (strip_trailing class s) = first_char s.
Proof.
  destruct s as [|x s]; simpl; [done|].
  destruct (strip_trailing class s); [|done].
  by destruct (class x).
Qed.

(** What the six replacements of [sanitizeFilename] leave. *)
Lemma sanitized_safe_name (next : string) :
  let cleaned := strip_trailing is_dash
                   (strip_leading is_dash
                      (collapse_runs (λ c, negb (is_safe c)) "-"%char false next)) in
  truthy_string cleaned = true → safe_name cleaned.
Proof.
  intros cleaned Hne. repeat split.
  - intros E. by rewrite E in Hne.
  - apply all_chars_strip_trailing, all_chars_strip_leading.
    apply all_chars_collapse_runs; [done|]. intros c Hc. by apply negb_false_iff.
  - unfold cleaned. rewrite first_char_strip_trailing.
    + intros H%first_char_strip_leading. done.
    + intros E. unfold cleaned in Hne. by rewrite E in Hne.
  - intros H%last_char_strip_trailing. done.
Qed.

Lemma sanitizeFilename_cases filename fallback :
  sanitizeFilename filename fallback = fallback ∨
  (safe_name (sanitizeFilename filename fallback) ∧
   sanitizeFilename filename fallback ≠ "." ∧ sanitizeFilename filename fallback ≠ "..").
Proof.
  unfold sanitizeFilename.
  set (cleaned := strip_trailing _ _).
  destruct (truthy_string cleaned) eqn:Hne; simpl; [|by left].
  destruct (bool_decide (cleaned = ".")) eqn:H1; simpl; [by left|].
  destruct (bool_decide (cleaned = "..")) eqn:H2; simpl; [by left|].
  right. split; [by apply sanitized_safe_name|].
  split; by eapply bool_decide_eq_false_1.
Qed.

Lemma sanitizeFolderName_safe name : safe_name (sanitizeFolderName name).
Proof.
  unfold sanitizeFolderName, or_string.
  destruct (sanitizeFilename_cases name "Unsorted") as [->|[H _]]; [by vm_compute|].
  destruct (truthy_string _); [done|by vm_compute].
Qed.

Lemma map_chars_app f s t : map_chars f (s +:+ t) = map_chars f s +:+ map_chars f t.
Proof. induction s as [|c s IH]; [done|]. str_simpl. simpl. by rewrite IH. Qed.

Lemma slashed_safe s : all_chars is_safe s = true → slashed s = s.
Proof.
  unfold slashed. induction s as [|c s IH]; simpl; [done|]. intros [Hc Hs]%andb_prop.
  rewrite IH by done. destruct (decide _) as [->|]; [by vm_compute in Hc|done].
Qed.

Lemma one_of_app s t c : one_of (s +:+ t) c = one_of s c || one_of t c.
Proof. induction s as [|x s IH]; [done|]. str_simpl. simpl. by rewrite IH, orb_assoc. Qed.

Lemma has_dot_slashed s : has_dot (slashed s) = has_dot s.
Proof.
  unfold has_dot, slashed. induction s as [|c s IH]; simpl; [done|]. rewrite IH. f_equal.
  destruct (decide (c = "\"%char)) as [->|]; done.
Qed.

Lemma buildFileSegment_has_dot filename fingerprint :
  has_dot (buildFileSegment filename fingerprint) = true.
Proof.
  unfold buildFileSegment. set (sanitized := sanitizeFilename _ _).
  destruct (one_of sanitized ".") eqn:E; [done|].
  unfold has_dot. rewrite one_of_app. by rewrite orb_true_r.
Qed.

End NameFacts.

Section NameTheorems.
Import Js Text Utils TextProps NameProps NameFacts.

(** X1. [sanitizeFilename] returns either the fallback it was given or a
    name that is safe as one segment of a path: not empty, not [.] or
    [..], made only of letters, digits, dots, underscores, spaces and
    dashes (so without a slash, a backslash or a control character), and
    neither beginning nor ending with a dash. *)
Theorem sanitizeFilename_is_fallback_or_safe (filename fallback : string) :
  sanitizeFilename filename fallback = fallback ∨
  (safe_name (sanitizeFilename filename fallback) ∧
   sanitizeFilename filename fallback ≠ "." ∧ sanitizeFilename filename fallback ≠ "..").
Proof. apply sanitizeFilename_cases. Qed.


End NameTheorems.

Section ChunkFacts.
Import Js Utils.
Context {T : Type}.

(** Inside the loop, [items.slice(i, i + size)] is the next [size] items
    from position [i]. *)
Lemma slice_next (items : list T) (n k : nat) :
  (n < length items)%nat →
  slice items (Z.of_nat n) (Z.of_nat n + Z.of_nat (S k)) = take (S k) (drop n items).
Proof.
  intros Hn. unfold slice, slice_index.
  destruct (Z.ltb_spec (Z.of_nat n) 0); [lia|].
  destruct (Z.ltb_spec (Z.of_nat n + Z.of_nat (S k)) 0); [lia|].
  rewrite (Z.min_l (Z.of_nat n)) by lia. rewrite Nat2Z.id.
  destruct (Z.min_spec (Z.of_nat n + Z.of_nat (S k)) (Z.of_nat (length items)))
    as [[_ ->]|[Hle ->]].
  - f_equal. lia.
  - rewrite !take_ge; [done| |]; rewrite length_drop; lia.
Qed.

Lemma chunk_loop_spec (items : list T) (k : nat) : ∀ turns n chunks,
  (length items - n ≤ turns)%nat →
  ∃ rest,
    chunk_loop turns items (Z.of_nat (S k)) (Z.of_nat n) chunks = chunks ++ rest ∧
    concat rest = drop n items ∧
    Forall (λ c, (0 < length c ≤ S k)%nat) rest.
Proof.
  induction turns as [|turns IH]; intros n chunks Hturns; simpl.
  - exists []. rewrite app_nil_r, drop_ge by lia. done.
  - destruct (Z.ltb_spec (Z.of_nat n) (Z.of_nat (length items))) as [Hlt|Hge].
    + rewrite slice_next by lia.
      replace (Z.of_nat n + Z.of_nat (S k)) with (Z.of_nat (n + S k)) by lia.
      destruct (IH (n + S k)%nat (chunks ++ [take (S k) (drop n items)])) as (rest & -> & Hcat & Hall);
        [lia|].
      exists (take (S k) (drop n items) :: rest). split; [by rewrite <- app_assoc|]. split.
      * simpl. rewrite Hcat. rewrite <- drop_drop. apply take_drop.
      * constructor; [|done]. rewrite length_take, length_drop. lia.
    + exists []. rewrite app_nil_r, drop_ge by lia. done.
Qed.

End ChunkFacts.

Section ChunkTheorems.
Import Js Utils.

(** X3. For a positive size, the chunks of [chunk] are the items cut in
    order into pieces: concatenated they give the items back, and no chunk
    is empty or longer than the size.  In particular no item is lost or
    repeated, and an empty list has no chunk. *)
Theorem chunk_partitions {T : Type} (items : list T) (size : Z) :
  0 < size →
  concat (chunk items size) = items ∧
  Forall (λ c, (0 < length c)%nat ∧ Z.of_nat (length c) ≤ size) (chunk items size).
Proof.
  intros Hsize. unfold chunk. destruct (Z.leb_spec size 0); [lia|].
  destruct (Z.to_nat size) as [|k] eqn:Hk; [lia|].
  replace size with (Z.of_nat (S k)) by lia.
  destruct (chunk_loop_spec items k (length items) 0 []) as (rest & Hloop & Hcat & Hall); [lia|].
  change 0 with (Z.of_nat 0). rewrite Hloop. simpl. split; [done|].
  eapply Forall_impl; [exact Hall|]. simpl. intros c ?. lia.
Qed.

Lemma chunk_partitions_witness :
  concat (chunk [1; 2; 3; 4; 5] 2) = [1; 2; 3; 4; 5] ∧
  Forall (λ c, (0 < length c)%nat ∧ Z.of_nat (length c) ≤ 2) (chunk [1; 2; 3; 4; 5] 2).
Proof. apply (chunk_partitions [1; 2; 3; 4; 5] 2). lia. Defined.

End ChunkTheorems.
(** ** metaIndex.ts: bucket names and shard paths *)

Module BucketFacts.
Import Js Text Regex Json Github MetaIndex TextProps NameProps.

Lemma search_from_bol rest s : search_from (Bol :: rest) false s = None.
Proof. induction s as [|c s IH]; simpl; [done|apply IH]. Qed.

Lemma match_anchored rest s : match_ (Bol :: rest) s = match_here rest true s.
Proof.
  unfold match_. destruct s as [|c s]; simpl.
  - by destruct (match_here rest true "").
  - destruct (match_here rest true (String c s)); [done|apply search_from_bol].
Qed.

Lemma match_here_lit (p : string) rest : ∀ at_start s caps,
  match_here (lit p ++ rest) at_start s = Some caps →
  ∃ s' at_start', s = p +:+ s' ∧ match_here rest at_start' s' = Some caps.
Proof.
  induction p as [|c p IH]; intros at_start s caps; simpl.
  - intros H. by exists s, at_start.
  - destruct s as [|c' s]; [done|]. destruct (decide (c = c')) as [<-|]; [|done].
    intros (s' & b & -> & H)%IH. by exists s', b.
Qed.

Lemma any_plus_some k : ∀ s taken caps,
  any_plus taken s k = Some caps →
  ∃ t r, t ≠ EmptyString ∧ s = t +:+ r ∧ k (taken +:+ t) r = Some caps.
Proof.
  induction s as [|c s IH]; intros taken caps; simpl; [done|].
  destruct (is_line_terminator c); [done|].
  destruct (any_plus _ s k) as [caps'|] eqn:Hrec.
  - intros [= <-]. apply IH in Hrec as (t & r & _ & -> & Hk).
    exists (String c t), r. split; [done|]. split; [done|].
    by rewrite append_assoc in Hk.
  - intros Hk. exists (String c EmptyString), s. done.
Qed.

(** What the pattern of the legacy layout matches. *)
Lemma legacyPattern_matches s name :
  match_ legacyPattern s = Some [name] →
  s = "gitgallery/meta/shards/" +:+ name +:+ ".json" ∧ name ≠ EmptyString.
Proof.
  change legacyPattern
    with (Bol :: lit "gitgallery/meta/shards/" ++ (AnyPlus :: lit ".json" ++ [Eol])).
  rewrite match_anchored.
  intros (s1 & b & -> & H)%match_here_lit. cbn [match_here] in H.
  apply any_plus_some in H as (t & r & Hne & -> & H). rewrite append_nil_l in H.
  destruct (match_here _ false r) as [caps|] eqn:Htail; [|done].
  injection H as -> ->.
  apply (match_here_lit ".json" [Eol]) in Htail as (r' & b' & -> & Hend).
  simpl in Hend. destruct r'; [|done]. done.
Qed.

End BucketFacts.

Section BucketTheorems.
Import Js Text Regex Json Github MetaIndex TextProps NameProps StoreProps.
Import RemovalFacts BucketFacts.

(** X4. A bucket name that [sanitizeBucket] returns is never empty and is
    made of digits, lower-case letters and dashes only; sanitising it again
    changes nothing, so the key of a shard in the cache is stable under
    the repeated sanitising that the store applies to it. *)
Theorem sanitizeBucket_is_canonical (bucket : string) :
  sanitizeBucket bucket ≠ EmptyString ∧
  all_chars bucket_ok (sanitizeBucket bucket) = true ∧
  sanitizeBucket (sanitizeBucket bucket) = sanitizeBucket bucket.
Proof.
  destruct (sanitizeBucket_ok bucket) as [Hchars Hne].
  split; [|split; [done|apply sanitizeBucket_idem]].
  intros E. by rewrite E in Hne.
Qed.

(** X5. [bucketFromShardFilePath] recognises a path as the file of a shard
    only when the path, with its backslashes turned into slashes, is
    [gitgallery/meta/shards/<name>.json] for a non-empty name, and the
    bucket is then the sanitised name.  No path of the dated, the unknown
    or the misc layout is recognised. *)
Theorem bucketFromShardFilePath_recognises_legacy_layout_only (path bucket : string) :
  bucketFromShardFilePath path = Some bucket →
  ∃ name,
    slashed path = "gitgallery/meta/shards/" +:+ name +:+ ".json" ∧
    name ≠ EmptyString ∧ bucket = sanitizeBucket name.
Proof.
  intros (name & Hmatch & ->)%bucketFromShardFilePath_legacy_only.
  apply legacyPattern_matches in Hmatch as [Hpath Hne]. by exists name.
Qed.

Lemma bucketFromShardFilePath_recognises_legacy_layout_only_witness :
  ∃ name,
    slashed "gitgallery\meta\shards\2024-01-02.json"
    = "gitgallery/meta/shards/" +:+ name +:+ ".json" ∧
    name ≠ EmptyString ∧ "2024-01-02" = sanitizeBucket name.
Proof.
  apply (bucketFromShardFilePath_recognises_legacy_layout_only
           "gitgallery\meta\shards\2024-01-02.json" "2024-01-02").
  vm_compute. reflexivity.
Defined.

Lemma take_digits_first n s d rest :
  take_digits (S n) s = Some (d, rest) → ∃ c d', d = String c d' ∧ is_digit c = true.
Proof.
  simpl. destruct s as [|c s]; [done|]. destruct (is_digit c) eqn:Hc; [|done].
  destruct (take_digits n s) as [[d' rest']|]; [|done]. intros [= <- <-]. by exists c, d'.
Qed.

Lemma match_here_digits_first n rest at_start s caps :
  match_here (Digits (S n) :: rest) at_start s = Some caps →
  ∃ c d caps', caps = String c d :: caps' ∧ is_digit c = true.
Proof.
  cbn [match_here]. destruct (take_digits (S n) s) as [[d s']|] eqn:Hd; [|done].
  destruct (match_here rest false s') as [caps'|]; [|done].
  intros [= <-]. apply take_digits_first in Hd as (c & d' & -> & Hc). by exists c, d', caps'.
Qed.

Lemma bucketDateParts_year bucket year month day :
  bucketDateParts bucket = Some (year, month, day) →
  ∃ c rest, year = String c rest ∧ is_digit c = true.
Proof.
  unfold bucketDateParts.
  destruct (match_ _ bucket) as [[|y [|m [|d [|? ?]]]]|] eqn:Hmatch; try done.
  intros [= <- <- <-]. rewrite match_anchored in Hmatch.
  apply match_here_digits_first in Hmatch as (c & rest & caps & [= -> _] & Hc).
  by exists c, rest.
Qed.

(** X6. The path at which the store writes the shard of a dated bucket
    ([getShardPath] of a bucket of the form YYYY-MM-DD) and the path of
    the shard of the bucket [unknown] are not recognised by
    [bucketFromShardFilePath]: the walk over the metadata directory at
    the bootstrap passes over every shard in the layout that the store
    itself writes. *)
Theorem getShardPath_is_not_recognised (bucket : string) :
  is_Some (bucketDateParts bucket) ∨ bucket = "unknown" →
  bucketFromShardFilePath (getShardPath bucket) = None.
Proof.
  intros [[[[year month] day] Hparts]| ->]; [|vm_compute; reflexivity].
  destruct (bucketFromShardFilePath (getShardPath bucket)) as [b|] eqn:Hb; [|done].
  exfalso.
  apply bucketFromShardFilePath_recognises_legacy_layout_only in Hb as (name & Hpath & _).
  unfold getShardPath in Hpath. rewrite Hparts in Hpath.
  apply bucketDateParts_year in Hparts as (c & rest & -> & Hc).
  unfold slashed, META_ROOT in Hpath. str_simpl. simpl in Hpath.
  injection Hpath as Hchar _.
  destruct (decide (c = "\"%char)) as [->|]; [done|]. by subst c.
Qed.

Lemma getShardPath_is_not_recognised_witness :
  bucketFromShardFilePath (getShardPath "2024-01-02") = None.
Proof.
  apply getShardPath_is_not_recognised. left. vm_compute. by eexists.
Defined.

End BucketTheorems.
(** ** metaIndex.ts: documents and the reverse indices *)

Module DocumentFacts.
Import Js Text Json Github MetaIndex TextProps StoreProps DocProps RemovalFacts.

Lemma nonempty_string_truthy j s : nonempty_string j = Some s → truthy_string s = true.
Proof.
  destruct j as [[| | |x| |]|]; simpl; try done.
  destruct (truthy_string x) eqn:E; [|done]. by intros [= <-].
Qed.

Lemma readString_read x :
  readString match toOptionalString x with Some s => Val s | None => Null end
  = match toOptionalString x with Some s => Val s | None => Null end.
Proof.
  unfold toOptionalString. destruct (nonempty_string x) as [s|] eqn:E; [|done].
  simpl. by rewrite (nonempty_string_truthy _ _ E).
Qed.

Lemma readOptionalString_read x : readOptionalString (toOptionalString x) = toOptionalString x.
Proof.
  unfold toOptionalString. destruct (nonempty_string x) as [s|] eqn:E; [|done].
  simpl. by rewrite (nonempty_string_truthy _ _ E).
Qed.

Lemma readNumber_read x : readNumber (Fin <$> toNullableNumber x) = Fin <$> toNullableNumber x.
Proof. by destruct (toNullableNumber x). Qed.

Lemma normalizeEntry_stored now k raw f e :
  normalizeEntry now k raw = Some (f, e) → stored (f, e) ∧ plain (entry e).
Proof.
  unfold normalizeEntry. destruct (is_object raw); [|done].
  destruct (truthy_string _) eqn:Hfp; [|done].
  destruct (toOptionalString (field "repoPath" _)) as [rp|] eqn:Hrp; [|done].
  intros [= <- <-]. split.
  - split; [done|]. split; [done|]. by apply nonempty_string_truthy in Hrp.
  - unfold plain, readBack. cbn [entry fingerprint repoPath previewRepoPath createdAt fileSize
                                   contentHash uploadedAt assetId].
    by rewrite !readString_read, !readNumber_read, readOptionalString_read.
Qed.

Lemma normalizeShardDocument_canonical now bucket input :
  canonical (normalizeShardDocument now bucket input).
Proof.
  unfold canonical, normalizeShardDocument. cbn [Doc.entries Doc.bucket].
  split_and!.
  - apply (normalizeShardDocument_wf now bucket input).
  - destruct (entries_of _) as [raw|]; [|constructor].
    assert (∀ acc, Forall (λ ke, stored ke ∧ plain (entry ke.2)) acc →
              Forall (λ ke, stored ke ∧ plain (entry ke.2))
                (fold_left
                   (λ entries '(key, rawValue),
                      match normalizeEntry now key rawValue with
                      | Some (fingerprint, e) => assign fingerprint e entries
                      | None => entries
                      end) raw acc)) as H.
    { induction raw as [|[k v] raw IH]; intros acc Hacc; simpl; [done|].
      apply IH. destruct (normalizeEntry now k v) as [[f e]|] eqn:E; [|done].
      apply Forall_assign; [|done]. by eapply normalizeEntry_stored. }
    apply H. constructor.
  - destruct (nonempty_string _); apply sanitizeBucket_idem.
Qed.

Lemma assign_fresh {A : Type} k (v : A) l : k ∉ map fst l → assign k v l = l ++ [(k, v)].
Proof.
  induction l as [|[k' v'] l IH]; simpl; [done|]. intros Hk.
  rewrite not_elem_of_cons in Hk. destruct Hk as [Hne Hk].
  rewrite decide_False by done. by rewrite IH.
Qed.

Lemma readBack_all now (entries : list (string * MetaShardEntry)) : ∀ acc,
  NoDup (map fst entries) →
  (∀ k, k ∈ map fst entries → k ∉ map fst acc) →
  Forall (λ ke, stored ke ∧ plain (entry ke.2)) entries →
  fold_left
    (λ entries '(key, rawValue),
       match normalizeEntry now key rawValue with
       | Some (fingerprint, e) => assign fingerprint e entries
       | None => entries
       end)
    (map (λ '(k, e), (k, json_of_entry e)) entries) acc
  = acc ++ entries.
Proof.
  induction entries as [|[k e] entries IH]; intros acc Hnd Hfresh Hall; simpl.
  - by rewrite app_nil_r.
  - apply NoDup_cons in Hnd as [Hk Hnd]. apply Forall_cons in Hall as [[(Hkey & Hfp & Hrp) Hplain] Hall].
    cbn [fst snd] in *. subst k. rewrite normalizeEntry_json, Hfp, Hrp. cbn [andb].
    unfold plain in Hplain. rewrite Hplain.
    replace (mkShardEntry (entry e) (updatedAt e)) with e by by destruct e.
    rewrite assign_fresh by (apply Hfresh; simpl; apply elem_of_cons; by left).
    rewrite IH; [by rewrite <- app_assoc|done| |done].
    intros k Hin. rewrite map_app. simpl. rewrite elem_of_app, list_elem_of_singleton.
    intros [Hacc| ->]; [|done].
    eapply Hfresh; [|exact Hacc]. simpl. apply elem_of_cons. by right.
Qed.

Lemma lookup_key_remove_Some {A : Type} k x (v : A) l :
  lookup_key x (remove_key k l) = Some v → x ≠ k ∧ lookup_key x l = Some v.
Proof.
  intros H. destruct (decide (k = x)) as [->|Hne].
  - by rewrite lookup_key_remove in H.
  - by rewrite lookup_key_remove_ne in H.
Qed.

(** The paths that [registerPaths] records for the two paths of an entry. *)
Lemma registerPaths_paths fingerprint rp pv ix p :
  lookup_key p (pathToFingerprint (registerPaths fingerprint [Val rp; pv] ix))
  = if truthy_string p
       && (bool_decide (p = rp)
           || match pv with Val q => bool_decide (p = q) | _ => false end)
    then Some fingerprint
    else lookup_key p (pathToFingerprint ix).
Proof.
  assert (∀ (q : string) l, lookup_key p (assign q fingerprint l)
                            = if bool_decide (p = q) then Some fingerprint else lookup_key p l) as Hassign.
  { intros q l. case_bool_decide as E; [subst; apply lookup_key_assign|].
    by apply lookup_key_assign_ne. }
  unfold registerPaths. cbn [fold_left].
  destruct (truthy_string rp) eqn:Hrp, pv as [| |q]; try destruct (truthy_string q) eqn:Hq;
    cbn [pathToFingerprint]; rewrite ?Hassign;
    destruct (decide (p = rp)) as [Ep|Ep];
    rewrite ?(bool_decide_true _ Ep), ?(bool_decide_false _ Ep);
    try (destruct (decide (p = q)) as [Eq|Eq];
         rewrite ?(bool_decide_true _ Eq), ?(bool_decide_false _ Eq));
    rewrite ?orb_true_r, ?orb_false_r, ?andb_true_r, ?andb_false_r;
    try (exfalso; congruence);
    try rewrite Ep; try rewrite Eq; rewrite ?Hrp, ?Hq; try done;
    by destruct (truthy_string p).
Qed.

Lemma registerPaths_buckets fingerprint paths ix :
  fingerprintToBucket (registerPaths fingerprint paths ix) = fingerprintToBucket ix.
Proof. unfold registerPaths. by destruct (fold_left _ paths _) as [p2f set]. Qed.

End DocumentFacts.

Module IngestFacts.
Import Js Text Json Github MetaIndex TextProps StoreProps DocProps RemovalFacts DocumentFacts.

Lemma is_Some_lookup_assign {A : Type} k (v : A) f l :
  is_Some (lookup_key f l) → is_Some (lookup_key f (assign k v l)).
Proof.
  destruct (decide (k = f)) as [->|Hne]; [by rewrite lookup_key_assign|].
  by rewrite lookup_key_assign_ne.
Qed.

Lemma ingest_fold bucket (entries : list (string * MetaShardEntry)) : ∀ ix set seen,
  NoDup (map fst (seen ++ entries)) →
  Forall (λ ke, fingerprint (entry ke.2) = ke.1) entries →
  Forall (λ ke, truthy_string ke.1 = true → resolves bucket ix ke) seen →
  Forall (λ ke, truthy_string ke.1 = true →
                resolves bucket
                  (fold_left
                     (λ '(ix, bucketSet) '(_, e),
                        let fp := fingerprint (entry e) in
                        if truthy_string fp then
                          let ix := mkIndices (assign fp e (metaByFingerprint ix))
                                      (pathToFingerprint ix)
                                      (assign fp bucket (fingerprintToBucket ix))
                                      (bucketToFingerprints ix) (fingerprintToPaths ix) in
                          (registerPaths fp [Val (repoPath (entry e)); previewRepoPath (entry e)] ix,
                           set_add fp bucketSet)
                        else (ix, bucketSet))
                     entries (ix, set)).1 ke)
    (seen ++ entries).
Proof.
  induction entries as [|[k e] entries IH]; intros ix set seen Hnd Hkeys Hseen.
  - by rewrite app_nil_r.
  - apply Forall_cons in Hkeys as [Hk Hkeys]. cbn [fst snd] in Hk.
    cbn [fold_left]. rewrite Hk.
    replace (seen ++ (k, e) :: entries) with ((seen ++ [(k, e)]) ++ entries) in *
      by by rewrite <- app_assoc.
    destruct (truthy_string k) eqn:Hfp.
    + apply IH; [done|done|].
      assert (k ∉ map fst seen) as Hfresh.
      { rewrite !map_app in Hnd. apply NoDup_app in Hnd as [Hnd _].
        apply NoDup_app in Hnd as (_ & Hnd & _). intros Hin. apply (Hnd _ Hin).
        simpl. apply list_elem_of_singleton. done. }
      apply Forall_app. split.
      * apply Forall_forall. intros [k0 e0] Hin Ht.
        pose proof (proj1 (Forall_forall _ _) Hseen _ Hin Ht) as (Hm & Hb & Hp).
        cbn [fst snd] in *.
        assert (k ≠ k0) as Hne.
        { intros ->. apply Hfresh. apply list_elem_of_fmap. by exists (k0, e0). }
        split_and!.
        -- rewrite registerPaths_index. cbn [metaByFingerprint].
           by rewrite lookup_key_assign_ne.
        -- rewrite registerPaths_buckets. cbn [fingerprintToBucket].
           by rewrite lookup_key_assign_ne.
        -- intros Hrp. destruct (Hp Hrp) as (f & Hf & Htf & Hsome).
           rewrite registerPaths_paths, registerPaths_index. cbn [metaByFingerprint pathToFingerprint].
           destruct (_ && _).
           ++ exists k. split; [done|]. split; [done|]. by rewrite lookup_key_assign.
           ++ exists f. split; [done|]. split; [done|]. by apply is_Some_lookup_assign.
      * apply Forall_singleton. intros _. cbn [fst snd]. split_and!.
        -- rewrite registerPaths_index. cbn [metaByFingerprint]. apply lookup_key_assign.
        -- rewrite registerPaths_buckets. cbn [fingerprintToBucket]. apply lookup_key_assign.
        -- intros Hrp. exists k. rewrite registerPaths_paths, registerPaths_index.
           cbn [metaByFingerprint]. rewrite Hrp, bool_decide_true by done. cbn.
           split; [done|]. split; [done|]. by rewrite lookup_key_assign.
    + apply IH; [done|done|].
      apply Forall_app. split; [done|]. apply Forall_singleton. cbn [fst]. congruence.
Qed.

Lemma ingestShardDocument_resolves doc ix :
  doc_wf doc →
  Forall (λ ke, truthy_string ke.1 = true → resolves (Doc.bucket doc) (ingestShardDocument doc ix) ke)
    (Doc.entries doc).
Proof.
  intros [Hnd Hkeys]. unfold ingestShardDocument.
  pose proof (ingest_fold (Doc.bucket doc) (Doc.entries doc)
                (evictBucketEntries (Doc.bucket doc) ix) [] [] Hnd Hkeys (Forall_nil_2 _)) as H.
  cbn [app] in H. destruct (fold_left _ (Doc.entries doc) _) as [ix1 set1].
  eapply Forall_impl; [exact H|]. intros ke Hke Ht. exact (Hke Ht).
Qed.

End IngestFacts.

Section DocumentTheorems.
Import Js Text Json Github MetaIndex TextProps StoreProps DocProps.
Import StoreFacts RemovalFacts DocumentFacts IngestFacts Samples.

(** X7. Whatever JSON value [normalizeShardDocument] is given, the
    document it returns is canonical: no fingerprint occurs twice, every
    entry is stored under its own fingerprint, has a non-empty fingerprint
    and a non-empty repository path, carries [null] in place of every empty
    or ill-typed optional field, and the bucket is a sanitised name. *)
Theorem normalizeShardDocument_returns_canonical (now : Z) (bucket : string)
    (input : option json) :
  canonical (normalizeShardDocument now bucket input).
Proof. apply normalizeShardDocument_canonical. Qed.

(** X8. A canonical document survives the round trip through its JSON
    text: serialising it (as [persistShard] does) and normalising what is
    read (as [fetchShardDocument] does) gives the same document, with the
    entries in the same order, whatever the time and the bucket asked
    for. *)
Theorem canonical_document_reads_back_unchanged (now : Z) (bucket : string) (d : Doc.t) :
  canonical d →
  normalizeShardDocument now bucket (Some (json_of_doc d)) = d.
Proof.
  intros (Hnd & Hall & Hbucket). destruct d as [version b generatedAt entries].
  cbn [Doc.entries Doc.bucket] in *. unfold normalizeShardDocument.
  assert (entries_of (field "entries" (Some (json_of_doc (Doc.mk version b generatedAt entries))))
          = Some (map (λ '(k, e), (k, json_of_entry e)) entries)) as -> by reflexivity.
  rewrite (readBack_all now entries []); [|done|intros k _; apply not_elem_of_nil|done].
  cbn [app]. f_equal.
  change (nonempty_string _) with (if truthy_string b then Some b else None).
  destruct (truthy_string b) eqn:Hb; [done|].
  destruct b; [|done]. by vm_compute in Hbucket.
Qed.

Lemma canonical_document_reads_back_unchanged_witness :
  normalizeShardDocument 100 "unknown" (Some (json_of_doc sample_document)) = sample_document.
Proof.
  apply canonical_document_reads_back_unchanged.
  split; [|split].
  - apply NoDup_singleton.
  - apply Forall_singleton. repeat split; reflexivity.
  - vm_compute. reflexivity.
Defined.

(** X9. After [removeEntryFromCache] of a fingerprint, the fingerprint is
    in none of the indices keyed by fingerprint, the entries of the other
    fingerprints are where they were, and whatever [getMetaEntryFromCache]
    is asked, a fingerprint or a path, the entry it answers with is cached
    under another fingerprint. *)
Theorem removeEntryFromCache_forgets_fingerprint (fp : string) (ix : Indices) :
  let ix' := removeEntryFromCache fp ix in
  lookup_key fp (metaByFingerprint ix') = None ∧
  lookup_key fp (fingerprintToBucket ix') = None ∧
  lookup_key fp (fingerprintToPaths ix') = None ∧
  (∀ k, k ≠ fp → lookup_key k (metaByFingerprint ix') = lookup_key k (metaByFingerprint ix)) ∧
  ∀ x e, getMetaEntryFromCache x ix' = Some e →
         ∃ k, k ≠ fp ∧ lookup_key k (metaByFingerprint ix) = Some e.
Proof.
  intros ix'. assert (metaByFingerprint ix' = remove_key fp (metaByFingerprint ix)) as Hm
    by apply removeEntryFromCache_index.
  split_and!.
  - rewrite Hm. apply lookup_key_remove.
  - unfold ix', removeEntryFromCache. destruct (lookup_key fp (fingerprintToPaths ix));
      cbn [fingerprintToBucket]; apply lookup_key_remove.
  - unfold ix', removeEntryFromCache. destruct (lookup_key fp (fingerprintToPaths ix)) eqn:E;
      cbn [fingerprintToPaths]; [apply lookup_key_remove|done].
  - intros k Hk. rewrite Hm. by apply lookup_key_remove_ne.
  - intros x e. unfold getMetaEntryFromCache. rewrite Hm.
    destruct (lookup_key x (remove_key fp _)) as [direct|] eqn:Hx.
    + intros [= ->]. apply lookup_key_remove_Some in Hx as [? ?]. by exists x.
    + destruct (lookup_key x (pathToFingerprint ix')) as [resolved|]; [|done].
      destruct (truthy_string resolved); [|done].
      intros [? ?]%lookup_key_remove_Some. by exists resolved.
Qed.

(** X10. After [ingestShardDocument] of a document whose entries are
    keyed by their fingerprints, every entry with a non-empty fingerprint
    is the answer of [getMetaEntryFromCache] to its fingerprint, the
    fingerprint belongs to the bucket of the document, and the repository
    path of the entry, when it is not empty, resolves to a cached entry. *)
Theorem ingestShardDocument_makes_entries_resolvable
    (doc : Doc.t) (ix : Indices) (fp : string) (e : MetaShardEntry) :
  doc_wf doc →
  lookup_key fp (Doc.entries doc) = Some e →
  truthy_string fp = true →
  let ix' := ingestShardDocument doc ix in
  getMetaEntryFromCache fp ix' = Some e ∧
  lookup_key fp (fingerprintToBucket ix') = Some (Doc.bucket doc) ∧
  (truthy_string (repoPath (entry e)) = true →
   is_Some (getMetaEntryFromCache (repoPath (entry e)) ix')).
Proof.
  intros Hwf Hl Hfp ix'.
  pose proof (ingestShardDocument_resolves doc ix Hwf) as Hall.
  rewrite Forall_forall in Hall.
  destruct (Hall (fp, e) (lookup_key_elem _ _ _ Hl) Hfp) as (Hm & Hb & Hp). cbn [fst snd] in *.
  fold ix' in Hm, Hb, Hp. split_and!.
  - unfold getMetaEntryFromCache. by rewrite Hm.
  - done.
  - intros Hrp. destruct (Hp Hrp) as (f & Hf & Htf & Hsome).
    unfold getMetaEntryFromCache.
    destruct (lookup_key (repoPath (entry e)) (metaByFingerprint ix')); [done|].
    by rewrite Hf, Htf.
Qed.

Lemma ingestShardDocument_makes_entries_resolvable_witness :
  let ix' := ingestShardDocument sample_document noIndices in
  getMetaEntryFromCache (fingerprint sample_entry) ix' = Some (mkShardEntry sample_entry 50) ∧
  lookup_key (fingerprint sample_entry) (fingerprintToBucket ix') = Some "2023-11-14" ∧
  (truthy_string (repoPath sample_entry) = true →
   is_Some (getMetaEntryFromCache (repoPath sample_entry) ix')).
Proof.
  apply (ingestShardDocument_makes_entries_resolvable sample_document noIndices
           (fingerprint sample_entry) (mkShardEntry sample_entry 50)).
  - split; [apply NoDup_singleton|]. apply Forall_singleton. reflexivity.
  - reflexivity.
  - reflexivity.
Defined.

End DocumentTheorems.
(** ** githubClient.ts: reading, writing and deleting one file *)

Section GithubTheorems.
Import Js Github Samples.

(** X11. [fetchFileSha] answers with the version of the file at the path,
    and with [undefined] when the path is a directory or does not exist:
    the 404 of the backend is never thrown, the only error is a request
    that failed without a response.  It changes no file and issues no
    write. *)
Theorem fetchFileSha_reads_the_version (r : remote) (path : string) :
  match fetchFileSha path r with
  | (Ok sha, r') => sha = f_sha <$> lookup_key path (files r)
  | (Throw e, r') => e = NetworkFailure
  end ∧
  files (fetchFileSha path r).2 = files r ∧
  issued (fetchFileSha path r).2 = issued r.
Proof.
  unfold fetchFileSha, getContent, try_catch, bind, request_, ret, throw.
  destruct r as [fs h fl lg]; simpl.
  destruct fl as [|[|] fl]; simpl; try done;
    destruct (lookup_key path fs) as [f|] eqn:Ef; simpl; try done;
    destruct (children path fs) eqn:Ec; simpl; done.
Qed.

(** X12. A [putFile] to which the caller passes a SHA sends one request,
    the write with that SHA, without reading the path first.  It completes
    only when the path holds a file in exactly that version, which is then
    replaced by the new content; when it throws, the files are as they
    were. *)
Theorem putFile_with_sha_is_conditional (r : remote) (path message body sha : string) :
  match putFile path message body (Some sha) r with
  | (Ok new, r') =>
      f_sha <$> lookup_key path (files r) = Some sha ∧
      new = Some (blob_hash r (Bytes body)) ∧
      lookup_key path (files r') = Some (mkFile (Bytes body) (blob_hash r (Bytes body)))
  | (Throw e, r') => files r' = files r
  end ∧
  issued (putFile path message body (Some sha) r).2
  = issued r ++ [Put path message (Bytes body) (Some sha)].
Proof.
  unfold putFile, createOrUpdateFileContents, bind, request_, ret.
  destruct r as [fs h fl lg]; simpl.
  destruct fl as [|[|] fl]; simpl; try done;
    destruct (lookup_key path fs) as [f|] eqn:Ef; simpl; try done;
    (destruct (decide (f_sha f = sha)) as [<-|]; simpl; [|done]);
    by rewrite lookup_key_assign.
Qed.

(** X13. When [deleteFile] returns, on a repository in which no file has
    an empty SHA, there is no file at the path, every other file is as it
    was, and at most one request was issued: the delete with the SHA that
    the path had. *)
Theorem deleteFile_removes_only_the_path (r r' : remote) (path message : string) :
  (∀ f, lookup_key path (files r) = Some f → truthy_string (f_sha f) = true) →
  deleteFile path message r = (Ok tt, r') →
  lookup_key path (files r') = None ∧
  (∀ p, p ≠ path → lookup_key p (files r') = lookup_key p (files r)) ∧
  issued r' = issued r ++ match lookup_key path (files r) with
                          | Some f => [Delete path message (f_sha f)]
                          | None => []
                          end.
Proof.
  intros Hsha. unfold deleteFile, fetchFileSha, deleteFile_, getContent, try_catch, bind,
    request_, ret, throw.
  destruct r as [fs h fl lg]; simpl in *.
  destruct fl as [|[|] [|[|] fl]]; simpl; try done;
    destruct (lookup_key path fs) as [f|] eqn:Ef; simpl;
    try (destruct (children path fs) eqn:Ec; simpl; intros [= <-]; simpl;
         by rewrite ?app_nil_r);
    rewrite ?(Hsha f eq_refl); simpl; rewrite ?Ef; simpl; try done;
    rewrite ?decide_True by done; simpl; intros [= <-]; simpl;
    (split; [apply lookup_key_remove|]); (split; [|done]);
    intros p Hp; by apply lookup_key_remove_ne.
Qed.

Lemma deleteFile_removes_only_the_path_witness :
  let r := demo_remote [("a.jpg", mkFile (Bytes "AAAA") "blob:AAAA");
                        ("b.jpg", mkFile (Bytes "BBBB") "blob:BBBB")] in
  let r' := (deleteFile "a.jpg" "Delete a.jpg" r).2 in
  lookup_key "a.jpg" (files r') = None ∧
  (∀ p, p ≠ "a.jpg" → lookup_key p (files r') = lookup_key p (files r)) ∧
  issued r' = issued r ++ [Delete "a.jpg" "Delete a.jpg" "blob:AAAA"].
Proof.
  intros r r'.
  apply (deleteFile_removes_only_the_path r r' "a.jpg" "Delete a.jpg").
  - intros f [= <-]. reflexivity.
  - reflexivity.
Defined.

End GithubTheorems.
(** ** cloudCache.ts: what a pruning run keeps, and when it runs *)

Module PruneFacts.
Import Js CloudCache CacheProps.

Lemma scan_drops_unreadable now items : ∀ listing totalSize stats e,
  e ∈ (scan now items listing totalSize stats).1.1 →
  ∀ item, item ∈ items → readManifest item = None → name e ≠ name item.
Proof.
  induction items as [|item rest IH]; intros listing totalSize stats e; simpl.
  - intros _ ? Hin. by apply elem_of_nil in Hin.
  - destruct (readManifest item) as [m|] eqn:Em.
    + destruct (agedOut now m) eqn:Ea; intros Hin item' Hi Hm;
        (apply elem_of_cons in Hi as [->|Hi]; [congruence|by eapply IH]).
    + intros Hin item' Hi Hm. pose proof Hin as Hin'.
      apply scan_keeps in Hin' as [Hin' _].
      apply elem_of_deleteDir in Hin' as [_ Hne].
      apply elem_of_cons in Hi as [->|Hi]; [done|by eapply IH].
Qed.

Lemma prune_subset now entries e : e ∈ prune now entries → e ∈ entries.
Proof.
  unfold prune. destruct entries as [|e0 rest]; [done|].
  pose proof (scan_keeps now (e0 :: rest) (e0 :: rest) 0 [] e) as Hscan.
  destruct (scan _ _ _ _ _) as [[l t] s]. simpl in Hscan.
  destruct (Z.leb _ _); intros Hin.
  - by apply Hscan.
  - apply evict_keeps in Hin. by apply Hscan.
Qed.

Lemma prune_drops_unreadable now entries e :
  e ∈ prune now entries → ∀ item, item ∈ entries → readManifest item = None → name e ≠ name item.
Proof.
  unfold prune. destruct entries as [|e0 rest]; [by intros ?%elem_of_nil|].
  pose proof (scan_drops_unreadable now (e0 :: rest) (e0 :: rest) 0 [] e) as Hscan.
  destruct (scan _ _ _ _ _) as [[l t] s]. simpl in Hscan.
  destruct (Z.leb _ _); intros Hin.
  - by apply Hscan.
  - apply evict_keeps in Hin. by apply Hscan.
Qed.

(** On a listing of fresh entries with readable manifests the first loop
    deletes nothing and adds up their sizes. *)
Lemma scan_fresh now items : ∀ listing totalSize stats,
  Forall (λ e, ∃ m, readManifest e = Some m ∧ agedOut now m = false) items →
  ∃ stats',
    scan now items listing totalSize stats = (listing, totalSize + cachedSize items, stats').
Proof.
  induction items as [|item rest IH]; intros listing totalSize stats Hall; simpl.
  - exists stats. do 2 f_equal. unfold cachedSize. simpl. lia.
  - apply Forall_cons in Hall as [(m & Hm & Hage) Hall]. rewrite Hm. cbv zeta. rewrite Hage.
    destruct (IH listing (totalSize + entrySize item m) (stats ++ [statOf item m])%list Hall)
      as (stats' & ->).
    exists stats'. do 2 f_equal. lia.
Qed.

End PruneFacts.

Section PruneTheorems.
Import Js CloudCache CacheProps PruneFacts Samples.



(** X15. A pruning run deletes nothing from a cache directory in which
    every item has a readable manifest and is within its maximum age, and
    whose measured size is within the budget of 400 MiB. *)
Theorem prune_leaves_a_fresh_cache_within_budget (now : Z) (entries : list EntryDir) :
  Forall (λ e, ∃ m, readManifest e = Some m ∧ agedOut now m = false) entries →
  cachedSize entries ≤ CACHE_SIZE_LIMIT_BYTES →
  prune now entries = entries.
Proof.
  intros Hall Hsize. unfold prune. destruct entries as [|e0 rest]; [done|].
  destruct (scan_fresh now (e0 :: rest) (e0 :: rest) 0 [] Hall) as (stats' & ->).
  rewrite Z.add_0_l. by rewrite (proj2 (Z.leb_le _ _) Hsize).
Qed.

Lemma prune_leaves_a_fresh_cache_within_budget_witness :
  prune 2000 [without_original] = [without_original].
Proof.
  apply prune_leaves_a_fresh_cache_within_budget.
  - apply Forall_singleton. eexists. split; reflexivity.
  - vm_compute. discriminate.
Defined.

(** X16. Pruning is throttled per repository: after a run at a time other
    than 0, a call of [maybePruneRepo] for the same repository less than
    four hours later changes nothing, neither the cache directory nor the
    time of the last run.  A run never touches the directory of another
    repository. *)
Theorem maybePruneRepo_is_throttled (key : string) (now later : Z) (st : state) :
  due now (lookup_key key (repoPruneTracker st)) = true →
  now ≠ 0 →
  later - now < PRUNE_INTERVAL_MS →
  maybePruneRepo key later (maybePruneRepo key now st) = maybePruneRepo key now st ∧
  ∀ other, other ≠ key →
    lookup_key other (repoDirs (maybePruneRepo key now st)) = lookup_key other (repoDirs st).
Proof.
  intros Hdue Hnow Hlater.
  assert (lookup_key key (repoPruneTracker (maybePruneRepo key now st)) = Some now) as Htracker.
  { unfold maybePruneRepo. rewrite Hdue.
    destruct (lookup_key key (repoDirs st)); cbn [repoPruneTracker]; apply lookup_key_assign. }
  split.
  - unfold maybePruneRepo at 1. unfold due. rewrite Htracker.
    by rewrite (proj2 (Z.eqb_neq _ _) Hnow), (proj2 (Z.ltb_lt _ _) Hlater).
  - intros other Hne. unfold maybePruneRepo. rewrite Hdue.
    destruct (lookup_key key (repoDirs st)); cbn [repoDirs]; [|done].
    by apply lookup_key_assign_ne.
Qed.

Lemma maybePruneRepo_is_throttled_witness :
  let st := mkState [] [("o__r__main", [with_original; without_original])] in
  maybePruneRepo "o__r__main" 3000 (maybePruneRepo "o__r__main" 2000 st)
  = maybePruneRepo "o__r__main" 2000 st ∧
  ∀ other, other ≠ "o__r__main" →
    lookup_key other (repoDirs (maybePruneRepo "o__r__main" 2000 st)) = lookup_key other (repoDirs st).
Proof.
  intros st. apply (maybePruneRepo_is_throttled "o__r__main" 2000 3000 st).
  - reflexivity.
  - discriminate.
  - reflexivity.
Defined.

End PruneTheorems.
(** ** jobQueue.ts: a job that never settles *)

Module StallFacts.
Import Promise JobQueue.

Lemma enqueue_stalled q job now :
  current q = None →
  ∃ q', enqueue q job now = (q', None, None) ∧ current q' = None.
Proof. intros Hq. unfold enqueue. rewrite Hq. simpl. by eexists. Qed.

Lemma enqueue_all_stalled jobs : ∀ q k r s,
  current q = None → enqueue_all q jobs !! k = Some (r, s) → r = None ∧ s = None.
Proof.
  induction jobs as [|[job now] jobs IH]; intros q k r s Hq; simpl; [done|].
  destruct (enqueue_stalled q job now Hq) as (q' & -> & Hq').
  destruct k as [|k]; simpl; [by intros [= <- <-]|]. by apply IH.
Qed.

Lemma enqueue_unsettled q job now q' s :
  enqueue q job now = (q', None, s) → current q' = None.
Proof.
  unfold enqueue. destruct (then_ (current q) now (call job)) as [wrapped started].
  intros [= <- Hw _]. simpl. by destruct wrapped as [[? ?]|].
Qed.

End StallFacts.

Section StallTheorems.
Import Promise JobQueue StallFacts.

(** X17. A job whose promise never settles stalls the queue: no job that
    is enqueued after it is ever called, and the promise that [enqueue]
    returns for such a job never settles.  The recovery of the chain covers
    rejections only. *)
Theorem JobQueue_stalls_behind_unsettled_job (t0 : nat) (jobs : list (Job * nat)) (i k : nat)
    (s1 : option nat) (r2 : promise) (s2 : option nat) :
  (i < k)%nat →
  enqueue_all (new t0) jobs !! i = Some (None, s1) →
  enqueue_all (new t0) jobs !! k = Some (r2, s2) →
  r2 = None ∧ s2 = None.
Proof.
  generalize (new t0). revert i k. induction jobs as [|[job now] jobs IH]; intros i k q Hik; simpl;
    [done|].
  destruct (enqueue q job now) as [[q' r] s] eqn:Hq.
  destruct i as [|i], k as [|k]; simpl; try lia.
  - intros [= -> ->]. apply enqueue_unsettled in Hq. by apply enqueue_all_stalled.
  - apply IH. lia.
Qed.

Lemma JobQueue_stalls_behind_unsettled_job_witness :
  (None : promise) = None ∧ (None : option nat) = None.
Proof.
  apply (JobQueue_stalls_behind_unsettled_job 0
           [(λ _, None, 1%nat); (λ _, Some (2%nat, Fulfilled), 3%nat)] 0 1 (Some 1%nat) None None).
  - lia.
  - reflexivity.
  - reflexivity.
Defined.

End StallTheorems.
(** ** index.ts: the block list of the automatic sync *)

Module BlocklistFacts.
Import Js Text Fingerprint Utils Sync SyncProps IndexProps SyncFacts.

Lemma elem_of_set_add x y set : x ∈ MetaIndex.set_add y set ↔ x = y ∨ x ∈ set.
Proof.
  unfold MetaIndex.set_add. case_bool_decide as Hin.
  - split; [by right|]. intros [->|?]; done.
  - rewrite elem_of_app, list_elem_of_singleton. tauto.
Qed.

Lemma elem_of_set_delete x y set : x ∈ MetaIndex.set_delete y set ↔ x ≠ y ∧ x ∈ set.
Proof.
  unfold MetaIndex.set_delete. rewrite list_elem_of_In, filter_In, <- list_elem_of_In.
  rewrite negb_true_iff, bool_decide_eq_false. tauto.
Qed.

Lemma elem_of_loaded_set x (fingerprints : list string) : ∀ acc,
  x ∈ fold_left (λ set fp, if truthy_string fp then MetaIndex.set_add fp set else set)
        fingerprints acc
  ↔ x ∈ acc ∨ (x ∈ fingerprints ∧ truthy_string x = true).
Proof.
  induction fingerprints as [|fp rest IH]; intros acc; simpl.
  - split; [by left|]. intros [?|[[]%elem_of_nil _]]. done.
  - rewrite IH, elem_of_cons. destruct (truthy_string fp) eqn:Hfp.
    + rewrite elem_of_set_add. split.
      * intros [[->|?]|[? ?]]; [|by left|by right; split; [right|]].
        right. split; [by left|done].
      * intros [?|[[->|?] ?]]; [by left; right|by left; left|by right].
    + split.
      * intros [?|[? ?]]; [by left|by right; split; [right|]].
      * intros [?|[[->|?] ?]]; [by left|congruence|by right].
Qed.

Lemma elem_of_getAutoSyncBlocklist x d :
  x ∈ LocalStore.getAutoSyncBlocklist d
  ↔ x ∈ LocalStore.auto_sync_blocklist d ∧ truthy_string x = true.
Proof.
  unfold LocalStore.getAutoSyncBlocklist.
  rewrite list_elem_of_In, filter_In, <- list_elem_of_In. done.
Qed.

(** Loading the block list makes the set in memory a mirror of the table. *)
Lemma ensureAutoSyncBlocklist_mirrors w :
  (autoSyncBlocklistLoaded w = true → blocklist_mirrors w) →
  let w' := (ensureAutoSyncBlocklist w).2 in
  (ensureAutoSyncBlocklist w).1 = Ok tt ∧
  blocklist_mirrors w' ∧ autoSyncBlocklistLoaded w' = true ∧ db w' = db w.
Proof.
  intros Hw. unfold ensureAutoSyncBlocklist, modify. cbn [fst snd].
  destruct (autoSyncBlocklistLoaded w) eqn:Hl; [by auto|].
  split; [done|]. split; [|done]. intros x. cbn [autoSyncBlocklist set_blocklist db].
  rewrite elem_of_loaded_set.
  split; [intros [[]%elem_of_nil|[? ?]]; done|]. intros Hx. right. split; [done|].
  by apply elem_of_getAutoSyncBlocklist in Hx as [? ?].
Qed.

Lemma blockAutoSyncFingerprint_run fp w :
  truthy_string fp = true →
  blockAutoSyncFingerprint fp w
  = let w1 := (ensureAutoSyncBlocklist w).2 in
    (Ok tt,
     if isAutoSyncBlockedFingerprint fp w1 then w1
     else set_blocklist (MetaIndex.set_add fp (autoSyncBlocklist w1)) (autoSyncBlocklistLoaded w1)
            (set_db (LocalStore.addAutoSyncBlock fp (db w1)) w1)).
Proof.
  intros Hfp. unfold blockAutoSyncFingerprint. rewrite Hfp.
  unfold ensureAutoSyncBlocklist, in_db, bind, modify, gets, ret. cbn [negb fst snd].
  by destruct (isAutoSyncBlockedFingerprint fp _).
Qed.

Lemma unblockAutoSyncFingerprint_run fp w :
  truthy_string fp = true →
  unblockAutoSyncFingerprint fp w
  = let w1 := (ensureAutoSyncBlocklist w).2 in
    (Ok tt,
     if isAutoSyncBlockedFingerprint fp w1 then
       set_blocklist (MetaIndex.set_delete fp (autoSyncBlocklist w1)) (autoSyncBlocklistLoaded w1)
         (set_db (LocalStore.removeAutoSyncBlock fp (db w1)) w1)
     else w1).
Proof.
  intros Hfp. unfold unblockAutoSyncFingerprint. rewrite Hfp.
  unfold ensureAutoSyncBlocklist, in_db, bind, modify, gets, ret. cbn [negb fst snd].
  by destruct (isAutoSyncBlockedFingerprint fp _).
Qed.

End BlocklistFacts.

Section BlocklistTheorems.
Import Js Text Fingerprint Utils Sync SyncProps IndexProps SyncFacts BlocklistFacts Samples.



End BlocklistTheorems.
(** ** index.ts: an upload batch always comes to rest *)

Module ReturnFacts.
Import Js RunProps.

Section Returns.
Context {S : Type}.

Lemma returns_ret {A : Type} (a : A) : returns (@ret S A a).
Proof. intros s. by eexists _, _. Qed.

Lemma returns_gets {A : Type} (f : S → A) : returns (gets f).
Proof. intros s. by eexists _, _. Qed.

Lemma returns_modify (f : S → S) : returns (modify f).
Proof. intros s. by eexists _, _. Qed.

Lemma returns_bind {A B : Type} (m : M S A) (k : A → M S B) :
  returns m → (∀ a, returns (k a)) → returns (bind m k).
Proof.
  intros Hm Hk s. destruct (Hm s) as (a & s1 & E). unfold bind. rewrite E. apply Hk.
Qed.

Lemma returns_try_catch {A : Type} (m : M S A) h :
  (∀ e, returns (h e)) → returns (try_catch m h).
Proof.
  intros Hh s. unfold try_catch. destruct (m s) as [[a|e] s1]; [by eexists _, _|apply Hh].
Qed.

Lemma returns_finally {A : Type} (m : M S A) cleanup : returns m → returns (finally m cleanup).
Proof.
  intros Hm s. destruct (Hm s) as (a & s1 & E). unfold finally. rewrite E. by eexists _, _.
Qed.

Lemma returns_for_each {A : Type} (items : list A) (body : A → M S unit) :
  (∀ x, returns (body x)) → returns (for_each items body).
Proof.
  intros Hbody. induction items as [|x rest IH]; simpl; [apply returns_ret|].
  apply returns_bind; [apply Hbody|]. intros _. apply IH.
Qed.

Lemma bind_run {A B : Type} (m : M S A) (k : A → M S B) s a s' :
  m s = (Ok a, s') → bind m k s = k a s'.
Proof. intros E. unfold bind. by rewrite E. Qed.

End Returns.

Create HintDb returns.
#[global] Hint Resolve returns_ret returns_gets returns_modify : returns.

Ltac returns_tac :=
  repeat first
    [ solve [eauto 2 with returns]
    | apply returns_bind; [|intros ?]
    | apply returns_try_catch; intros ?
    | apply returns_for_each; intros ?
    | match goal with
      | |- returns (match ?x with _ => _ end) => destruct x
      | |- returns (let '(_, _) := ?x in _) => destruct x
      end ].

End ReturnFacts.

Module BatchFacts.
Import Js Text Fingerprint Utils Sync SyncProps IndexProps RunProps SyncFacts ReturnFacts.

Lemma pause_returns : returns pause.
Proof. apply returns_modify. Qed.

Lemma in_db_returns f : returns (in_db f).
Proof. apply returns_modify. Qed.

Lemma now_returns : returns now.
Proof. apply returns_gets. Qed.

Lemma setSyncStatus_returns patch : returns (setSyncStatus patch).
Proof. apply returns_modify. Qed.

Lemma recordCompletion_returns event : returns (recordCompletion event).
Proof. apply returns_modify. Qed.

Lemma release_returns : returns release.
Proof. apply returns_modify. Qed.

Lemma ensureAutoSyncBlocklist_returns : returns ensureAutoSyncBlocklist.
Proof. apply returns_modify. Qed.

Lemma refreshUploadIndexCache_returns : returns refreshUploadIndexCache.
Proof. apply returns_modify. Qed.

Lemma updateIndexCacheForRecord_returns record : returns (updateIndexCacheForRecord record).
Proof. apply returns_modify. Qed.

Lemma removeFromIndexCache_returns fp assetId : returns (removeFromIndexCache fp assetId).
Proof. apply returns_modify. Qed.

#[global] Hint Resolve pause_returns in_db_returns now_returns setSyncStatus_returns
  recordCompletion_returns release_returns ensureAutoSyncBlocklist_returns
  refreshUploadIndexCache_returns updateIndexCacheForRecord_returns
  removeFromIndexCache_returns : returns.

Lemma ensureUploadIndexCache_returns : returns ensureUploadIndexCache.
Proof. unfold ensureUploadIndexCache. returns_tac. Qed.

Lemma prepareOnDevice_returns a : returns (prepareOnDevice a).
Proof. unfold prepareOnDevice. returns_tac. Qed.

Lemma requestDownload_returns a : returns (requestDownload a).
Proof. unfold requestDownload. returns_tac. Qed.

#[global] Hint Resolve ensureUploadIndexCache_returns prepareOnDevice_returns
  requestDownload_returns : returns.

Lemma prepareLoop_returns skipBlocked assets : ∀ prepared retryable,
  returns (prepareLoop skipBlocked assets prepared retryable).
Proof.
  induction assets as [|a rest IH]; intros prepared retryable; cbn [prepareLoop]; returns_tac.
  all: destruct (tryRegister _ _) as [[|] ?]; apply IH.
Qed.

Lemma downloadLoop_returns retryable : returns (downloadLoop retryable).
Proof. induction retryable as [|a rest IH]; cbn [downloadLoop]; returns_tac. Qed.

Lemma retryLoop_returns retryable : ∀ prepared, returns (retryLoop retryable prepared).
Proof.
  induction retryable as [|a rest IH]; intros prepared; cbn [retryLoop]; returns_tac.
Qed.

#[global] Hint Resolve prepareLoop_returns downloadLoop_returns retryLoop_returns : returns.

Lemma prepareAssetsForUpload_returns assets options :
  returns (prepareAssetsForUpload assets options).
Proof. unfold prepareAssetsForUpload. returns_tac. Qed.

Lemma ensureMetaLoaded_ready w : metaReady w = true → ensureMetaLoaded false w = (Ok tt, w).
Proof. intros H. unfold ensureMetaLoaded, bind, ret, gets. by rewrite H. Qed.

Lemma pause_metaReady w : metaReady (pause w).2 = metaReady w.
Proof. destruct (pause_run w) as (c & rest & ->). done. Qed.

(** The end of a batch leaves it at rest. *)
Lemma finishBatch_at_rest prepared processed failed dc w :
  ∃ w', finishBatch prepared processed failed dc w = (Ok tt, w') ∧ at_rest w'.
Proof.
  unfold finishBatch, bind, gets, setSyncStatus, recordCompletion, now, release, modify, ret.
  destruct (token w); destruct dc as [[|i ids]|]; eexists; (split; [reflexivity|]);
    repeat split.
Qed.

End BatchFacts.

Section BatchTheorems.
Import Js Text Fingerprint Utils Sync SyncProps IndexProps RunProps SyncFacts ReturnFacts.
Import BatchFacts Samples.



End BatchTheorems.
(** ** index.ts: bulk deletion and the clean-up of the local index *)

Module CleanupFacts.
Import Js Text Fingerprint Utils Sync SyncProps IndexProps RunProps SyncFacts ReturnFacts.
Import BatchFacts.

(** One turn of the loop of [deleteRepoFilesBulk]: the path goes to one of
    the two lists, whether [deleteRepoFile] returns or throws. *)
Lemma bulkDelete_turn path deleted failed err w :
  ∃ d f err' w',
    try_catch
      (deleteRepoFile path (mkDeleteOptions true true) ;;
       ret (deleted ++ [path], failed, err))
      (λ error,
         setSyncStatus (λ s, mkStatus (running s) (pendingUploads s) (completedUploads s)
                               (isDeleting s) (lastBatchTotal s) (lastBatchUploaded s)
                               (lastBatchType s) (Some (message_of error))) ;;
         ret (deleted, failed ++ [path], Some (message_of error))) w
    = (Ok (deleted ++ d, failed ++ f, err'), w') ∧
    ((d = [path] ∧ f = [] ∧ err' = err) ∨ (d = [] ∧ f = [path] ∧ is_Some err')).
Proof.
  unfold try_catch, bind at 1.
  destruct (deleteRepoFile path _ w) as [[u|e] w1].
  - exists [path], [], err, w1. rewrite app_nil_r. split; [done|]. by left.
  - eexists [], [path], _, _. rewrite app_nil_r. split; [reflexivity|]. right. by eauto.
Qed.

Lemma bulkDeleteLoop_spec total paths : ∀ deleted failed processed err w,
  ∃ d f err' w',
    bulkDeleteLoop total paths deleted failed processed err w
    = (Ok (deleted ++ d, failed ++ f, err'), w') ∧
    d ++ f ≡ₚ paths ∧ d `sublist_of` paths ∧ f `sublist_of` paths ∧
    (paths ≠ [] → syncStatus w' = deleting total (processed + Z.of_nat (length paths)) err'
                                    (syncStatus w')) ∧
    (paths = [] → w' = w ∧ err' = err).
Proof.
  induction paths as [|path rest IH]; intros deleted failed processed err w; cbn [bulkDeleteLoop].
  - exists [], [], err, w. rewrite !app_nil_r. by repeat split.
  - destruct (bulkDelete_turn path deleted failed err w) as (d1 & f1 & err1 & w1 & Hturn & Hcase).
    rewrite (bind_run _ _ _ _ _ Hturn). cbv beta iota.
    unfold bind at 1, setSyncStatus at 1, modify at 1. cbv beta iota.
    match goal with |- context [bulkDeleteLoop total rest _ _ _ _ ?w2] =>
      destruct (IH (deleted ++ d1) (failed ++ f1) (processed + 1) err1 w2)
        as (d2 & f2 & err2 & w' & Hloop & Hperm & Hd & Hf & Hstatus & Hsame)
    end.
    rewrite Hloop. exists (d1 ++ d2), (f1 ++ f2), err2, w'.
    split; [by rewrite <- !app_assoc|].
    destruct Hcase as [(-> & -> & _)|(-> & -> & _)]; cbn [app].
    + split; [by rewrite Hperm|]. split; [by apply sublist_skip|]. split; [by apply sublist_cons|].
      split; [|done]. intros _. destruct rest as [|p rest'].
      * destruct (Hsame eq_refl) as [-> ->]. cbn. f_equal; lia.
      * rewrite Hstatus by done. cbn [length]. unfold deleting. f_equal; try done. lia.
    + split; [by rewrite <- Permutation_middle, Hperm|].
      split; [by apply sublist_cons|]. split; [by apply sublist_skip|].
      split; [|done]. intros _. destruct rest as [|p rest'].
      * destruct (Hsame eq_refl) as [-> ->]. cbn. f_equal; lia.
      * rewrite Hstatus by done. cbn [length]. unfold deleting. f_equal; try done. lia.
Qed.

End CleanupFacts.

Module VerifyFacts.
Import Js Text Fingerprint Utils Sync SyncProps IndexProps RunProps SyncFacts ReturnFacts.
Import BatchFacts StoreFacts.

Lemma insertRecord_perm r sorted : LocalStore.insertRecord r sorted ≡ₚ r :: sorted.
Proof.
  induction sorted as [|r' rest IH]; simpl; [done|].
  destruct (LocalStore.before r r'); [done|]. rewrite IH. apply Permutation_swap.
Qed.

Lemma getAssets_perm d : LocalStore.getAssets d ≡ₚ map snd (LocalStore.assets d).
Proof.
  unfold LocalStore.getAssets.
  assert (∀ l acc, fold_left (λ sorted r, LocalStore.insertRecord r sorted) l acc ≡ₚ acc ++ l) as H.
  { induction l as [|r rest IH]; intros acc; simpl.
    - by rewrite app_nil_r.
    - rewrite IH, insertRecord_perm. by rewrite <- Permutation_middle. }
  apply (H _ []).
Qed.

Lemma insertEntry_perm e sorted : MetaIndex.insertEntry e sorted ≡ₚ e :: sorted.
Proof.
  induction sorted as [|e' rest IH]; simpl; [done|].
  destruct (MetaIndex.uploadedFirst e e'); [done|]. rewrite IH. apply Permutation_swap.
Qed.

Lemma getCachedMetaEntries_perm ix :
  MetaIndex.getCachedMetaEntries None ix ≡ₚ map snd (MetaIndex.metaByFingerprint ix).
Proof.
  unfold MetaIndex.getCachedMetaEntries.
  assert (∀ l acc, fold_left (λ sorted e, MetaIndex.insertEntry e sorted) l acc ≡ₚ acc ++ l) as H.
  { induction l as [|r rest IH]; intros acc; simpl.
    - by rewrite app_nil_r.
    - rewrite IH, insertEntry_perm. by rewrite <- Permutation_middle. }
  apply (H _ []).
Qed.

Lemma ensureUploadIndexCache_run w :
  ∃ w', ensureUploadIndexCache w = (Ok tt, w') ∧ db w' = db w ∧ meta w' = meta w ∧
        metaReady w' = metaReady w.
Proof.
  unfold ensureUploadIndexCache, bind, gets, refreshUploadIndexCache, modify, ret.
  destruct (uploadIndexCache w); eexists; split; reflexivity || done.
Qed.

Lemma ensureMetaLoaded_db force w r w' : ensureMetaLoaded force w = (r, w') → db w' = db w.
Proof.
  unfold ensureMetaLoaded. unfold bind at 1.
  destruct force; unfold modify at 1, ret at 1; cbv beta iota;
    unfold bind at 1, gets at 1; cbv beta iota;
    match goal with |- context [if ?b then _ else _] => destruct b end;
    try (by intros [= _ <-]);
    unfold bind; rewrite in_meta_run;
    match goal with |- context [MetaIndex.loadMetaIndex ?s] =>
      destruct (MetaIndex.loadMetaIndex s) as [[c|e] s1]
    end; by intros [= _ <-].
Qed.

(** The loop of [verifyAndCleanUploadIndex]: the rows that are left were
    there before, and none of them has the fingerprint of a record that the
    loop has condemned. *)
Lemma verify_loop (fingerprints : list string) (records : list LocalStore.AssetRecord) :
  ∀ w (u : unit) w',
    for_each records
      (λ record,
         if LocalStore.uploaded record
            && negb (bool_decide (LocalStore.fingerprint record ∈ fingerprints))
         then
           in_db (LocalStore.deleteAsset (LocalStore.fingerprint record)) ;;
           removeFromIndexCache (LocalStore.fingerprint record) (LocalStore.assetId record)
         else ret tt) w = (Ok u, w') →
    meta w' = meta w ∧
    ∀ k r, lookup_key k (LocalStore.assets (db w')) = Some r →
           lookup_key k (LocalStore.assets (db w)) = Some r ∧
           ∀ record, record ∈ records → LocalStore.uploaded record = true →
                     LocalStore.fingerprint record ∉ fingerprints →
                     k ≠ LocalStore.fingerprint record.
Proof.
  induction records as [|record rest IH]; intros w u w'; cbn [for_each].
  - intros [= _ <-]. split; [done|]. intros k r Hl. split; [done|].
    intros ? Hin. by apply elem_of_nil in Hin.
  - intros (u1 & w1 & Hbody & Hrest)%bind_ok.
    apply IH in Hrest as [Hmeta Hrows].
    destruct (LocalStore.uploaded record && negb _) eqn:Hcond.
    + apply andb_prop in Hcond as [Hup Hnot].
      apply negb_true_iff, bool_decide_eq_false in Hnot.
      assert (meta w1 = meta w ∧
              LocalStore.assets (db w1)
              = remove_key (LocalStore.fingerprint record) (LocalStore.assets (db w))) as [Hm1 Hdb1].
      { unfold in_db, removeFromIndexCache, bind, modify in Hbody. by injection Hbody as _ <-. }
      split; [congruence|]. intros k r Hl. apply Hrows in Hl as [Hl Hothers].
      rewrite Hdb1 in Hl.
      assert (lookup_key k (remove_key (LocalStore.fingerprint record) (LocalStore.assets (db w)))
              = Some r → k ≠ LocalStore.fingerprint record
                         ∧ lookup_key k (LocalStore.assets (db w)) = Some r) as Hrm.
      { intros H. destruct (decide (LocalStore.fingerprint record = k)) as [<-|Hne].
        - by rewrite lookup_key_remove in H.
        - by rewrite lookup_key_remove_ne in H. }
      apply Hrm in Hl as [Hne Hl]. split; [done|].
      intros rec [->|Hin]%elem_of_cons ? ?; [done|by apply Hothers].
    + injection Hbody as _ <-. split; [done|]. intros k r Hl.
      apply Hrows in Hl as [Hl Hothers]. split; [done|].
      intros rec [->|Hin]%elem_of_cons Hup Hnot; [|by apply Hothers].
      exfalso. rewrite Hup in Hcond. cbn in Hcond.
      apply negb_false_iff, bool_decide_eq_true in Hcond. done.
Qed.

End VerifyFacts.

Section CleanupTheorems.
Import Js Text Fingerprint Utils Sync SyncProps IndexProps RunProps SyncFacts ReturnFacts.
Import BatchFacts StoreFacts CleanupFacts VerifyFacts Samples.

(** X20. [deleteRepoFilesBulk] does not throw: a path whose deletion
    fails is reported and the loop goes on.  Every path of the request is
    reported exactly once, as deleted or as failed, each list in the order
    of the request.  After a request that is not empty the status says
    neither running nor deleting, the completion event tells the number of
    paths and the number of failures, and the cache-invalidation event is
    emitted when at least one path was deleted. *)
Theorem deleteRepoFilesBulk_reports_every_path (paths : list string) (w : world) :
  ∃ deleted failed w',
    deleteRepoFilesBulk paths w = (Ok (deleted, failed), w') ∧
    deleted ++ failed ≡ₚ paths ∧ deleted `sublist_of` paths ∧ failed `sublist_of` paths ∧
    (paths ≠ [] →
     running (syncStatus w') = false ∧ isDeleting (syncStatus w') = false ∧
     lastBatchType (syncStatus w') = None ∧
     (∃ t, lastCompletion w'
           = Some (mkCompletion DeleteFiles (Z.of_nat (length paths))
                     (Z.of_nat (length failed)) t)) ∧
     (deleted ≠ [] → CacheInvalidated ∈ emitted w')).
Proof.
  unfold deleteRepoFilesBulk. destruct paths as [|path rest].
  { exists [], [], w. by repeat split. }
  set (paths := path :: rest).
  unfold bind at 1, setSyncStatus at 1, modify at 1. cbv beta iota.
  match goal with |- context [bind (bulkDeleteLoop ?total paths [] [] 0 None) _ ?w1] =>
    destruct (bulkDeleteLoop_spec total paths [] [] 0 None w1)
      as (deleted & failed & err & w2 & Hloop & Hperm & Hd & Hf & _)
  end.
  cbn [app] in Hloop. rewrite (bind_run _ _ _ _ _ Hloop). cbv beta iota.
  exists deleted, failed.
  unfold bind, now, gets, recordCompletion, setSyncStatus, modify, ret.
  destruct deleted as [|d deleted]; eexists; (split; [reflexivity|]);
    (split; [done|]); (split; [done|]); (split; [done|]); intros _;
    (split; [done|]); (split; [done|]); (split; [done|]); (split; [by eexists|]);
    try done.
  intros _. cbn. rewrite !elem_of_app. left. left. right. apply list_elem_of_singleton. done.
Qed.

(** X21. When [verifyAndCleanUploadIndex] returns, every record of the
    local table that is still marked uploaded has the fingerprint of an
    entry that the metadata cache holds at that moment: a record marked
    uploaded whose entry is not in the cache (because it was removed
    remotely, or because its shard has not been loaded) is deleted. *)
Theorem verifyAndCleanUploadIndex_keeps_only_cached (w w' : world) :
  db_keyed (db w) →
  verifyAndCleanUploadIndex w = (Ok tt, w') →
  ∀ fp r, LocalStore.getAsset fp (db w') = Some r →
          LocalStore.uploaded r = true →
          fp ∈ cachedFingerprints w'.
Proof.
  intros Hkeyed. unfold verifyAndCleanUploadIndex.
  destruct (ensureUploadIndexCache_run w) as (w1 & Hindex & Hdb1 & _).
  rewrite (bind_run _ _ _ _ _ Hindex).
  intros (u2 & w2 & Hload & Hrun)%bind_ok.
  pose proof (ensureMetaLoaded_db _ _ _ _ Hload) as Hdb2.
  unfold bind at 1, gets at 1 in Hrun. cbv beta iota in Hrun.
  unfold bind at 1, gets at 1 in Hrun. cbv beta iota in Hrun.
  apply verify_loop in Hrun as [Hmeta Hrows].
  intros fp r Hl Hup. unfold LocalStore.getAsset in Hl.
  apply Hrows in Hl as [Hl Hkept].
  assert (LocalStore.fingerprint r = fp ∧ r ∈ LocalStore.getAssets (db w2)) as [Hfp Hin].
  { apply lookup_key_elem in Hl. rewrite Hdb2, Hdb1 in Hl. split.
    - unfold db_keyed in Hkeyed. rewrite Forall_forall in Hkeyed. apply (Hkeyed _ Hl).
    - rewrite getAssets_perm, Hdb2, Hdb1. apply list_elem_of_fmap. by exists (fp, r). }
  destruct (decide (fp ∈ cachedFingerprints w')) as [|Hnot]; [done|]. exfalso.
  apply (Hkept r Hin Hup); [|done]. rewrite Hfp. intros Hcached. apply Hnot.
  unfold cachedFingerprints. rewrite Hmeta.
  by rewrite getCachedMetaEntries_perm in Hcached.
Qed.

Lemma verifyAndCleanUploadIndex_keeps_only_cached_witness :
  let w' := (verifyAndCleanUploadIndex stale_world).2 in
  db_keyed (db stale_world) ∧
  Forall (λ row, LocalStore.getAsset row.1 (db w') = Some row.2 →
                 LocalStore.uploaded row.2 = true →
                 row.1 ∈ cachedFingerprints w')
    (LocalStore.assets (db stale_world)).
Proof.
  intros w'.
  assert (db_keyed (db stale_world)) as Hkeyed by (apply Forall_singleton; reflexivity).
  split; [exact Hkeyed|]. apply Forall_forall. intros [fp r] _.
  apply (verifyAndCleanUploadIndex_keeps_only_cached stale_world w' Hkeyed). reflexivity.
Defined.

End CleanupTheorems.
(** ** index.ts: what one upload leaves in the local index *)

Module UploadFacts.
Import Js Text Fingerprint Utils Sync SyncProps IndexProps RunProps SyncFacts ReturnFacts.
Import BatchFacts BlocklistFacts.

Lemma makeFingerprint_truthy a : truthy_string (makeFingerprint a) = true.
Proof.
  unfold makeFingerprint. destruct (effectiveFilename a); by str_simpl.
Qed.

Lemma in_remote_ok {A : Type} (m : M Github.remote A) a w w' :
  in_remote m w = (Ok a, w') → ∃ s', w' = set_meta s' w.
Proof. unfold in_remote. intros (s' & _ & ->)%in_meta_ok. by exists s'. Qed.

Lemma unblockAutoSyncFingerprint_ok fp w r w' :
  truthy_string fp = true →
  unblockAutoSyncFingerprint fp w = (r, w') →
  r = Ok tt ∧ meta w' = meta w ∧ LocalStore.assets (db w') = LocalStore.assets (db w) ∧
  uploadIndexCache w' = uploadIndexCache w ∧
  isAutoSyncBlockedFingerprint fp w' = false.
Proof.
  intros Hfp. rewrite unblockAutoSyncFingerprint_run by done. cbv zeta.
  intros [= <- <-]. unfold ensureAutoSyncBlocklist, modify. cbn [snd].
  unfold isAutoSyncBlockedFingerprint.
  destruct (bool_decide (fp ∈ _)) eqn:Hin.
  - destruct (autoSyncBlocklistLoaded w); repeat split; try done;
      apply bool_decide_eq_false; cbn [autoSyncBlocklist set_blocklist];
      rewrite elem_of_set_delete; tauto.
  - destruct (autoSyncBlocklistLoaded w); repeat split; done.
Qed.

(** The row of an upload once [markUploaded] has followed [saveAsset]. *)
Lemma marked_row t1 t2 p d :
  ∃ r, LocalStore.getAsset (Utils.fingerprint p)
         (LocalStore.markUploaded t2 (Utils.fingerprint p) (Some (Utils.repoPath p))
            (Utils.contentHash p)
            (LocalStore.saveAsset t1 (pendingRecord t1 p false None) d)) = Some r ∧
       LocalStore.uploaded r = true ∧ LocalStore.repoPath r = Some (Utils.repoPath p) ∧
       LocalStore.lastError r = None ∧ LocalStore.lastUploadedAt r = Some t2.
Proof.
  unfold LocalStore.markUploaded, LocalStore.saveAsset, LocalStore.getAsset.
  cbn [LocalStore.assets pendingRecord LocalStore.fingerprint].
  rewrite lookup_key_assign. cbn [LocalStore.assets]. rewrite lookup_key_assign.
  eexists. split; [reflexivity|]. done.
Qed.

(** The index entry of a record is found under the id of its asset. *)
Lemma indexRecord_by_id record index id :
  LocalStore.assetId record = Some id → truthy_string id = true →
  lookup_key id (indexRecord record index) = Some (indexEntryOf record).
Proof.
  intros Hid Ht. unfold indexRecord. rewrite Hid, Ht.
  destruct (decide (LocalStore.fingerprint record = id)) as [->|Hne].
  - apply lookup_key_assign.
  - rewrite lookup_key_assign_ne by done. apply lookup_key_assign.
Qed.

Lemma indexRecord_by_fingerprint record index :
  lookup_key (LocalStore.fingerprint record) (indexRecord record index)
  = Some (indexEntryOf record).
Proof. unfold indexRecord. apply lookup_key_assign. Qed.

End UploadFacts.

Section UploadTheorems.
Import Js Text Fingerprint Utils Sync SyncProps IndexProps RunProps SyncFacts ReturnFacts.
Import BatchFacts BlocklistFacts UploadFacts Samples.

(** X22. When [uploadPreparedAsset] returns, for an asset with a non-empty
    id that was prepared under its own fingerprint, the upload is on
    record: the row of the fingerprint in the local table is marked
    uploaded, with the repository path of the upload and without an error,
    the fingerprint is not blocked, and [isAssetUploadedAsset] answers yes
    for the asset. *)
Theorem uploadPreparedAsset_records_the_upload (p : PreparedAsset) (w w' : world) :
  Utils.fingerprint p = makeFingerprint (asset p) →
  truthy_string (id (asset p)) = true →
  uploadPreparedAsset p w = (Ok tt, w') →
  isAssetUploadedAsset (asset p) w' = true ∧
  isAutoSyncBlockedFingerprint (Utils.fingerprint p) w' = false ∧
  ∃ r, LocalStore.getAsset (Utils.fingerprint p) (db w') = Some r ∧
       LocalStore.uploaded r = true ∧ LocalStore.repoPath r = Some (Utils.repoPath p) ∧
       LocalStore.lastError r = None.
Proof.
  intros Hfp Hid H. unfold uploadPreparedAsset in H.
  assert (truthy_string (Utils.fingerprint p) = true) as Htruthy
    by (rewrite Hfp; apply makeFingerprint_truthy).
  apply bind_ok in H as ([] & w1 & _ & H).
  apply bind_ok in H as (t1 & w1' & Hnow & H). apply gets_ok in Hnow as [-> ->].
  apply bind_ok in H as ([] & w2 & Hsave & H). apply modify_ok in Hsave.
  apply bind_ok in H as ([] & w3 & Hix & H). apply modify_ok in Hix.
  apply bind_ok in H as (sha & w4 & Hfetch & H). apply in_remote_ok in Hfetch as (s4 & Hw4).
  apply bind_ok in H as (new & w5 & Hput & H). apply in_remote_ok in Hput as (s5 & Hw5).
  apply bind_ok in H as (t2 & w5' & Hnow & H). apply gets_ok in Hnow as [Ht2 ->].
  apply bind_ok in H as ([] & w6 & Hmark & H). apply modify_ok in Hmark.
  apply bind_ok in H as ([] & w7 & Hix2 & H). apply modify_ok in Hix2.
  apply bind_ok in H as ([] & w8 & Hunblock & H).
  apply unblockAutoSyncFingerprint_ok in Hunblock as (_ & Hm8 & Hdb8 & Hix8 & Hblocked); [|done].
  apply bind_ok in H as (t3 & w8' & Hnow & H). apply gets_ok in Hnow as [_ ->].
  apply in_meta_ok in H as (s9 & _ & ->).
  assert (LocalStore.assets (db w8)
          = LocalStore.assets
              (LocalStore.markUploaded t2 (Utils.fingerprint p) (Some (Utils.repoPath p))
                 (Utils.contentHash p)
                 (LocalStore.saveAsset (MetaIndex.clock (meta w1))
                    (pendingRecord (MetaIndex.clock (meta w1)) p false None) (db w1)))) as Hrows.
  { rewrite Hdb8. subst w7 w6 w5 w4 w3 w2. reflexivity. }
  assert (uploadIndexCache w8
          = indexRecord (pendingRecord t2 p true None) (uploadIndexCache w6)) as Hindex.
  { rewrite Hix8. subst w7. reflexivity. }
  destruct (marked_row (MetaIndex.clock (meta w1)) t2 p (db w1)) as (r & Hr & Hup & Hpath & Herr & _).
  split; [|split; [exact Hblocked|]].
  - unfold isAssetUploadedAsset. rewrite <- Hfp.
    change (isAutoSyncBlockedFingerprint (Utils.fingerprint p) (set_meta s9 w8))
      with (isAutoSyncBlockedFingerprint (Utils.fingerprint p) w8).
    rewrite Hblocked. unfold cachedEntry. cbn [uploadIndexCache set_meta]. rewrite Hindex.
    rewrite (indexRecord_by_id _ _ (id (asset p))) by done. reflexivity.
  - exists r. unfold LocalStore.getAsset in *. cbn [db set_meta]. rewrite Hrows. done.
Qed.

Lemma uploadPreparedAsset_records_the_upload_witness :
  let p := default (mkPrepared (photo 1) "" "" "" None None "" None)
             (prepareAsset (photo 1) (Some (photo_file 1))) in
  let w' := (uploadPreparedAsset p shadowed_world).2 in
  isAssetUploadedAsset (asset p) w' = true ∧
  isAutoSyncBlockedFingerprint (Utils.fingerprint p) w' = false ∧
  ∃ r, LocalStore.getAsset (Utils.fingerprint p) (db w') = Some r ∧
       LocalStore.uploaded r = true ∧ LocalStore.repoPath r = Some (Utils.repoPath p) ∧
       LocalStore.lastError r = None.
Proof.
  intros p w'. apply (uploadPreparedAsset_records_the_upload p shadowed_world w').
  - reflexivity.
  - reflexivity.
  - vm_compute. reflexivity.
Defined.

End UploadTheorems.

Module FailureFacts.
Import Js Text Fingerprint Utils Sync SyncProps IndexProps RunProps SyncFacts ReturnFacts.
Import BatchFacts BlocklistFacts UploadFacts.

#[global] Instance keeps_row_preorder fp : PreOrder (keeps_row fp).
Proof. split; [intros w H; exact H|]. intros w1 w2 w3 H12 H23 H. by apply H23, H12. Qed.

Lemma is_Some_assign {A : Type} k (v : A) f l :
  is_Some (lookup_key f l) → is_Some (lookup_key f (assign k v l)).
Proof.
  destruct (decide (k = f)) as [->|Hne]; [by rewrite lookup_key_assign|].
  by rewrite lookup_key_assign_ne.
Qed.

Lemma markUploaded_keeps_row fp now fp' path hash :
  maintains (keeps_row fp) (in_db (LocalStore.markUploaded now fp' path hash)).
Proof.
  intros w. unfold in_db, modify, keeps_row, LocalStore.getAsset, LocalStore.markUploaded.
  cbn [snd db set_db]. destruct (lookup_key fp' _); [|done]. cbn [LocalStore.assets].
  apply is_Some_assign.
Qed.

Lemma updateIndexCacheForRecord_keeps_row fp record :
  maintains (keeps_row fp) (updateIndexCacheForRecord record).
Proof. intros w H. exact H. Qed.

Lemma in_remote_keeps_row {A : Type} fp (m : M Github.remote A) :
  maintains (keeps_row fp) (in_remote m).
Proof. apply in_remote_maintains. intros w s H. exact H. Qed.

Lemma in_meta_keeps_row {A : Type} fp (m : M MetaIndex.state A) :
  maintains (keeps_row fp) (in_meta m).
Proof. apply in_meta_maintains. intros w s H. exact H. Qed.

Lemma now_keeps_row fp : maintains (keeps_row fp) now.
Proof. intros w H. exact H. Qed.

Lemma unblockAutoSyncFingerprint_keeps_row fp fp' :
  maintains (keeps_row fp) (unblockAutoSyncFingerprint fp').
Proof.
  intros w. unfold unblockAutoSyncFingerprint, ensureAutoSyncBlocklist, in_db, bind, modify,
    gets, ret.
  destruct (negb (truthy_string fp')); [intros H; exact H|]. cbn [fst snd].
  destruct (negb (isAutoSyncBlockedFingerprint fp' _)); cbn [snd];
    destruct (autoSyncBlocklistLoaded w); intros H; exact H.
Qed.

#[global] Hint Resolve markUploaded_keeps_row updateIndexCacheForRecord_keeps_row
  in_remote_keeps_row in_meta_keeps_row now_keeps_row unblockAutoSyncFingerprint_keeps_row
  : maintain.

(** Whether it returns or throws, [uploadPreparedAsset] leaves a row for
    the fingerprint in the local table: the row is saved before the first
    request. *)
Lemma uploadPreparedAsset_saves_row p w :
  is_Some (LocalStore.getAsset (Utils.fingerprint p) (db (uploadPreparedAsset p w).2)).
Proof.
  unfold uploadPreparedAsset.
  match goal with |- context [bind pause ?k ?s] =>
    change (bind pause k s) with (k tt (pause s).2)
  end.
  cbv beta. unfold bind at 1, now at 1, gets at 1. cbv beta iota.
  unfold bind at 1, in_db at 1, modify at 1. cbv beta iota.
  match goal with |- context [bind ?m ?k ?s] =>
    assert (maintains (keeps_row (Utils.fingerprint p)) (bind m k)) as Hrest
      by maintain_with ltac:(reflexivity);
    apply (Hrest s)
  end.
  unfold LocalStore.getAsset, LocalStore.saveAsset. cbn [db set_db LocalStore.assets pendingRecord
    LocalStore.fingerprint].
  by rewrite lookup_key_assign.
Qed.

Lemma take_chars_length n s : (String.length (LocalStore.take_chars n s) ≤ n)%nat.
Proof.
  revert s. induction n as [|n IH]; intros [|c s]; simpl; try lia.
  specialize (IH s). lia.
Qed.

End FailureFacts.

Section FailureTheorems.
Import Js Text Fingerprint Utils Sync SyncProps IndexProps RunProps SyncFacts ReturnFacts.
Import BatchFacts BlocklistFacts UploadFacts FailureFacts Samples.



End FailureTheorems.
(** ** index.ts: preparation with the override *)

Module OverrideFacts.
Import Js Text Fingerprint Utils Sync SyncProps IndexProps RunProps SyncFacts ReturnFacts.
Import BatchFacts.

Lemma pause_idle w : ui w = [] → pause w = (Ok tt, w).
Proof. intros H. unfold pause, modify. by rewrite H. Qed.

Lemma prepareOnDevice_idle a w :
  ui w = [] →
  prepareOnDevice a w = (Ok (prepareAsset a (lookup_key (id a) (readable (device w)))), w).
Proof. intros H. unfold prepareOnDevice, bind. by rewrite (pause_idle w H). Qed.

Lemma tryRegister_keeps entry prepared x :
  x ∈ map Utils.fingerprint prepared →
  x ∈ map Utils.fingerprint (tryRegister entry prepared).2.
Proof.
  unfold tryRegister. destruct entry as [e|]; [|done].
  destruct (bool_decide _); [done|]. cbn [snd]. rewrite map_app, elem_of_app. by left.
Qed.

Lemma tryRegister_registers e prepared :
  Utils.fingerprint e ∈ map Utils.fingerprint (tryRegister (Some e) prepared).2.
Proof.
  unfold tryRegister. case_bool_decide as Hin; [done|]. cbn [snd].
  rewrite map_app, elem_of_app. right. by apply list_elem_of_singleton.
Qed.

(** With the override and nobody cancelling, the first loop leaves the
    world as it is and prepares every asset whose file can be read. *)
Lemma prepareLoop_override assets w : ∀ prepared retryable,
  ui w = [] → token w = false →
  ∃ prepared' retryable',
    prepareLoop false assets prepared retryable w = (Ok (prepared', retryable'), w) ∧
    (∀ x, x ∈ map Utils.fingerprint prepared → x ∈ map Utils.fingerprint prepared') ∧
    ∀ a p, a ∈ assets →
           prepareAsset a (lookup_key (id a) (readable (device w))) = Some p →
           makeFingerprint a ∈ map Utils.fingerprint prepared'.
Proof.
  induction assets as [|a rest IH]; intros prepared retryable Hui Htoken; cbn [prepareLoop].
  - exists prepared, retryable. split; [done|]. split; [done|].
    intros ?? Hin. by apply elem_of_nil in Hin.
  - unfold bind at 1, gets at 1. cbv beta iota. rewrite Htoken.
    unfold bind at 1, ret at 1. cbv beta iota.
    rewrite (bind_run _ _ _ _ _ (prepareOnDevice_idle a w Hui)).
    pose proof (tryRegister_keeps (prepareAsset a (lookup_key (id a) (readable (device w))))
                  prepared) as Hkeeps.
    destruct (prepareAsset a (lookup_key (id a) (readable (device w)))) as [e|] eqn:He.
    + pose proof (tryRegister_registers e prepared) as Hreg.
      destruct (tryRegister (Some e) prepared) as [registered prepared1] eqn:Hr.
      assert (registered = true) as ->.
      { unfold tryRegister in Hr. by destruct (bool_decide _); injection Hr as <- _. }
      cbn [snd] in *.
      destruct (IH prepared1 retryable Hui Htoken) as (p' & r' & -> & Hmono & Hall).
      exists p', r'. split; [done|]. split; [by auto|].
      intros a' p [->|Hin]%elem_of_cons Hp; [|by eapply Hall].
      apply Hmono. apply prepareAsset_Some in He as [_ <-]. done.
    + cbn [tryRegister].
      destruct (IH prepared (retryable ++ [a]) Hui Htoken) as (p' & r' & -> & Hmono & Hall).
      exists p', r'. split; [done|]. split; [done|].
      intros a' p [->|Hin]%elem_of_cons Hp; [congruence|by eapply Hall].
Qed.

Lemma retryLoop_keeps retryable : ∀ prepared w prepared' w' x,
  retryLoop retryable prepared w = (Ok prepared', w') →
  x ∈ map Utils.fingerprint prepared → x ∈ map Utils.fingerprint prepared'.
Proof.
  induction retryable as [|a rest IH]; intros prepared w prepared' w' x; cbn [retryLoop].
  - by intros [= <- _].
  - intros (cancelled & w0 & Hc & H)%bind_ok. apply gets_ok in Hc as [-> ->].
    destruct (token w); [by apply ret_ok in H as [-> _]|].
    apply bind_ok in H as (entry & w1 & _ & H). intros Hx.
    eapply IH; [exact H|]. by apply tryRegister_keeps.
Qed.

End OverrideFacts.

Section OverrideTheorems.
Import Js Text Fingerprint Utils Sync SyncProps IndexProps RunProps SyncFacts ReturnFacts.
Import BatchFacts OverrideFacts Samples.

(** X24. With the override ([allowBlocked]) the preparation of a batch
    consults neither the block list nor the upload index: when nobody
    cancels, every asset of the batch whose file can be read on the device
    is prepared, whatever the block list and the index say about it.  And
    [isAssetUploadedAsset] reports a blocked asset as not uploaded, so a
    blocked asset is both collected as pending and prepared by a batch that
    runs with the override. *)
Theorem override_prepares_blocked_and_recorded_assets
    (assets : list Asset) (options : UploadBatchOptions) (w : world) (a : Asset)
    (p : PreparedAsset) :
  allowBlocked options = true →
  ui w = [] → token w = false →
  a ∈ assets →
  prepareAsset a (lookup_key (id a) (readable (device w))) = Some p →
  (∃ prepared w',
     prepareAssetsForUpload assets options w = (Ok prepared, w') ∧
     makeFingerprint a ∈ map Utils.fingerprint prepared) ∧
  (isAutoSyncBlockedFingerprint (makeFingerprint a) w = true →
   isAssetUploadedAsset a w = false).
Proof.
  intros Hallow Hui Htoken Hin Hp. split.
  - unfold prepareAssetsForUpload. rewrite Hallow. cbn [negb].
    unfold bind at 1, ret at 1. cbv beta iota.
    destruct (prepareLoop_override assets w [] [] Hui Htoken) as (p1 & r1 & Hloop & _ & Hall).
    rewrite (bind_run _ _ _ _ _ Hloop). cbv beta iota.
    specialize (Hall a p Hin Hp).
    destruct r1 as [|r0 r1]; [by exists p1, w|].
    destruct (downloadLoop_returns (r0 :: r1) w) as ([] & w1 & Hdown).
    rewrite (bind_run _ _ _ _ _ Hdown).
    match goal with |- context [bind pause ?k ?s] =>
      change (bind pause k s) with (k tt (pause s).2)
    end.
    cbv beta.
    destruct (retryLoop_returns (r0 :: r1) p1 (pause w1).2) as (p2 & w2 & Hretry).
    exists p2, w2. split; [done|]. by eapply retryLoop_keeps.
  - intros Hblocked. unfold isAssetUploadedAsset. by rewrite Hblocked.
Qed.

Lemma override_prepares_blocked_and_recorded_assets_witness :
  let w := set_ui [] shadowed_world in
  (∃ prepared w',
     prepareAssetsForUpload [photo 1] (mkOptions true None None) w = (Ok prepared, w') ∧
     makeFingerprint (photo 1) ∈ map Utils.fingerprint prepared) ∧
  (isAutoSyncBlockedFingerprint (makeFingerprint (photo 1)) w = true →
   isAssetUploadedAsset (photo 1) w = false).
Proof.
  intros w.
  apply (override_prepares_blocked_and_recorded_assets [photo 1] (mkOptions true None None) w
           (photo 1)
           (default (mkPrepared (photo 1) "" "" "" None None "" None)
              (prepareAsset (photo 1) (Some (photo_file 1))))).
  - reflexivity.
  - reflexivity.
  - reflexivity.
  - apply elem_of_cons. by left.
  - reflexivity.
Defined.

End OverrideTheorems.
(** ** index.ts: the upload index as a mirror of the local table *)

Module IndexFacts.
Import Js Text Fingerprint Utils Sync SyncProps IndexProps RunProps SyncFacts ReturnFacts.
Import StoreFacts VerifyFacts UploadFacts.

(** A record that does not write under the key. *)
Lemma indexRecord_other record index k :
  LocalStore.fingerprint record ≠ k → LocalStore.assetId record ≠ Some k →
  lookup_key k (indexRecord record index) = lookup_key k index.
Proof.
  intros Hfp Hid. unfold indexRecord. rewrite lookup_key_assign_ne by done.
  destruct (LocalStore.assetId record) as [id|]; [|done].
  destruct (truthy_string id); [|done].
  apply lookup_key_assign_ne. congruence.
Qed.

Lemma refresh_fold (r : LocalStore.AssetRecord) fp (records : list LocalStore.AssetRecord) :
  LocalStore.fingerprint r = fp →
  (∀ r', r' ∈ records →
         r' = r ∨ (LocalStore.fingerprint r' ≠ fp ∧ LocalStore.assetId r' ≠ Some fp)) →
  ∀ index,
    r ∈ records ∨ lookup_key fp index = Some (indexEntryOf r) →
    lookup_key fp (fold_left (λ index r, indexRecord r index) records index)
    = Some (indexEntryOf r).
Proof.
  intros Hfp. induction records as [|x rest IH]; intros Hothers index Hstart; cbn [fold_left].
  - destruct Hstart as [[]%elem_of_nil|?]. done.
  - apply IH; [intros r' Hin; apply Hothers; by apply elem_of_cons; right|].
    destruct (Hothers x) as [->|[Hx1 Hx2]]; [by apply elem_of_cons; left| |].
    + right. rewrite <- Hfp. apply indexRecord_by_fingerprint.
    + destruct Hstart as [[->|Hin]%elem_of_cons|Hl]; [done|by left|].
      right. by rewrite indexRecord_other.
Qed.

(** Every entry of a refreshed index is the entry of a record, under the
    fingerprint of the record or under the id of its asset. *)
Lemma refresh_sound (records : list LocalStore.AssetRecord) : ∀ index k e,
  lookup_key k (fold_left (λ index r, indexRecord r index) records index) = Some e →
  lookup_key k index = Some e ∨
  ∃ r, r ∈ records ∧ e = indexEntryOf r ∧
       (LocalStore.fingerprint r = k ∨ LocalStore.assetId r = Some k).
Proof.
  induction records as [|x rest IH]; intros index k e; cbn [fold_left]; [by left|].
  intros [Hl|(r & Hin & He & Hk)]%IH.
  - unfold indexRecord in Hl.
    destruct (decide (LocalStore.fingerprint x = k)) as [Hfp|Hfp].
    + rewrite Hfp, lookup_key_assign in Hl. injection Hl as <-.
      right. exists x. split; [by apply elem_of_cons; left|]. by auto.
    + rewrite lookup_key_assign_ne in Hl by done.
      destruct (LocalStore.assetId x) as [id|] eqn:Hid; [|by left].
      destruct (truthy_string id); [|by left].
      destruct (decide (id = k)) as [->|Hne].
      * rewrite lookup_key_assign in Hl. injection Hl as <-.
        right. exists x. split; [by apply elem_of_cons; left|]. by auto.
      * rewrite lookup_key_assign_ne in Hl by done. by left.
  - right. exists r. split; [by apply elem_of_cons; right|]. done.
Qed.

Lemma unique_row {A : Type} (l : list (string * A)) k v1 v2 :
  NoDup (map fst l) → (k, v1) ∈ l → (k, v2) ∈ l → v1 = v2.
Proof.
  induction l as [|[k' v'] l IH]; simpl; [by intros _ []%elem_of_nil|].
  intros [Hk Hnd]%NoDup_cons H1 H2.
  apply elem_of_cons in H1 as [E1|H1]; apply elem_of_cons in H2 as [E2|H2].
  - congruence.
  - exfalso. apply Hk. apply list_elem_of_fmap. exists (k, v2). split; [|done].
    simpl. congruence.
  - exfalso. apply Hk. apply list_elem_of_fmap. exists (k, v1). split; [|done].
    simpl. congruence.
  - by apply IH.
Qed.

End IndexFacts.

Section IndexTheorems.
Import Js Text Fingerprint Utils Sync SyncProps IndexProps RunProps SyncFacts ReturnFacts.
Import StoreFacts VerifyFacts UploadFacts IndexFacts Samples.

(** X25. [refreshUploadIndexCache] rebuilds the upload index from the
    local table.  Every entry of the rebuilt index is the entry of a row of
    the table, found under the fingerprint of the row or under the id of
    its asset; and under the fingerprint of a row the index holds the entry
    of that row, provided the fingerprint is not also the asset id of a row
    (the two kinds of key share one map). *)
Theorem refreshUploadIndexCache_mirrors_the_table (w : world) (fp : string)
    (r : LocalStore.AssetRecord) :
  db_keyed (db w) → db_unique (db w) →
  (∀ row, row ∈ LocalStore.assets (db w) → LocalStore.assetId row.2 ≠ Some fp) →
  LocalStore.getAsset fp (db w) = Some r →
  let index := uploadIndexCache (refreshUploadIndexCache w).2 in
  lookup_key fp index = Some (indexEntryOf r) ∧
  ∀ k e, lookup_key k index = Some e →
         ∃ row, row ∈ LocalStore.assets (db w) ∧ e = indexEntryOf row.2 ∧
                (row.1 = k ∨ LocalStore.assetId row.2 = Some k).
Proof.
  intros Hkeyed Hunique Hids Hrow index. unfold index, refreshUploadIndexCache, modify.
  cbn [snd uploadIndexCache emit set_uploadIndexCache].
  unfold db_keyed in Hkeyed. rewrite Forall_forall in Hkeyed.
  apply lookup_key_elem in Hrow.
  assert (∀ r', r' ∈ LocalStore.getAssets (db w) →
                ∃ k, (k, r') ∈ LocalStore.assets (db w) ∧ LocalStore.fingerprint r' = k) as Hrows.
  { intros r'. rewrite getAssets_perm. intros ([k r''] & -> & Hin)%list_elem_of_fmap.
    exists k. split; [done|]. apply (Hkeyed _ Hin). }
  split.
  - apply (refresh_fold r fp).
    + apply (Hkeyed _ Hrow).
    + intros r' (k & Hin & Hk)%Hrows.
      destruct (decide (k = fp)) as [->|Hne].
      * left. by eapply unique_row.
      * right. split; [congruence|]. apply (Hids _ Hin).
    + left. rewrite getAssets_perm. apply list_elem_of_fmap. by exists (fp, r).
  - intros k e [[=]|(r' & (k' & Hin & Hk')%Hrows & -> & Hk)]%refresh_sound.
    exists (k', r'). split; [done|]. split; [done|]. cbn [fst snd]. by rewrite <- Hk'.
Qed.

Lemma refreshUploadIndexCache_mirrors_the_table_witness :
  let index := uploadIndexCache (refreshUploadIndexCache stale_world).2 in
  lookup_key (MetaIndex.fingerprint sample_entry) index = Some (indexEntryOf sample_record) ∧
  ∀ k e, lookup_key k index = Some e →
         ∃ row, row ∈ LocalStore.assets (db stale_world) ∧ e = indexEntryOf row.2 ∧
                (row.1 = k ∨ LocalStore.assetId row.2 = Some k).
Proof.
  apply (refreshUploadIndexCache_mirrors_the_table stale_world
           (MetaIndex.fingerprint sample_entry) sample_record).
  - apply Forall_singleton. reflexivity.
  - apply NoDup_singleton.
  - intros row ->%list_elem_of_singleton. discriminate.
  - reflexivity.
Defined.

End IndexTheorems.
Module CachedFacts.
Import Js Text Json Github MetaIndex StoreProps ClockFacts StoreFacts.

(** The tail of [upsertMetaEntry] leaves in the indices what
    [ingestShardDocument] makes of the document that it has written. *)
Lemma upsert_persist_indices key bucket shard message s s' :
  (store_shard key shard ;;
   let* shard := persistShard key shard message in
   match Shard.doc shard with
   | Some doc => update_indices (ingestShardDocument doc)
   | None => ret tt
   end ;;
   markManifestEntry bucket (Some shard) ;;
   persistManifest) s = (Ok tt, s') →
  indices s' = ingestShardDocument (persisted (clock s) shard) (indices s).
Proof.
  intros H.
  apply bind_ok in H as ([] & s3 & Hst & H). apply modify_ok in Hst. subst s3.
  apply bind_ok in H as (shard' & s4 & Hpersist & H).
  apply persistShard_ok in Hpersist as (_ & Hdoc' & _ & _ & Hix & _).
  rewrite Hdoc' in H.
  apply bind_ok in H as ([] & s5 & Hupd & H). apply modify_ok in Hupd. subst s5.
  apply bind_ok in H as ([] & s6 & Hmk & H). apply modify_ok in Hmk. subst s6.
  apply persistManifest_ok in H as (-> & _). simpl. by rewrite Hix.
Qed.

End CachedFacts.

Section CachedTheorems.
Import Js Text Json Github MetaIndex StoreProps ClockFacts StoreFacts IngestFacts CachedFacts Samples.



End CachedTheorems.
Module EmitFacts.
Import Js Text Events EventProps.
Import EventEmitter.

(** [off] and [clear] change no array: [off] puts a new one in the map. *)
Lemma off_keeps_arrays event cb em a subs :
  heap em !! a = Some subs → heap (off event cb em) !! a = Some subs.
Proof.
  intros H. unfold off. destruct (lookup_key event (listeners em)); [|done].
  simpl. by apply lookup_app_l_Some.
Qed.

Lemma clear_keeps_arrays em a subs :
  heap em !! a = Some subs → heap (clear em) !! a = Some subs.
Proof. done. Qed.

Lemma subscriptions_set_new event subs em :
  subscriptions event (set_new event subs em) = subs.
Proof.
  unfold subscriptions, set_new. cbn [listeners heap]. rewrite lookup_key_assign.
  unfold array. cbn [heap]. by rewrite list_lookup_middle.
Qed.

(** The loop of [emit] over an array that the listeners leave alone calls
    every subscription of the array and retains the lasting ones. *)
Lemma emitLoop_spec {U P : Type} (call : nat → P → M (U * t) unit) a payload subs :
  leaves_array call a subs →
  ∀ rest visited retained turns g,
    subs = visited ++ rest →
    heap g.2 !! a = Some subs →
    (length rest < turns)%nat →
    ∃ g', emitLoop call turns a (length visited) payload retained g
          = (Ok (retained ++ lasting rest), g') ∧
          heap g'.2 !! a = Some subs.
Proof.
  intros Hcall. induction rest as [|sub rest IH]; intros visited retained turns g Hsubs Hg Hturns.
  - destruct turns as [|turns]; [simpl in Hturns; lia|].
    exists g. split; [|done]. cbn [emitLoop]. unfold bind at 1, gets at 1. cbv beta iota.
    unfold array. rewrite Hg. cbn [default from_option id].
    rewrite (lookup_ge_None_2 subs (length visited)).
    + unfold lasting. simpl. by rewrite app_nil_r.
    + rewrite Hsubs, app_nil_r. lia.
  - destruct turns as [|turns]; [simpl in Hturns; lia|].
    cbn [emitLoop]. unfold bind at 1, gets at 1. cbv beta iota.
    unfold array. rewrite Hg. cbn [default from_option id].
    assert (subs !! length visited = Some sub) as -> by (rewrite Hsubs; apply list_lookup_middle; done).
    pose proof (Hcall (callback sub) payload g Hg) as Hg1.
    destruct (IH (visited ++ [sub]) (if Events.once sub then retained else retained ++ [sub]) turns
                (call (callback sub) payload g).2) as (g' & Hrun & Hg').
    { by rewrite <- app_assoc. }
    { exact Hg1. }
    { simpl in Hturns. lia. }
    exists g'. split; [|done].
    rewrite length_app in Hrun. simpl in Hrun. rewrite Nat.add_1_r in Hrun.
    unfold bind at 1, try_catch at 1.
    destruct (call (callback sub) payload g) as [[[]|e] g1]; simpl in Hrun |- *; rewrite Hrun;
      do 2 f_equal; unfold lasting; simpl; destruct (Events.once sub); simpl; by rewrite <- ?app_assoc.
Qed.

End EmitFacts.

Section EmitTheorems.
Import Js Text Events EventProps EmitFacts.

(** X27. [EventEmitter.emit] ends by putting in the map the subscriptions
    that it has called, less those made with [once].  So when no call of a
    listener pushes to the array that [emit] iterates (the listeners may
    call [off] and [clear], which do not), [emit] returns, whatever the
    listeners throw, and the subscriptions of the event after it are the
    ones from before that are not for one call only, in their order: what
    a listener unsubscribes with [off] during the emit is subscribed
    again. *)
Theorem emit_restores_what_listeners_unsubscribe {U P : Type}
    (call : nat → P → M (U * EventEmitter.t) unit) (turns : nat) (event : string) (payload : P)
    (g : U * EventEmitter.t) (a : nat) (subs : list Subscription) :
  lookup_key event (EventEmitter.listeners g.2) = Some a →
  EventEmitter.heap g.2 !! a = Some subs →
  leaves_array call a subs →
  (length subs < turns)%nat →
  ∃ g', EventEmitter.emit call turns event payload g = (Ok tt, g') ∧
        subscriptions event g'.2 = lasting subs.
Proof.
  intros Hevent Hg Hcall Hturns. unfold EventEmitter.emit.
  unfold bind at 1, gets at 1. cbv beta iota. rewrite Hevent.
  unfold bind at 1, gets at 1. cbv beta iota.
  unfold EventEmitter.array at 1. rewrite Hg. cbn [default from_option id].
  destruct subs as [|sub subs].
  - exists g. split; [done|]. unfold subscriptions. rewrite Hevent.
    unfold EventEmitter.array. by rewrite Hg.
  - cbn [length Nat.eqb].
    destruct (emitLoop_spec call a payload (sub :: subs) Hcall (sub :: subs) [] [] turns g)
      as (g' & Hrun & _); [done|done|done|].
    cbn [length app] in Hrun. unfold bind at 1. rewrite Hrun.
    eexists. split; [reflexivity|]. cbn [snd]. apply subscriptions_set_new.
Qed.

Lemma emit_restores_what_listeners_unsubscribe_witness :
  let unsubscribes := λ (cb : nat) (_ : unit), modify (λ g : unit * EventEmitter.t,
                        (g.1, EventEmitter.off "completion" cb g.2)) in
  ∃ g', EventEmitter.emit unsubscribes 2 "completion" tt
          (tt, EventEmitter.on "completion" 7%nat EventEmitter.empty) = (Ok tt, g') ∧
        subscriptions "completion" g'.2 = lasting [mkSubscription 7 false].
Proof.
  intros unsubscribes.
  apply (emit_restores_what_listeners_unsubscribe unsubscribes 2 "completion" tt
           (tt, EventEmitter.on "completion" 7%nat EventEmitter.empty) 0
           [mkSubscription 7 false]).
  - reflexivity.
  - reflexivity.
  - intros cb payload g H. apply off_keeps_arrays. exact H.
  - simpl. lia.
Defined.

End EmitTheorems.
Module SweepFacts.
Import Js Text LocalStore StoreFacts.

Lemma lookup_key_filter {A : Type} (keep : string * A → bool) k (v : A) l :
  lookup_key k l = Some v → keep (k, v) = true → lookup_key k (List.filter keep l) = Some v.
Proof.
  induction l as [|[k' v'] l IH]; [done|]. simpl. intros Hl Hkeep.
  destruct (decide (k' = k)) as [->|Hne].
  - injection Hl as ->. rewrite Hkeep. simpl. by rewrite decide_True.
  - destruct (keep (k', v')); [|by apply IH]. simpl. rewrite decide_False by done. by apply IH.
Qed.

Lemma lookup_key_filter_Some {A : Type} (keep : string * A → bool) k (v : A) l :
  lookup_key k (List.filter keep l) = Some v → keep (k, v) = true.
Proof.
  intros H. apply lookup_key_elem in H. apply list_elem_of_In in H.
  by apply filter_In in H as [_ H].
Qed.

Lemma filter_split_length {A : Type} (p : A → bool) (l : list A) :
  (length (List.filter p l) + length (List.filter (λ x, negb (p x)) l) = length l)%nat.
Proof. induction l as [|x l IH]; [done|]. simpl. destruct (p x); simpl; lia. Qed.

(** [touchAsset] leaves a row for the fingerprint, seen at the time given
    or now. *)
Lemma touchAsset_row now fp values d :
  ∃ row, getAsset fp (touchAsset now fp values d) = Some row ∧
         lastSeenAt row = Some (nullish (p_lastSeenAt values) now) ∧
         ∀ existing, getAsset fp d = Some existing →
           uploaded row = nullish (p_uploaded values) (uploaded existing) ∧
           repoPath row = orElse (p_repoPath values) (repoPath existing) ∧
           lastUploadedAt row = orElse (p_lastUploadedAt values) (lastUploadedAt existing) ∧
           lastError row = orElse (p_lastError values) (lastError existing).
Proof.
  unfold touchAsset, getAsset. destruct (lookup_key fp (assets d)) as [existing|] eqn:E.
  - eexists. cbn [assets]. rewrite lookup_key_assign. split; [done|]. split; [done|].
    by intros ? [= <-].
  - eexists. unfold saveAsset. cbn [assets fingerprint]. rewrite lookup_key_assign.
    split; [done|]. split; [by destruct (p_lastSeenAt values)|]. done.
Qed.

End SweepFacts.

Section SweepTheorems.
Import Js Text LocalStore SweepFacts.

(** X28. [touchAsset] marks the row of a fingerprint as seen, at the time
    given or now, creating the row if there is none, and a field that the
    patch leaves out keeps the value of the existing row: the upload mark,
    the repository path, the time of the upload and the last error are not
    reset, and the other rows are not touched.  [deleteAssetsNotSeenSince]
    of a time that is not later keeps the row as it is; every row that it
    leaves was seen at that time or later, or has no time; and the number it
    returns is the number of rows that are gone. *)
Theorem touched_asset_survives_the_sweep (now timestamp : Z) (fp : string)
    (values : AssetPatch) (d : db) :
  timestamp ≤ nullish (p_lastSeenAt values) now →
  let touched := touchAsset now fp values d in
  let swept := deleteAssetsNotSeenSince timestamp touched in
  (∃ row, getAsset fp swept.1 = Some row ∧ getAsset fp touched = Some row ∧
          lastSeenAt row = Some (nullish (p_lastSeenAt values) now) ∧
          ∀ existing, getAsset fp d = Some existing →
            uploaded row = nullish (p_uploaded values) (uploaded existing) ∧
            repoPath row = orElse (p_repoPath values) (repoPath existing) ∧
            lastUploadedAt row = orElse (p_lastUploadedAt values) (lastUploadedAt existing) ∧
            lastError row = orElse (p_lastError values) (lastError existing)) ∧
  (∀ k, k ≠ fp → getAsset k touched = getAsset k d) ∧
  (∀ k row t, getAsset k swept.1 = Some row → lastSeenAt row = Some t → timestamp ≤ t) ∧
  swept.2 = Z.of_nat (length (assets touched)) - Z.of_nat (length (assets swept.1)) ∧
  auto_sync_blocklist swept.1 = auto_sync_blocklist d.
Proof.
  intros Hseen touched swept.
  destruct (touchAsset_row now fp values d) as (row & Hrow & Hlast & Hkept).
  fold touched in Hrow. split_and!.
  - exists row. split; [|done]. unfold swept, deleteAssetsNotSeenSince, getAsset. cbn [fst assets].
    apply lookup_key_filter; [exact Hrow|]. unfold notSeenSince. cbn [snd]. rewrite Hlast.
    apply negb_true_iff, Z.ltb_ge. exact Hseen.
  - intros k Hk. unfold touched, touchAsset, getAsset.
    destruct (lookup_key fp (assets d)); unfold saveAsset; cbn [assets fingerprint];
      by rewrite lookup_key_assign_ne.
  - intros k r t Hl Ht. unfold swept, deleteAssetsNotSeenSince, getAsset in Hl. cbn [fst assets] in Hl.
    apply lookup_key_filter_Some in Hl. unfold notSeenSince in Hl. cbn [snd] in Hl.
    rewrite Ht in Hl. by apply negb_true_iff, Z.ltb_ge in Hl.
  - unfold swept, deleteAssetsNotSeenSince. cbn [fst snd assets].
    pose proof (filter_split_length (notSeenSince timestamp) (assets touched)). lia.
  - unfold swept, deleteAssetsNotSeenSince, touched, touchAsset. cbn [fst auto_sync_blocklist].
    by destruct (lookup_key fp (assets d)).
Qed.

Lemma touched_asset_survives_the_sweep_witness :
  let seen := λ fp t, mkRecord fp None (Some ("gitgallery/images/" +:+ fp)) true None None None
                        None (Some t) (Some t) None in
  let d := mkDb [("a", seen "a" 10); ("b", seen "b" 20)] [] in
  let values := mkPatch None None None None None None None None None None in
  let touched := touchAsset 100 "a" values d in
  let swept := deleteAssetsNotSeenSince 50 touched in
  (∃ row, getAsset "a" swept.1 = Some row ∧ getAsset "a" touched = Some row ∧
          lastSeenAt row = Some (nullish (p_lastSeenAt values) 100) ∧
          ∀ existing, getAsset "a" d = Some existing →
            uploaded row = nullish (p_uploaded values) (uploaded existing) ∧
            repoPath row = orElse (p_repoPath values) (repoPath existing) ∧
            lastUploadedAt row = orElse (p_lastUploadedAt values) (lastUploadedAt existing) ∧
            lastError row = orElse (p_lastError values) (lastError existing)) ∧
  (∀ k, k ≠ "a" → getAsset k touched = getAsset k d) ∧
  (∀ k row t, getAsset k swept.1 = Some row → lastSeenAt row = Some t → 50 ≤ t) ∧
  swept.2 = Z.of_nat (length (assets touched)) - Z.of_nat (length (assets swept.1)) ∧
  auto_sync_blocklist swept.1 = auto_sync_blocklist d.
Proof.
  intros seen d values touched swept.
  apply (touched_asset_survives_the_sweep 100 50 "a" values d).
  simpl. lia.
Defined.

End SweepTheorems.
Module ManifestFacts.
Import Js Text Json Github MetaIndex TextProps StoreProps ManifestProps.
Import StoreFacts RemovalFacts DocumentFacts.

Lemma getShardPath_truthy bucket : truthy_string (getShardPath bucket) = true.
Proof.
  unfold getShardPath. destruct (bucketDateParts bucket) as [[[y m] d]|]; [done|].
  by destruct (decide (bucket = "unknown")).
Qed.

Lemma rowOf_listed key rawInfo : listed (sanitizeBucket key, rowOf key rawInfo).
Proof.
  split; [apply sanitizeBucket_idem|]. unfold rowOf. cbn [snd Info.path].
  destruct (nonempty_string _) as [p|] eqn:E; [by eapply nonempty_string_truthy|].
  apply getShardPath_truthy.
Qed.

Lemma rowOf_json k i : listed (k, i) → rowOf k (json_of_info i) = i.
Proof.
  intros [_ Hpath]. destruct i as [path count updatedAt sha]. cbn [snd Info.path] in Hpath.
  destruct path as [|c path]; [done|]. by destruct sha.
Qed.

Lemma NoDup_assign {A : Type} k (v : A) l : NoDup (map fst l) → NoDup (map fst (assign k v l)).
Proof.
  intros Hnd. rewrite map_fst_assign. case_bool_decide; [done|].
  apply NoDup_app. split; [done|]. split; [|apply NoDup_singleton].
  intros x Hx ->%list_elem_of_singleton. done.
Qed.

Lemma normalizeManifest_canonical now input : canonical_manifest (normalizeManifest now input).
Proof.
  unfold canonical_manifest, normalizeManifest. cbn [Manifest.shards].
  destruct (entries_of _) as [raw|]; [|split; constructor].
  assert (∀ acc, NoDup (map fst acc) ∧ Forall listed acc →
            NoDup (map fst (fold_left
                     (λ shards '(key, rawInfo),
                        if is_object rawInfo then assign (sanitizeBucket key) (rowOf key rawInfo) shards
                        else shards) raw acc))
            ∧ Forall listed (fold_left
                     (λ shards '(key, rawInfo),
                        if is_object rawInfo then assign (sanitizeBucket key) (rowOf key rawInfo) shards
                        else shards) raw acc)) as H.
  { induction raw as [|[k v] raw IH]; intros acc [Hnd Hall]; simpl; [done|].
    apply IH. destruct (is_object v); [|done]. split; [by apply NoDup_assign|].
    apply Forall_assign; [apply rowOf_listed|done]. }
  apply H. split; constructor.
Qed.

Lemma normalizeManifest_rows (rows : list (string * Info.t)) : ∀ acc,
  NoDup (map fst rows) →
  (∀ k, k ∈ map fst rows → k ∉ map fst acc) →
  Forall listed rows →
  fold_left
    (λ shards '(key, rawInfo),
       if is_object rawInfo then assign (sanitizeBucket key) (rowOf key rawInfo) shards
       else shards)
    (map (λ '(k, i), (k, json_of_info i)) rows) acc
  = acc ++ rows.
Proof.
  induction rows as [|[k i] rows IH]; intros acc Hnd Hfresh Hall; simpl.
  - by rewrite app_nil_r.
  - apply NoDup_cons in Hnd as [Hk Hnd]. apply Forall_cons in Hall as [Hrow Hall].
    rewrite (rowOf_json _ _ Hrow). destruct Hrow as [Hkey _]. cbn [fst] in Hkey. rewrite Hkey.
    rewrite assign_fresh by (apply Hfresh; simpl; apply elem_of_cons; by left).
    rewrite IH; [by rewrite <- app_assoc|done| |done].
    intros k0 Hin. rewrite map_app. simpl. rewrite elem_of_app, list_elem_of_singleton.
    intros [Hacc| ->]; [|done].
    eapply Hfresh; [|exact Hacc]. simpl. apply elem_of_cons. by right.
Qed.

(** A canonical manifest is what [normalizeManifest] reads from its JSON
    text. *)
Lemma normalizeManifest_json now m :
  canonical_manifest m → normalizeManifest now (Some (json_of_manifest m)) = m.
Proof.
  intros [Hnd Hall]. destruct m as [version updatedAt rows]. cbn [Manifest.shards] in *.
  unfold normalizeManifest.
  assert (entries_of (field "shards" (Some (json_of_manifest (Manifest.mk version updatedAt rows))))
          = Some (map (λ '(k, i), (k, json_of_info i)) rows)) as -> by reflexivity.
  change (fold_left _ (map _ rows) []) with
    (fold_left
       (λ shards '(key, rawInfo),
          if is_object rawInfo then assign (sanitizeBucket key) (rowOf key rawInfo) shards
          else shards)
       (map (λ '(k, i), (k, json_of_info i)) rows) []).
  rewrite (normalizeManifest_rows rows []); [done|done|intros k _; apply not_elem_of_nil|done].
Qed.

End ManifestFacts.

Section ManifestTheorems.
Import Js Text Json Github MetaIndex TextProps StoreProps ManifestProps.
Import StoreFacts ManifestFacts Samples.

(** X29. What [writeManifest] writes, [fetchManifest] reads back.  When
    [writeManifest] returns for a manifest in which every row is under a
    sanitised bucket name and has a path, the next [fetchManifest] either
    fails because the request does, or returns the manifest that was
    written (the rows in their order, the time of the manifest, and the
    current version), together with the SHA that [writeManifest] has
    returned. *)
Theorem written_manifest_reads_back (s s1 : state) (m : Manifest.t) (sha new : option string)
    (message : string) :
  canonical_manifest m →
  writeManifest m sha message s = (Ok new, s1) →
  ∃ s2, fetchManifest s1 = (Throw NetworkFailure, s2) ∨
        fetchManifest s1 = (Ok (written m, new), s2).
Proof.
  intros Hm Hwrite. unfold writeManifest in Hwrite.
  apply request_ok in Hwrite as (r' & Hput & ->).
  apply createOrUpdateFileContents_ok in Hput as (-> & Hfiles & Hhash).
  destruct (fetchManifest (set_remote r' s)) as [[read|e] s2] eqn:E; exists s2.
  - right. unfold fetchManifest in E.
    apply bind_ok in E as (data & s3 & Hreq & E).
    apply request_ok in Hreq as (r2 & Hget & ->).
    apply getContent_ok in Hget as (_ & _ & _ & Hdata).
    cbn [remote set_remote] in Hdata. rewrite Hfiles, lookup_key_assign in Hdata. subst data.
    apply bind_ok in E as (now & s4 & Hnow & E). apply gets_ok in Hnow as [-> ->].
    apply ret_ok in E as [-> _]. cbn [f_content f_sha decode encode]. do 2 f_equal.
    rewrite normalizeManifest_json; [done|]. exact Hm.
  - left. unfold fetchManifest in E.
    apply bind_throw in E as [E|(data & s3 & _ & E)].
    + apply request_throw in E as (r2 & Hget & ->).
      apply getContent_throw in Hget as (_ & _ & _ & [->|[_ Hnone]]); [done|].
      cbn [remote set_remote] in Hnone. by rewrite Hfiles, lookup_key_assign in Hnone.
    + apply bind_throw in E as [E|(? & ? & _ & E)]; [done|]. by destruct data.
Qed.

Lemma written_manifest_reads_back_witness :
  let m := Manifest.mk 7 100
             [("2023-11-14", Info.mk (getShardPath "2023-11-14") 1 100 (Some "sha-shard"));
              ("unknown", Info.mk (getShardPath "unknown") 0 50 None)] in
  let s1 := (writeManifest m None "Update GitGallery meta manifest" empty_repository).2 in
  ∃ s2, fetchManifest s1 = (Throw NetworkFailure, s2) ∨
        fetchManifest s1 = (Ok (written m, Some (demo_hash (encode (json_of_manifest (written m))))), s2).
Proof.
  intros m s1.
  apply (written_manifest_reads_back empty_repository s1 m None
           (Some (demo_hash (encode (json_of_manifest (written m)))))
           "Update GitGallery meta manifest").
  - split.
    + apply NoDup_cons. split; [|apply NoDup_singleton].
      intros H%list_elem_of_singleton. discriminate H.
    + apply Forall_cons. split; [split; vm_compute; reflexivity|].
      apply Forall_singleton. split; vm_compute; reflexivity.
  - vm_compute. reflexivity.
Defined.

(** X30. Whatever JSON value [normalizeManifest] is given, the manifest it
    returns has no bucket twice, every row is under a sanitised bucket name
    and has a path that is not empty (the path of [getShardPath] where the
    value has none), and normalising the JSON text of the manifest again
    gives the same manifest. *)
Theorem normalizeManifest_returns_canonical (now now' : Z) (input : option json) :
  let m := normalizeManifest now input in
  NoDup (map fst (Manifest.shards m)) ∧
  Forall (λ ki, sanitizeBucket ki.1 = ki.1 ∧ truthy_string (Info.path ki.2) = true)
    (Manifest.shards m) ∧
  normalizeManifest now' (Some (json_of_manifest m)) = m.
Proof.
  intros m. pose proof (normalizeManifest_canonical now input) as Hm. fold m in Hm.
  destruct Hm as [Hnd Hall]. split; [done|]. split; [exact Hall|].
  by apply normalizeManifest_json.
Qed.

End ManifestTheorems.
